(** * Dino multiplayer backend: matchmaking and the message relay

    A shallow embedding of the Go backend of the repository:

    - [backend/internal/ws/client.go]: [Client], the payload structs,
      [NewClient], [SendJSON] and [WritePump];
    - [backend/internal/ws/hub.go]: [Run], [Register], [Unregister],
      [GetClient] and [GetClientsInRoom];
    - [backend/internal/ws/handler.go]: [ServeWs], [handleMessage] and
      [notifyOpponent];
    - [backend/internal/game/matchmaker.go]: [AddToQueue], [Run] and
      [createMatch];
    - package [db] of [backend/internal/db]: [HandleLeaderboard].

    Clients are Go heap objects reached through pointers, so the model keeps a
    store of clients indexed by pointer and every function threads the world
    explicitly.  Scores are Go [int]s: 64-bit two's complement, whose
    subtraction wraps around.  A send on a closed channel panics: the
    matchmaker, whose clients come from its queue, ends in an [Outcome]. *)

From stdpp Require Import base numbers strings functions list gmap.

(** ** Go integers *)

Module GoInt.

Definition int_min : Z := (- 2 ^ 63)%Z.
Definition int_max : Z := (2 ^ 63 - 1)%Z.

(** A value of Go type [int] on a 64-bit platform. *)
Definition is_int (z : Z) : Prop := (int_min ≤ z ≤ int_max)%Z.

(** Two's complement reduction of a mathematical integer. *)
Definition wrap (z : Z) : Z := ((z + 2 ^ 63) mod 2 ^ 64 - 2 ^ 63)%Z.

(** Go's [a - b] on [int]: overflow wraps silently. *)
Definition sub (a b : Z) : Z := wrap (a - b).

End GoInt.

(** ** Data model (client.go) *)

(** A [*Client]. *)
Definition loc := nat.

(** The payload structs handed to [SendJSON]. *)
Inductive Payload : Type :=
| GameStartPayload (RoomID : string) (Seed : Z)
                   (MyID MyName OpponentID OpponentName : string)
| OpponentUpdatePayload (Score : Z) (IsAlive : bool)
| GameOverPayload (WinnerID Reason : string).

(** A marshalled [Message] sitting in a [Send] channel. *)
Record OutMessage : Type := { OutType : string; OutPayload : Payload }.

(** [Client].  [Hub] (there is one hub), [Conn] and [mu] carry no data the
    handlers read.  [Send] is the content of the buffered channel; which
    channels [Hub.Run] has closed is kept apart, as a list of clients. *)
Record Client : Type := {
  ID : string;
  Name : string;
  Send : list OutMessage;
  RoomID : string;
  InQueue : bool;
  Score : Z;
  IsAlive : bool
}.

Definition setName (v : string) (c : Client) : Client :=
  {| ID := ID c; Name := v; Send := Send c; RoomID := RoomID c;
     InQueue := InQueue c; Score := Score c; IsAlive := IsAlive c |}.
Definition setSend (v : list OutMessage) (c : Client) : Client :=
  {| ID := ID c; Name := Name c; Send := v; RoomID := RoomID c;
     InQueue := InQueue c; Score := Score c; IsAlive := IsAlive c |}.
Definition setRoomID (v : string) (c : Client) : Client :=
  {| ID := ID c; Name := Name c; Send := Send c; RoomID := v;
     InQueue := InQueue c; Score := Score c; IsAlive := IsAlive c |}.
Definition setInQueue (v : bool) (c : Client) : Client :=
  {| ID := ID c; Name := Name c; Send := Send c; RoomID := RoomID c;
     InQueue := v; Score := Score c; IsAlive := IsAlive c |}.
Definition setScore (v : Z) (c : Client) : Client :=
  {| ID := ID c; Name := Name c; Send := Send c; RoomID := RoomID c;
     InQueue := InQueue c; Score := v; IsAlive := IsAlive c |}.
Definition setIsAlive (v : bool) (c : Client) : Client :=
  {| ID := ID c; Name := Name c; Send := Send c; RoomID := RoomID c;
     InQueue := InQueue c; Score := Score c; IsAlive := v |}.

(** [NewClient]. *)
Definition NewClient (id : string) : Client :=
  {| ID := id; Name := ""; Send := []; RoomID := ""; InQueue := false;
     Score := 0; IsAlive := true |}.

(** Calls that leave the process: every [SendJSON] on a client and every
    [db.SaveScore], in program order. *)
Inductive Effect : Type :=
| CallSendJSON (c : loc) (msgType : string) (payload : Payload)
| CallSaveScore (playerID playerName : string) (score : Z).

(** The state shared by all goroutines. *)
Record World : Type := {
  heap : loc → Client;            (* the Client objects, by pointer *)
  hub_clients : gmap string loc;  (* Hub.clients *)
  queue : list loc;               (* Matchmaker.queue, oldest first *)
  trace : list Effect
}.

(** An inbound [Message].  The raw payload is kept through what
    [json.Unmarshal] yields for it into [ScorePayload] and into
    [JoinQueuePayload]; [None] is a decoding error. *)
Record Message : Type := {
  MsgType : string;
  asScorePayload : option Z;
  asJoinQueuePayload : option string
}.

(** ** Store updates *)

(** [c.f = v] through a pointer. *)
Definition upd (c : loc) (f : Client → Client) (w : World) : World :=
  {| heap := <[c := f (heap w c)]> (heap w);
     hub_clients := hub_clients w; queue := queue w; trace := trace w |}.

Definition emit (e : Effect) (w : World) : World :=
  {| heap := heap w; hub_clients := hub_clients w; queue := queue w;
     trace := trace w ++ [e] |}.

(** Capacity of [Send]: [make(chan []byte, 256)]. *)
Definition send_cap : nat := 256.

(** [Client.SendJSON] on a channel that is open: a non-blocking send; a
    full buffer drops the message. *)
Definition SendJSON (c : loc) (msgType : string) (payload : Payload)
    (w : World) : World :=
  let w1 := emit (CallSendJSON c msgType payload) w in
  if decide (length (Send (heap w1 c)) < send_cap) then
    upd c (λ cl, setSend (Send cl ++
                          [{| OutType := msgType; OutPayload := payload |}]) cl) w1
  else w1.

(** How a call ends: it returns, or it panics.  No goroutine of the
    server recovers from a panic, so the goroutine ends there, and the
    process with it.  [w] is the world the call has reached. *)
Inductive Outcome : Type :=
| Returns (w : World)
| Panics (w : World).

Definition reached (o : Outcome) : World :=
  match o with Returns w | Panics w => w end.

(** [Client.SendJSON] on a channel that may have been closed; [closed]
    lists the clients whose [Send] was closed.  A send on a closed channel
    panics, also as a case of a [select] with a [default]. *)
Definition SendJSON_or_panic (closed : list loc) (c : loc) (msgType : string)
    (payload : Payload) (w : World) : Outcome :=
  if decide (c ∈ closed) then Panics (emit (CallSendJSON c msgType payload) w)
  else Returns (SendJSON c msgType payload w).

(** [db.SaveScore]: a failure is only logged. *)
Definition SaveScore (playerID playerName : string) (score : Z)
    (w : World) : World :=
  emit (CallSaveScore playerID playerName score) w.

(** [Matchmaker.AddToQueue].  A full channel makes the sender wait for
    the matchmaker; the connection is enqueued all the same. *)
Definition AddToQueue (c : loc) (w : World) : World :=
  {| heap := heap w; hub_clients := hub_clients w; queue := queue w ++ [c];
     trace := trace w |}.

(** ** The hub (hub.go) *)

(** [range h.clients] visits every entry once, in an order Go leaves
    unspecified: [e] is one such order of the values. *)
Definition enumerates (w : World) (e : list loc) : Prop :=
  NoDup e ∧ ∀ p, p ∈ e ↔ ∃ id, hub_clients w !! id = Some p.

(** [Hub.GetClientsInRoom], for the iteration order [range]. *)
Definition GetClientsInRoom (range : list loc) (roomID : string)
    (w : World) : list loc :=
  filter (λ p, RoomID (heap w p) = roomID) range.

(** ** The relay (handler.go) *)

Definition notifyOpponent (client : loc) (msgType : string)
    (payload : Payload) (range : list loc) (w : World) : World :=
  let roomClients := GetClientsInRoom range (RoomID (heap w client)) w in
  foldl (λ w c, if decide (ID (heap w c) ≠ ID (heap w client))
                then SendJSON c msgType payload w else w)
        w roomClients.

(** The [allDead] loop. *)
Definition allDead (roomClients : list loc) (w : World) : bool :=
  forallb (λ c, negb (IsAlive (heap w c))) roomClients.

(** One iteration of the winner loop on [(winner, isDraw)]. *)
Definition pickWinner (w : World) (acc : option loc * bool) (c : loc)
    : option loc * bool :=
  match acc with
  | (None, isDraw) => (Some c, isDraw)
  | (Some winner, isDraw) =>
      if (Score (heap w c) >? Score (heap w winner))%Z then (Some c, false)
      else if (Score (heap w c) =? Score (heap w winner))%Z
           then (Some winner, true)
           else (Some winner, isDraw)
  end.

(** One iteration of the [GAME_OVER] loop. *)
Definition sendGameOver (winner : option loc) (isDraw : bool) (w : World)
    (c : loc) : World :=
  if isDraw then SendJSON c "GAME_OVER" (GameOverPayload "" "draw") w
  else SendJSON c "GAME_OVER"
         (GameOverPayload (from_option (λ p, ID (heap w p)) "" winner)
                          "all_players_died") w.

Definition persist (w : World) (c : loc) : World :=
  SaveScore (ID (heap w c)) (Name (heap w c)) (Score (heap w c)) w.

Definition cleanUp (w : World) (c : loc) : World :=
  upd c (λ cl, setScore 0 (setIsAlive true (setRoomID "" cl))) w.

(** [handleMessage].  [range1] is the iteration order of the hub inside
    [notifyOpponent], [range2] the one of the handler's own
    [GetClientsInRoom].  The clients it sends to are taken from the hub,
    where [Hub.Run] closes a channel only as it deletes the entry: its
    calls are [SendJSON] on open channels. *)
Definition handleMessage (client : loc) (msg : Message)
    (range1 range2 : list loc) (w : World) : World :=
  if decide (MsgType msg = "JOIN_QUEUE") then
    if negb (InQueue (heap w client))
       && bool_decide (RoomID (heap w client) = "") then
      let name := from_option id (ID (heap w client)) (asJoinQueuePayload msg) in
      let w1 := if decide (name ≠ "") then upd client (setName name) w
                else upd client (λ cl, setName (ID cl) cl) w in
      let w2 := AddToQueue client w1 in
      upd client (setInQueue true) w2
    else w
  else if decide (MsgType msg = "UPDATE_SCORE") then
    match asScorePayload msg with
    | None => w
    | Some score =>
        if (GoInt.sub score (Score (heap w client)) >? 50)%Z then
          notifyOpponent client "OPPONENT_UPDATE"
            (OpponentUpdatePayload (Score (heap w client))
                                   (IsAlive (heap w client))) range1 w
        else
          let w1 := upd client (setScore score) w in
          notifyOpponent client "OPPONENT_UPDATE"
            (OpponentUpdatePayload (Score (heap w1 client))
                                   (IsAlive (heap w1 client))) range1 w1
    end
  else if decide (MsgType msg = "PLAYER_DIED") then
    match asScorePayload msg with
    | None => w
    | Some score =>
        let w1 := upd client (setScore score) w in
        let w2 := upd client (setIsAlive false) w1 in
        let w3 := notifyOpponent client "OPPONENT_UPDATE"
                    (OpponentUpdatePayload (Score (heap w2 client)) false)
                    range1 w2 in
        let roomClients :=
          GetClientsInRoom range2 (RoomID (heap w3 client)) w3 in
        if allDead roomClients w3 then
          let '(winner, isDraw) :=
            foldl (pickWinner w3) (None, false) roomClients in
          let w4 := foldl (sendGameOver winner isDraw) w3 roomClients in
          let w5 := foldl persist w4 roomClients in
          foldl cleanUp w5 roomClients
        else w3
    end
  else if decide (MsgType msg = "LEAVE_GAME") then
    if decide (RoomID (heap w client) = "") then w
    else
      let w1 := SaveScore (ID (heap w client)) (Name (heap w client))
                          (Score (heap w client)) w in
      let w2 := notifyOpponent client "OPPONENT_LEFT"
                  (OpponentUpdatePayload (Score (heap w1 client)) false)
                  range1 w1 in
      upd client (λ cl, setInQueue false
                          (setScore 0 (setIsAlive true (setRoomID "" cl)))) w2
  else w.

(** ** The matchmaker (matchmaker.go) *)

(** [createMatch]; [roomID] is [uuid.New().String()] and [seed] is
    [rand.Int63()].  The players come from the queue, not from the hub:
    nothing takes a client out of the queue or out of [waiting] when its
    channel is closed, so either call of [SendJSON] may panic, and the
    function ends there. *)
Definition createMatch (closed : list loc) (player1 player2 : loc)
    (roomID : string) (seed : Z) (w : World) : Outcome :=
  let assign := λ cl,
    setScore 0 (setIsAlive true (setInQueue false (setRoomID roomID cl))) in
  let w1 := upd player1 assign w in
  let w2 := upd player2 assign w1 in
  match SendJSON_or_panic closed player1 "GAME_START"
          (GameStartPayload roomID seed
             (ID (heap w2 player1)) (Name (heap w2 player1))
             (ID (heap w2 player2)) (Name (heap w2 player2))) w2 with
  | Panics w3 => Panics w3
  | Returns w3 =>
      SendJSON_or_panic closed player2 "GAME_START"
        (GameStartPayload roomID seed
           (ID (heap w3 player2)) (Name (heap w3 player2))
           (ID (heap w3 player1)) (Name (heap w3 player1))) w3
  end.

(** A [createMatch] call that returned. *)
Record Session : Type := {
  sRoomID : string; sSeed : Z; sPlayer1 : loc; sPlayer2 : loc
}.

(** The state of [Run]'s loop: the local [waiting] (nil is [None]), the
    calls to [createMatch] that have returned, the world, and whether the
    goroutine has panicked. *)
Record RunState : Type := {
  waiting : option loc;
  sessions : list Session;
  world : World;
  panicked : bool
}.

(** One iteration of [Run] receiving [client] from the queue.  [gen k]
    is what [uuid.New] and [rand.Int63] return in the [k]-th match.  A
    panic of [createMatch] is not recovered: [waiting = nil] is not
    reached and the loop runs no further. *)
Definition Run_step (gen : nat → string * Z) (closed : list loc)
    (st : RunState) (client : loc) : RunState :=
  if panicked st then st
  else
    match waiting st with
    | None =>
        {| waiting := Some client; sessions := sessions st;
           world := world st; panicked := false |}
    | Some first =>
        let '(roomID, seed) := gen (length (sessions st)) in
        match createMatch closed first client roomID seed (world st) with
        | Returns w =>
            {| waiting := None;
               sessions := sessions st ++
                 [{| sRoomID := roomID; sSeed := seed;
                     sPlayer1 := first; sPlayer2 := client |}];
               world := w; panicked := false |}
        | Panics w =>
            {| waiting := Some first; sessions := sessions st;
               world := w; panicked := true |}
        end
    end.

(** [Run] over the connections that arrive, in arrival order, while the
    channels of [closed] are closed. *)
Definition Run (gen : nat → string * Z) (closed : list loc) (w : World)
    (arrivals : list loc) : RunState :=
  foldl (Run_step gen closed)
        {| waiting := None; sessions := []; world := w; panicked := false |}
        arrivals.

(** ** The hub's loop (hub.go) *)

Definition setHub (h : gmap string loc) (w : World) : World :=
  {| heap := heap w; hub_clients := h; queue := queue w; trace := trace w |}.

(** [Hub.Register], once [Hub.Run] has received the client. *)
Definition Register (client : loc) (w : World) : World :=
  setHub (<[ID (heap w client) := client]> (hub_clients w)) w.

(** [Hub.GetClient]: the client and [ok], as an option. *)
Definition GetClient (id : string) (w : World) : option loc :=
  hub_clients w !! id.

(** ** The server as a whole *)

(** The matchmaker's loop with the world, the [close(client.Send)] calls
    made so far, oldest first, and the pointer the next allocation
    returns. *)
Record System : Type := {
  sys_loop : RunState;
  sys_closed : list loc;
  sys_next : loc
}.

Definition sys_world (st : System) : World := world (sys_loop st).

(** Runs [f] on the world. *)
Definition on_world (f : World → World) (st : System) : System :=
  {| sys_loop := {| waiting := waiting (sys_loop st);
                    sessions := sessions (sys_loop st);
                    world := f (sys_world st);
                    panicked := panicked (sys_loop st) |};
     sys_closed := sys_closed st; sys_next := sys_next st |}.

(** [Hub.Unregister], once [Hub.Run] has received the client: the entry
    under the client's identifier is deleted and the client's channel is
    closed, if there is such an entry. *)
Definition Unregister (client : loc) (st : System) : System :=
  let w := sys_world st in
  match hub_clients w !! ID (heap w client) with
  | Some _ =>
      {| sys_loop := sys_loop (on_world
                       (setHub (delete (ID (heap w client)) (hub_clients w)))
                       st);
         sys_closed := sys_closed st ++ [client];
         sys_next := sys_next st |}
  | None => st
  end.

(** ** The connection handler (handler.go) *)

(** What [conn.ReadMessage] returned without error, with the iteration
    orders of the hub during its handling: [None] is a message that
    [json.Unmarshal] rejects. *)
Definition Read : Type := option Message * list loc * list loc.

(** [ServeWs] up to the start of the loop: the client is allocated and
    registered.  [uuid8] is [uuid.New().String()[:8]]. *)
Definition ServeWs_open (uuid8 : string) (st : System) : System :=
  let client := sys_next st in
  let st1 := on_world (upd client (λ _, NewClient ("guest_" ++ uuid8))) st in
  let st2 := on_world (Register client) st1 in
  {| sys_loop := sys_loop st2; sys_closed := sys_closed st2;
     sys_next := S (sys_next st2) |}.

(** One iteration of the loop of [ServeWs]. *)
Definition ServeWs_read (client : loc) (st : System) (r : Read) : System :=
  match r.1.1 with
  | None => st
  | Some msg => on_world (handleMessage client msg r.1.2 r.2) st
  end.

(** [ServeWs] for a connection that delivers [reads] and then fails to
    read, running alone. *)
Definition ServeWs (uuid8 : string) (reads : list Read) (st : System)
    : System :=
  let client := sys_next st in
  Unregister client (foldl (ServeWs_read client) (ServeWs_open uuid8 st) reads).

(** One iteration of [Matchmaker.Run] on the queue: it waits on an empty
    queue, and receives nothing once it has panicked. *)
Definition Run_receive (gen : nat → string * Z) (st : System) : System :=
  if panicked (sys_loop st) then st
  else
    match queue (sys_world st) with
    | [] => st
    | client :: rest =>
        {| sys_loop :=
             Run_step gen (sys_closed st)
               (sys_loop (on_world
                  (λ w, {| heap := heap w; hub_clients := hub_clients w;
                           queue := rest; trace := trace w |}) st))
               client;
           sys_closed := sys_closed st; sys_next := sys_next st |}
    end.

(** What the goroutines of the server do, one step at a time.  A step is
    taken in one piece: a hub operation when the hub's loop performs it
    under its lock, a read with the whole handling of its message.  Once
    the matchmaker has panicked it takes no step; the steps of the other
    goroutines stay possible, which is more than the dying process
    does. *)
Inductive Action : Type :=
| Opens (uuid8 : string)
| Reads (client : loc) (r : Read)
| Closes (client : loc)
| Dequeues.

Definition act (gen : nat → string * Z) (st : System) (a : Action) : System :=
  match a with
  | Opens uuid8 => ServeWs_open uuid8 st
  | Reads client r => ServeWs_read client st r
  | Closes client => Unregister client st
  | Dequeues => Run_receive gen st
  end.

(** The server at start-up: [NewHub], [NewMatchmaker], no client. *)
Definition boot : System :=
  {| sys_loop := {| waiting := None; sessions := [];
                    world := {| heap := λ _, NewClient "";
                                hub_clients := ∅; queue := [];
                                trace := [] |};
                    panicked := false |};
     sys_closed := []; sys_next := 0 |}.

(** ** The writer of a connection (client.go) *)

(** One iteration of [WritePump] that receives a message from [Send]:
    the message goes to the connection.  On an empty channel it waits. *)
Definition WritePump_receive (client : loc) (w : World)
    : option (OutMessage * World) :=
  match Send (heap w client) with
  | [] => None
  | message :: rest => Some (message, upd client (setSend rest) w)
  end.

(** * Vocabulary of the statements *)

(** A client up to the content of its [Send] buffer. *)
Definition core (c : Client) : Client := setSend [] c.

(** [w'] differs from [w] in buffers and trace only. *)
Definition frames (w w' : World) : Prop :=
  hub_clients w' = hub_clients w ∧ queue w' = queue w ∧
  ∀ q, core (heap w' q) = core (heap w q).

(** The clients [notifyOpponent] sends to. *)
Definition opponents (client : loc) (range : list loc) (w : World)
    : list loc :=
  filter (λ q, ID (heap w q) ≠ ID (heap w client))
         (GetClientsInRoom range (RoomID (heap w client)) w).

(** The payload of the [GAME_OVER] loop. *)
Definition gameOverPayload (w : World) (winner : option loc) (isDraw : bool)
    : Payload :=
  if isDraw then GameOverPayload "" "draw"
  else GameOverPayload (from_option (λ p, ID (heap w p)) "" winner)
                       "all_players_died".

(** The [db.SaveScore] call of one client. *)
Definition saveOf (w : World) (c : loc) : Effect :=
  CallSaveScore (ID (heap w c)) (Name (heap w c)) (Score (heap w c)).

(** A client after the room is cleaned up. *)
Definition cleaned (cl : Client) : Client :=
  setScore 0 (setIsAlive true (setRoomID "" cl)).

(** Arrivals taken two by two; a last odd one is left out. *)
Fixpoint pairs (l : list loc) : list (loc * loc) :=
  match l with
  | a :: b :: l' => (a, b) :: pairs l'
  | _ => []
  end.

(** The [k]-th call to [createMatch], counting from [n]. *)
Definition sessionOf (gen : nat → string * Z) (n k : nat) (ab : loc * loc)
    : Session :=
  {| sRoomID := (gen (n + k)).1; sSeed := (gen (n + k)).2;
     sPlayer1 := ab.1; sPlayer2 := ab.2 |}.

(** [A] and [B] are the two registered clients whose room is [R]. *)
Definition session (w : World) (R : string) (A B : loc) : Prop :=
  ID (heap w A) ≠ ID (heap w B) ∧
  ∀ p, ((∃ id, hub_clients w !! id = Some p) ∧ RoomID (heap w p) = R) ↔
       (p = A ∨ p = B).

(** The [GAME_OVER] payload for final scores [sA] and [sB]. *)
Definition resolution (idA : string) (sA : Z) (idB : string) (sB : Z)
    : Payload :=
  if (sA =? sB)%Z then GameOverPayload "" "draw"
  else GameOverPayload (if (sA >? sB)%Z then idA else idB)
                       "all_players_died".

(** The calls made between [w] and a later world [w']. *)
Definition emitted (w w' : World) : list Effect :=
  drop (length (trace w)) (trace w').

(** A [SendJSON] of type [GAME_OVER]. *)
Definition is_GAME_OVER (e : Effect) : bool :=
  match e with
  | CallSendJSON _ t _ => bool_decide (t = "GAME_OVER")
  | CallSaveScore _ _ _ => false
  end.

(** A [db.SaveScore]. *)
Definition is_SaveScore (e : Effect) : bool :=
  match e with
  | CallSendJSON _ _ _ => false
  | CallSaveScore _ _ _ => true
  end.

(** A step of the server: a message is handled, or the matchmaker
    creates a match while the channels of [closed] are closed. *)
Inductive Step : Type :=
| Receive (client : loc) (msg : Message) (range1 range2 : list loc)
| Match (closed : list loc) (player1 player2 : loc) (roomID : string)
        (seed : Z).

(** The world after a step; for a match that panics, the world it has
    reached. *)
Definition step (w : World) (s : Step) : World :=
  match s with
  | Receive client msg range1 range2 =>
      handleMessage client msg range1 range2 w
  | Match closed player1 player2 roomID seed =>
      reached (createMatch closed player1 player2 roomID seed w)
  end.

(** [s] matches [c] into a room. *)
Definition matches (c : loc) (s : Step) : Prop :=
  match s with
  | Receive _ _ _ _ => False
  | Match _ player1 player2 _ _ => c = player1 ∨ c = player2
  end.

(** [c] has joined the queue and has not been matched since. *)
Definition enqueued (w : World) (c : loc) : Prop :=
  InQueue (heap w c) = true ∧ RoomID (heap w c) = "".

(** The world [createMatch] returns when both channels are open. *)
Definition matched (player1 player2 : loc) (roomID : string) (seed : Z)
    (w : World) : World :=
  let w2 := upd player2 (λ cl, setScore 0 (setIsAlive true (setInQueue false
              (setRoomID roomID cl))))
              (upd player1 (λ cl, setScore 0 (setIsAlive true (setInQueue false
                 (setRoomID roomID cl)))) w) in
  let w3 := SendJSON player1 "GAME_START"
              (GameStartPayload roomID seed
                 (ID (heap w2 player1)) (Name (heap w2 player1))
                 (ID (heap w2 player2)) (Name (heap w2 player2))) w2 in
  SendJSON player2 "GAME_START"
    (GameStartPayload roomID seed
       (ID (heap w3 player2)) (Name (heap w3 player2))
       (ID (heap w3 player1)) (Name (heap w3 player1))) w3.

(** No channel of [l] is closed. *)
Definition all_open (closed l : list loc) : Prop :=
  Forall (λ c, c ∉ closed) l.

(** A client once [createMatch] has assigned it to [roomID]. *)
Definition assigned (roomID : string) (cl : Client) : Client :=
  setScore 0 (setIsAlive true (setInQueue false (setRoomID roomID cl))).

(** The two [GAME_START] calls of a session, with identifiers and names
    as in [w]. *)
Definition starts (w : World) (s : Session) : list Effect :=
  [CallSendJSON (sPlayer1 s) "GAME_START"
     (GameStartPayload (sRoomID s) (sSeed s)
        (ID (heap w (sPlayer1 s))) (Name (heap w (sPlayer1 s)))
        (ID (heap w (sPlayer2 s))) (Name (heap w (sPlayer2 s))));
   CallSendJSON (sPlayer2 s) "GAME_START"
     (GameStartPayload (sRoomID s) (sSeed s)
        (ID (heap w (sPlayer2 s))) (Name (heap w (sPlayer2 s)))
        (ID (heap w (sPlayer1 s))) (Name (heap w (sPlayer1 s))))].

(** The score of [q] once [client] has died with [score]. *)
Definition finalScore (w : World) (client : loc) (score : Z) (q : loc) : Z :=
  if decide (q = client) then score else Score (heap w q).

(** The outcome of [room] is a draw: at least two of its clients end
    with the score of [best]. *)
Definition tied (w : World) (client : loc) (score : Z) (room : list loc)
    (best : loc) : Prop :=
  2 ≤ length (filter (λ q, finalScore w client score q =
                           finalScore w client score best) room).

(** What the winner loop has established after the clients [seen]. *)
Definition leads (w : World) (seen : list loc) (acc : option loc * bool)
    : Prop :=
  ∃ x, acc.1 = Some x ∧ x ∈ seen ∧
       (∀ y, y ∈ seen → (Score (heap w y) ≤ Score (heap w x))%Z) ∧
       (acc.2 = true ↔
        2 ≤ length (filter (λ y, Score (heap w y) = Score (heap w x)) seen)).

(** A server whose registry is in order: every entry of the hub is
    stored under the identifier of its client, which [ServeWs] made, the
    client has been allocated and its channel has not been closed; only
    channels of allocated clients have been closed. *)
Definition registry_ok (st : System) : Prop :=
  (∀ id p, hub_clients (sys_world st) !! id = Some p →
     ID (heap (sys_world st) p) = id ∧ (∃ uuid8, id = ("guest_" ++ uuid8)%string) ∧
     p < sys_next st ∧ p ∉ sys_closed st) ∧
  (∀ p, p ∈ sys_closed st → p < sys_next st).

(** An action that names a connection names one that has been opened. *)
Definition known (st : System) (a : Action) : Prop :=
  match a with
  | Reads client _ | Closes client => client < sys_next st
  | Opens _ | Dequeues => True
  end.

(** A run in which every action is [known] when it happens. *)
Fixpoint legal (gen : nat → string * Z) (st : System) (actions : list Action)
    : Prop :=
  match actions with
  | [] => True
  | a :: rest => known st a ∧ legal gen (act gen st a) rest
  end.

(** No buffer holds more than its capacity. *)
Definition bounded (w : World) : Prop :=
  ∀ q, length (Send (heap w q)) ≤ send_cap.

(** A read that the loop of [ServeWs] or the [switch] of the relay lets
    fall: a message that does not parse, a type the [switch] does not
    know, or a score message whose payload does not decode. *)
Definition inert (r : Read) : bool :=
  match r.1.1 with
  | None => true
  | Some msg =>
      if decide (MsgType msg = "JOIN_QUEUE") then false
      else if decide (MsgType msg = "LEAVE_GAME") then false
      else if decide (MsgType msg = "UPDATE_SCORE"
                      ∨ MsgType msg = "PLAYER_DIED")
           then bool_decide (asScorePayload msg = None)
           else true
  end.

(** What happens to the channel of one client: a [SendJSON] on it, or an
    iteration of its [WritePump]. *)
Inductive ChanOp : Type :=
| Put (msgType : string) (payload : Payload)
| Take.

(** The world and the messages written to the connection so far. *)
Definition chan_step (client : loc) (st : World * list OutMessage)
    (op : ChanOp) : World * list OutMessage :=
  match op with
  | Put msgType payload => (SendJSON client msgType payload st.1, st.2)
  | Take =>
      match WritePump_receive client st.1 with
      | Some (message, w) => (w, st.2 ++ [message])
      | None => st
      end
  end.

(** The messages of the [Put]s of a run, in order. *)
Definition puts (ops : list ChanOp) : list OutMessage :=
  omap (λ op, match op with
              | Put t p => Some {| OutType := t; OutPayload := p |}
              | Take => None
              end) ops.

(** ** Runs of the server on two guests *)

Module Examples.

(** Payload [{"name": name}]. *)
Definition join (name : string) : Message :=
  {| MsgType := "JOIN_QUEUE"; asScorePayload := Some 0%Z;
     asJoinQueuePayload := Some name |}.

(** Payload [{"score": score}]. *)
Definition report (type : string) (score : Z) : Message :=
  {| MsgType := type; asScorePayload := Some score;
     asJoinQueuePayload := Some "" |}.

(** No payload. *)
Definition leave : Message :=
  {| MsgType := "LEAVE_GAME"; asScorePayload := None;
     asJoinQueuePayload := None |}.

(** Two connections, just registered. *)
Definition lobby : World :=
  {| heap := <[1 := NewClient "guest_a"]>
               (<[2 := NewClient "guest_b"]> (λ _, NewClient "guest_0"));
     hub_clients := <["guest_a" := 1]> (<["guest_b" := 2]> ∅);
     queue := []; trace := [] |}.

(** Both have joined the queue and the matchmaker has paired them. *)
Definition arena : World :=
  foldl step lobby
    [Receive 1 (join "ann") [1; 2] [1; 2];
     Receive 2 (join "bob") [2; 1] [1; 2];
     Match [] 1 2 "room-1" 42].

End Examples.

Import Examples.

(** ** A run of the whole server *)

(** A generator that always gives the same room and seed. *)
Definition one_room (k : nat) : string * Z := ("room-1", 42%Z).

(** Two connections open and join the queue; the matchmaker has seen
    the first one only. *)
Definition arrivals : list Action :=
  [Opens "aaaaaaaa"; Reads 0 (Some (join "ann"), [0], [0]); Dequeues;
   Opens "bbbbbbbb"; Reads 1 (Some (join "bob"), [0; 1], [0; 1])].

Definition duel_waiting : System := foldl (act one_room) boot arrivals.

(** The matchmaker has seen both. *)
Definition duel : System := act one_room duel_waiting Dequeues.

(** The first connection has closed while it was waiting. *)
Definition gone_waiting : System := act one_room duel_waiting (Closes 0).

(** ** The leaderboard endpoint (db.go) *)

Module db.

(** Go's [a + b] and [a * b] on [int]. *)
Definition add (a b : Z) : Z := GoInt.wrap (a + b).
Definition mul (a b : Z) : Z := GoInt.wrap (a * b).

(** A row of table [leaderboard] as the page query selects it;
    [created_at] is the time as [Format(time.RFC3339)] prints it. *)
Record Row : Type := {
  player_id : string;
  player_name : string;
  score : Z;
  created_at : string
}.

Record LeaderboardEntry : Type := {
  Rank : Z;
  PlayerID : string;
  PlayerName : string;
  Score : Z;
  CreatedAt : string
}.

Record LeaderboardResponse : Type := {
  Entries : list LeaderboardEntry;
  TotalCount : Z;
  Page : Z;
  PageSize : Z;
  TotalPages : Z
}.

(** What the pool answers: the count query, and the page query for the
    arguments of [LIMIT] and [OFFSET].  [None] is an error; a row is [None]
    when [rows.Scan] fails on it. *)
Record Database : Type := {
  count_rows : option Z;
  select_page : Z → Z → option (list (option Row))
}.

(** What the handler writes: a status with a body, or the encoded
    response. *)
Inductive Reply : Type :=
| Status (code : Z) (body : string)
| Json (response : LeaderboardResponse).

(** The loop over [rows]: a row that fails to scan is skipped and takes no
    rank. *)
Fixpoint scan (rank : Z) (rows : list (option Row)) : list LeaderboardEntry :=
  match rows with
  | [] => []
  | None :: rows => scan rank rows
  | Some row :: rows =>
      {| Rank := rank; PlayerID := player_id row;
         PlayerName := player_name row; Score := score row;
         CreatedAt := created_at row |} :: scan (add rank 1) rows
  end.

(** [HandleLeaderboard].  [page_param] and [limit_param] are the query
    parameters [page] and [limit] through [strconv.Atoi]: [None] when the
    parameter is empty or [Atoi] fails. *)
Definition HandleLeaderboard (pool : Database) (method : string)
    (page_param limit_param : option Z) : Reply :=
  if decide (method = "OPTIONS") then Status 200 ""
  else if decide (method ≠ "GET") then Status 405 "Method not allowed"
  else
    let page :=
      match page_param with
      | Some parsed => if decide (parsed > 0)%Z then parsed else 1%Z
      | None => 1%Z
      end in
    let pageSize :=
      match limit_param with
      | Some parsed =>
          if decide ((parsed > 0)%Z ∧ (parsed ≤ 100)%Z) then parsed else 10%Z
      | None => 10%Z
      end in
    let offset := mul (GoInt.sub page 1) pageSize in
    match count_rows pool with
    | None => Status 500 "Database error"
    | Some totalCount =>
        match select_page pool pageSize offset with
        | None => Status 500 "Database error"
        | Some rows =>
            let entries := scan (add offset 1) rows in
            let totalPages :=
              Z.quot (GoInt.sub (add totalCount pageSize) 1) pageSize in
            let totalPages :=
              if decide (totalPages = 0%Z) then 1%Z else totalPages in
            Json {| Entries := entries; TotalCount := totalCount;
                    Page := page; PageSize := pageSize;
                    TotalPages := totalPages |}
        end
    end.

End db.

(** ** Vocabulary of the leaderboard *)

(** The pool answers from the table [ordered], listed as
    [ORDER BY score DESC] lists it: the count is its length and a page is
    [limit] rows after the first [offset], all of which scan. *)
Definition serves (pool : db.Database) (ordered : list db.Row) : Prop :=
  db.count_rows pool = Some (Z.of_nat (length ordered)) ∧
  ∀ limit offset : Z, (0 ≤ limit)%Z → (0 ≤ offset)%Z →
    db.select_page pool limit offset =
      Some (Some <$> take (Z.to_nat limit) (drop (Z.to_nat offset) ordered)).

(** The entries of [rows] with the ranks [first], [first + 1], ... *)
Fixpoint ranked (first : Z) (rows : list db.Row) : list db.LeaderboardEntry :=
  match rows with
  | [] => []
  | row :: rows =>
      {| db.Rank := first; db.PlayerID := db.player_id row;
         db.PlayerName := db.player_name row; db.Score := db.score row;
         db.CreatedAt := db.created_at row |} :: ranked (first + 1) rows
  end.

(** The page size a [limit] parameter asks for. *)
Definition page_size (limit_param : option Z) : Z :=
  match limit_param with
  | Some parsed =>
      if decide ((parsed > 0)%Z ∧ (parsed ≤ 100)%Z) then parsed else 10%Z
  | None => 10%Z
  end.

(** The number of pages of [count] rows, [size] rows a page; an empty
    table has one page. *)
Definition page_count (count size : Z) : Z :=
  Z.max 1 ((count + size - 1) / size).

(** The entries a reply carries. *)
Definition entries (reply : db.Reply) : list db.LeaderboardEntry :=
  match reply with
  | db.Json response => db.Entries response
  | db.Status _ _ => []
  end.

(** The entries of the pages [1] to [n], one page after the other. *)
Definition pages (pool : db.Database) (limit_param : option Z) (n : nat)
    : list db.LeaderboardEntry :=
  mjoin ((λ k, entries (db.HandleLeaderboard pool "GET"
                          (Some (Z.of_nat (S k))) limit_param))
         <$> seq 0 n).

(** A pool over a table of three rows. *)
Definition podium : list db.Row :=
  [ {| db.player_id := "guest_a"; db.player_name := "ann"; db.score := 30;
       db.created_at := "2024-01-01T00:00:00Z" |};
    {| db.player_id := "guest_b"; db.player_name := "bob"; db.score := 20;
       db.created_at := "2024-01-01T00:00:01Z" |};
    {| db.player_id := "guest_c"; db.player_name := "cat"; db.score := 10;
       db.created_at := "2024-01-01T00:00:02Z" |} ].

Definition podium_pool : db.Database :=
  {| db.count_rows := Some 3%Z;
     db.select_page := λ limit offset,
       Some (Some <$> take (Z.to_nat limit) (drop (Z.to_nat offset) podium)) |}.

(** * Verification *)

#[global] Arguments upd : simpl never.
#[global] Arguments emit : simpl never.
#[global] Arguments SendJSON : simpl never.
#[global] Arguments SaveScore : simpl never.
#[global] Arguments AddToQueue : simpl never.
#[global] Arguments GetClientsInRoom : simpl never.
#[global] Arguments notifyOpponent : simpl never.
#[global] Arguments createMatch : simpl never.
#[global] Arguments matched : simpl never.
#[global] Arguments GoInt.sub : simpl never.

(** ** Go integers *)

Lemma wrap_id (z : Z) : GoInt.is_int z → GoInt.wrap z = z.
Proof.
  unfold GoInt.is_int, GoInt.int_min, GoInt.int_max, GoInt.wrap. intros H.
  rewrite Z.mod_small by lia. lia.
Qed.

Lemma wrap_is_int (z : Z) : GoInt.is_int (GoInt.wrap z).
Proof.
  unfold GoInt.is_int, GoInt.int_min, GoInt.int_max, GoInt.wrap.
  pose proof (Z.mod_pos_bound (z + 2 ^ 63) (2 ^ 64)). lia.
Qed.

(** ** What each primitive touches *)

Lemma core_setSend s c : core (setSend s c) = core c.
Proof. reflexivity. Qed.

Lemma core_fields c c' :
  core c = core c' →
  ID c = ID c' ∧ Name c = Name c' ∧ RoomID c = RoomID c' ∧
  InQueue c = InQueue c' ∧ Score c = Score c' ∧ IsAlive c = IsAlive c'.
Proof.
  intros H.
  split; [apply (f_equal ID H)|]. split; [apply (f_equal Name H)|].
  split; [apply (f_equal RoomID H)|]. split; [apply (f_equal InQueue H)|].
  split; [apply (f_equal Score H) | apply (f_equal IsAlive H)].
Qed.

Lemma heap_upd_eq w c f : heap (upd c f w) c = f (heap w c).
Proof. unfold upd; simpl. apply fn_lookup_insert. Qed.

Lemma heap_upd_ne w c f q : c ≠ q → heap (upd c f w) q = heap w q.
Proof. intros. unfold upd; simpl. by apply fn_lookup_insert_ne. Qed.

Lemma heap_upd w c f q :
  heap (upd c f w) q = if decide (c = q) then f (heap w c) else heap w q.
Proof.
  case_decide; subst; [apply heap_upd_eq | by apply heap_upd_ne].
Qed.

Lemma trace_upd w c f : trace (upd c f w) = trace w.
Proof. reflexivity. Qed.
Lemma queue_upd w c f : queue (upd c f w) = queue w.
Proof. reflexivity. Qed.
Lemma hub_upd w c f : hub_clients (upd c f w) = hub_clients w.
Proof. reflexivity. Qed.

Section Primitives.
Context (w : World).

Lemma heap_SendJSON_core c t p q :
  core (heap (SendJSON c t p w) q) = core (heap w q).
Proof.
  unfold SendJSON. case_decide; [|done].
  rewrite heap_upd. by case_decide; subst.
Qed.

Lemma trace_SendJSON c t p :
  trace (SendJSON c t p w) = trace w ++ [CallSendJSON c t p].
Proof. unfold SendJSON. by case_decide. Qed.
Lemma queue_SendJSON c t p : queue (SendJSON c t p w) = queue w.
Proof. unfold SendJSON. by case_decide. Qed.
Lemma hub_SendJSON c t p : hub_clients (SendJSON c t p w) = hub_clients w.
Proof. unfold SendJSON. by case_decide. Qed.

Lemma ID_SendJSON c t p q : ID (heap (SendJSON c t p w) q) = ID (heap w q).
Proof. apply (f_equal ID (heap_SendJSON_core c t p q)). Qed.
Lemma Name_SendJSON c t p q :
  Name (heap (SendJSON c t p w) q) = Name (heap w q).
Proof. apply (f_equal Name (heap_SendJSON_core c t p q)). Qed.
Lemma RoomID_SendJSON c t p q :
  RoomID (heap (SendJSON c t p w) q) = RoomID (heap w q).
Proof. apply (f_equal RoomID (heap_SendJSON_core c t p q)). Qed.
Lemma InQueue_SendJSON c t p q :
  InQueue (heap (SendJSON c t p w) q) = InQueue (heap w q).
Proof. apply (f_equal InQueue (heap_SendJSON_core c t p q)). Qed.
Lemma Score_SendJSON c t p q :
  Score (heap (SendJSON c t p w) q) = Score (heap w q).
Proof. apply (f_equal Score (heap_SendJSON_core c t p q)). Qed.
Lemma IsAlive_SendJSON c t p q :
  IsAlive (heap (SendJSON c t p w) q) = IsAlive (heap w q).
Proof. apply (f_equal IsAlive (heap_SendJSON_core c t p q)). Qed.

(** With room in the buffer the message is appended to it. *)
Lemma Send_SendJSON_room c t p :
  length (Send (heap w c)) < send_cap →
  Send (heap (SendJSON c t p w) c) =
    Send (heap w c) ++ [{| OutType := t; OutPayload := p |}].
Proof.
  intros. unfold SendJSON. rewrite decide_True by done.
  by rewrite heap_upd_eq.
Qed.

(** A full buffer drops it. *)
Lemma Send_SendJSON_full c t p :
  ¬ length (Send (heap w c)) < send_cap →
  Send (heap (SendJSON c t p w) c) = Send (heap w c).
Proof. intros. unfold SendJSON. by rewrite decide_False by done. Qed.

Lemma Send_SendJSON_ne c t p q :
  c ≠ q → Send (heap (SendJSON c t p w) q) = Send (heap w q).
Proof.
  intros. unfold SendJSON. case_decide; [|done]. by rewrite heap_upd_ne.
Qed.

Lemma heap_SaveScore i n s : heap (SaveScore i n s w) = heap w.
Proof. reflexivity. Qed.
Lemma trace_SaveScore i n s :
  trace (SaveScore i n s w) = trace w ++ [CallSaveScore i n s].
Proof. reflexivity. Qed.
Lemma queue_SaveScore i n s : queue (SaveScore i n s w) = queue w.
Proof. reflexivity. Qed.
Lemma hub_SaveScore i n s : hub_clients (SaveScore i n s w) = hub_clients w.
Proof. reflexivity. Qed.

End Primitives.

(** ** Frames: what a sequence of sends and saves leaves alone *)

Lemma frames_refl w : frames w w.
Proof. by repeat split. Qed.

Lemma frames_trans w1 w2 w3 : frames w1 w2 → frames w2 w3 → frames w1 w3.
Proof.
  intros (H1 & H2 & H3) (H4 & H5 & H6).
  split; [congruence|]. split; [congruence|].
  intros q. by rewrite H6.
Qed.

Lemma frames_SendJSON w c t p : frames w (SendJSON c t p w).
Proof.
  repeat split; [apply hub_SendJSON | apply queue_SendJSON |].
  intros q. apply heap_SendJSON_core.
Qed.

Lemma frames_SaveScore w i n s : frames w (SaveScore i n s w).
Proof. by repeat split. Qed.

Lemma frames_foldl (g : World → loc → World) l :
  (∀ w c, frames w (g w c)) → ∀ w, frames w (foldl g w l).
Proof.
  intros Hg. induction l as [|c l IH]; intros w; simpl.
  - apply frames_refl.
  - eapply frames_trans; [apply Hg | apply IH].
Qed.

Section Frames.
Context (w w' : World) (H : frames w w').

Lemma frames_ID q : ID (heap w' q) = ID (heap w q).
Proof. destruct H as (_ & _ & Hq). apply (f_equal ID (Hq q)). Qed.
Lemma frames_Name q : Name (heap w' q) = Name (heap w q).
Proof. destruct H as (_ & _ & Hq). apply (f_equal Name (Hq q)). Qed.
Lemma frames_RoomID q : RoomID (heap w' q) = RoomID (heap w q).
Proof. destruct H as (_ & _ & Hq). apply (f_equal RoomID (Hq q)). Qed.
Lemma frames_InQueue q : InQueue (heap w' q) = InQueue (heap w q).
Proof. destruct H as (_ & _ & Hq). apply (f_equal InQueue (Hq q)). Qed.
Lemma frames_Score q : Score (heap w' q) = Score (heap w q).
Proof. destruct H as (_ & _ & Hq). apply (f_equal Score (Hq q)). Qed.
Lemma frames_IsAlive q : IsAlive (heap w' q) = IsAlive (heap w q).
Proof. destruct H as (_ & _ & Hq). apply (f_equal IsAlive (Hq q)). Qed.
Lemma frames_queue : queue w' = queue w.
Proof. apply H. Qed.
Lemma frames_hub : hub_clients w' = hub_clients w.
Proof. apply H. Qed.

Lemma frames_GetClientsInRoom e r :
  GetClientsInRoom e r w' = GetClientsInRoom e r w.
Proof.
  unfold GetClientsInRoom. apply list_filter_iff.
  intros q. by rewrite frames_RoomID.
Qed.

Lemma frames_allDead l : allDead l w' = allDead l w.
Proof.
  unfold allDead. induction l as [|c l IH]; simpl; [done|].
  by rewrite frames_IsAlive, IH.
Qed.

Lemma frames_pickWinner acc c : pickWinner w' acc c = pickWinner w acc c.
Proof.
  unfold pickWinner. destruct acc as [[x|] d]; [|done].
  by rewrite !frames_Score.
Qed.

End Frames.

Lemma frames_foldl_pickWinner w w' l acc :
  frames w w' → foldl (pickWinner w') acc l = foldl (pickWinner w) acc l.
Proof.
  intros Hf. revert acc. induction l as [|c l IH]; intros acc; simpl; [done|].
  by rewrite IH, (frames_pickWinner w w' Hf).
Qed.

(** ** The loops of the relay *)

Lemma notify_loop w0 client t p l :
  ∀ w, frames w0 w →
    let w' := foldl (λ w c, if decide (ID (heap w c) ≠ ID (heap w client))
                            then SendJSON c t p w else w) w l in
    frames w0 w' ∧
    trace w' = trace w ++
      map (λ q, CallSendJSON q t p)
          (filter (λ q, ID (heap w0 q) ≠ ID (heap w0 client)) l).
Proof.
  induction l as [|c l IH]; intros w Hf; simpl.
  - split; [done|]. by rewrite app_nil_r.
  - rewrite !(frames_ID w0 w Hf). rewrite filter_cons.
    destruct (decide (ID (heap w0 c) ≠ ID (heap w0 client))) as [Hne|Heq].
    + destruct (IH (SendJSON c t p w)) as [Hf' Ht].
      { eapply frames_trans; [done | apply frames_SendJSON]. }
      split; [done|]. simpl in Ht. rewrite Ht, trace_SendJSON.
      by rewrite <- app_assoc.
    + by apply IH.
Qed.

Lemma frames_notifyOpponent w client t p e :
  frames w (notifyOpponent client t p e w).
Proof. unfold notifyOpponent. apply notify_loop, frames_refl. Qed.

Lemma trace_notifyOpponent w client t p e :
  trace (notifyOpponent client t p e w) =
    trace w ++ map (λ q, CallSendJSON q t p) (opponents client e w).
Proof. unfold notifyOpponent, opponents. apply notify_loop, frames_refl. Qed.

(** [notifyOpponent] never writes to the sender's own buffer. *)
Lemma Send_notifyOpponent w client t p e :
  Send (heap (notifyOpponent client t p e w) client) = Send (heap w client).
Proof.
  unfold notifyOpponent.
  generalize (GetClientsInRoom e (RoomID (heap w client)) w). intros l.
  revert w. induction l as [|c l IH]; intros w; [done|].
  cbn [foldl]. case_decide as Hne; [|by apply IH].
  rewrite IH. apply Send_SendJSON_ne. intros ->. by apply Hne.
Qed.

Lemma gameOver_loop w0 winner isDraw l :
  ∀ w, frames w0 w →
    frames w0 (foldl (sendGameOver winner isDraw) w l) ∧
    trace (foldl (sendGameOver winner isDraw) w l) =
      trace w ++ map (λ c, CallSendJSON c "GAME_OVER"
                             (gameOverPayload w0 winner isDraw)) l.
Proof.
  induction l as [|c l IH]; intros w Hf; simpl.
  - split; [done|]. by rewrite app_nil_r.
  - assert (sendGameOver winner isDraw w c =
            SendJSON c "GAME_OVER" (gameOverPayload w0 winner isDraw) w) as ->.
    { unfold sendGameOver, gameOverPayload. destruct isDraw; [done|].
      destruct winner as [x|]; simpl; [|done].
      by rewrite (frames_ID w0 w Hf). }
    destruct (IH (SendJSON c "GAME_OVER" (gameOverPayload w0 winner isDraw) w))
      as [Hf' Ht].
    { eapply frames_trans; [done | apply frames_SendJSON]. }
    split; [done|]. rewrite Ht, trace_SendJSON. by rewrite <- app_assoc.
Qed.

Lemma persist_loop w0 l :
  ∀ w, frames w0 w →
    frames w0 (foldl persist w l) ∧
    heap (foldl persist w l) = heap w ∧
    trace (foldl persist w l) = trace w ++ map (saveOf w0) l.
Proof.
  induction l as [|c l IH]; intros w Hf; simpl.
  - split; [done|]. split; [done|]. by rewrite app_nil_r.
  - destruct (IH (persist w c)) as (Hf' & Hh & Ht).
    { eapply frames_trans; [done | apply frames_SaveScore]. }
    split; [done|]. split; [by rewrite Hh|].
    rewrite Ht. unfold persist at 1. rewrite trace_SaveScore.
    unfold saveOf at 2.
    rewrite (frames_ID w0 w Hf), (frames_Name w0 w Hf), (frames_Score w0 w Hf).
    by rewrite <- app_assoc.
Qed.

Lemma cleanUp_loop l :
  ∀ w, let w' := foldl cleanUp w l in
    trace w' = trace w ∧ queue w' = queue w ∧
    hub_clients w' = hub_clients w ∧
    ∀ q, heap w' q = if decide (q ∈ l) then cleaned (heap w q) else heap w q.
Proof.
  induction l as [|c l IH]; intros w; cbn [foldl].
  - do 3 (split; [done|]).
    intros q. by rewrite decide_False by apply not_elem_of_nil.
  - destruct (IH (cleanUp w c)) as (Ht & Hq & Hh & Hp).
    do 3 (split; [done|]).
    intros q. rewrite Hp. unfold cleanUp. rewrite heap_upd.
    destruct (decide (q ∈ l)) as [Hin|Hin];
      destruct (decide (c = q)) as [->|Hc];
      destruct (decide (_ ∈ _ :: _)) as [Hin'|Hin']; try done;
      rewrite elem_of_cons in Hin'; intuition congruence.
Qed.

(** ** The dispatch of [handleMessage] *)

(** Selects the [case] of the [switch] named by [E]. *)
Ltac dispatch E :=
  unfold handleMessage; rewrite E;
  rewrite ?decide_False by done; rewrite decide_True by done; cbv zeta.

Section Dispatch.
Context (client : loc) (msg : Message) (range1 range2 : list loc)
        (w : World).

Lemma handle_JOIN_QUEUE :
  MsgType msg = "JOIN_QUEUE" →
  handleMessage client msg range1 range2 w =
    if negb (InQueue (heap w client))
       && bool_decide (RoomID (heap w client) = "") then
      let name :=
        from_option id (ID (heap w client)) (asJoinQueuePayload msg) in
      let w1 := if decide (name ≠ "") then upd client (setName name) w
                else upd client (λ cl, setName (ID cl) cl) w in
      upd client (setInQueue true) (AddToQueue client w1)
    else w.
Proof. intros E. by dispatch E. Qed.

Lemma handle_UPDATE_SCORE score :
  MsgType msg = "UPDATE_SCORE" → asScorePayload msg = Some score →
  handleMessage client msg range1 range2 w =
    if (GoInt.sub score (Score (heap w client)) >? 50)%Z then
      notifyOpponent client "OPPONENT_UPDATE"
        (OpponentUpdatePayload (Score (heap w client))
                               (IsAlive (heap w client))) range1 w
    else
      notifyOpponent client "OPPONENT_UPDATE"
        (OpponentUpdatePayload score (IsAlive (heap w client))) range1
        (upd client (setScore score) w).
Proof.
  intros E Es. dispatch E. rewrite Es.
  by rewrite !heap_upd_eq.
Qed.

Lemma handle_PLAYER_DIED score :
  MsgType msg = "PLAYER_DIED" → asScorePayload msg = Some score →
  handleMessage client msg range1 range2 w =
    let w2 := upd client (setIsAlive false) (upd client (setScore score) w) in
    let w3 := notifyOpponent client "OPPONENT_UPDATE"
                (OpponentUpdatePayload score false) range1 w2 in
    let roomClients :=
      GetClientsInRoom range2 (RoomID (heap w client)) w2 in
    if allDead roomClients w2 then
      let wd := foldl (pickWinner w2) (None, false) roomClients in
      foldl cleanUp
        (foldl persist
           (foldl (sendGameOver wd.1 wd.2) w3 roomClients) roomClients)
        roomClients
    else w3.
Proof.
  intros E Es. dispatch E. rewrite Es.
  set (w2 := upd client (setIsAlive false) (upd client (setScore score) w)).
  assert (Score (heap w2 client) = score) as ->.
  { unfold w2. by rewrite !heap_upd_eq. }
  set (w3 := notifyOpponent _ _ _ _ w2).
  assert (frames w2 w3) as Hf by apply frames_notifyOpponent.
  assert (RoomID (heap w3 client) = RoomID (heap w client)) as ->.
  { rewrite (frames_RoomID _ _ Hf). unfold w2. by rewrite !heap_upd_eq. }
  rewrite (frames_GetClientsInRoom _ _ Hf), (frames_allDead _ _ Hf).
  rewrite (frames_foldl_pickWinner _ _ _ _ Hf).
  by destruct (foldl _ _ _).
Qed.

Lemma handle_LEAVE_GAME :
  MsgType msg = "LEAVE_GAME" →
  handleMessage client msg range1 range2 w =
    if decide (RoomID (heap w client) = "") then w
    else
      upd client (λ cl, setInQueue false (cleaned cl))
        (notifyOpponent client "OPPONENT_LEFT"
           (OpponentUpdatePayload (Score (heap w client)) false) range1
           (SaveScore (ID (heap w client)) (Name (heap w client))
                      (Score (heap w client)) w)).
Proof. intros E. by dispatch E. Qed.

(** Any other type falls through the [switch]. *)
Lemma handle_other :
  MsgType msg ≠ "JOIN_QUEUE" → MsgType msg ≠ "UPDATE_SCORE" →
  MsgType msg ≠ "PLAYER_DIED" → MsgType msg ≠ "LEAVE_GAME" →
  handleMessage client msg range1 range2 w = w.
Proof. intros. unfold handleMessage. by rewrite !decide_False by done. Qed.

(** A payload that does not decode drops the message. *)
Lemma handle_undecodable :
  (MsgType msg = "UPDATE_SCORE" ∨ MsgType msg = "PLAYER_DIED") →
  asScorePayload msg = None →
  handleMessage client msg range1 range2 w = w.
Proof. intros [E|E] Es; dispatch E; by rewrite Es. Qed.

End Dispatch.

(** ** The matchmaker *)

Lemma emitted_app w w' l : trace w' = trace w ++ l → emitted w w' = l.
Proof. intros H. unfold emitted. by rewrite H, drop_app_length. Qed.

Lemma list_pair_ind (P : list loc → Prop) :
  P [] → (∀ a, P [a]) → (∀ a b l, P l → P (a :: b :: l)) → ∀ l, P l.
Proof.
  intros H0 H1 H2 l. enough (P l ∧ ∀ a, P (a :: l)) by tauto.
  induction l as [|b l [IH1 IH2]]; split; auto.
Qed.

Lemma length_pairs l : length (pairs l) = length l `div` 2.
Proof.
  induction l as [|a|a b l IH] using list_pair_ind; [done..|].
  cbn [pairs length]. rewrite IH.
  change (S (S (length l))) with (1 * 2 + length l).
  rewrite Nat.div_add_l by done. lia.
Qed.

Lemma lookup_pairs l k a b :
  pairs l !! k = Some (a, b) ↔
  l !! (2 * k) = Some a ∧ l !! (2 * k + 1) = Some b.
Proof.
  revert k. induction l as [|x|x y l IH] using list_pair_ind; intros k.
  - split; [done|]. by intros [? _].
  - split; [done|]. intros [_ H]. by replace (2 * k + 1) with (S (2 * k)) in H by lia.
  - destruct k as [|k].
    + simpl. split; [by intros [= -> ->] | by intros [[= ->] [= ->]]].
    + cbn [pairs]. replace (2 * S k) with (S (S (2 * k))) by lia.
      replace (S (S (2 * k)) + 1) with (S (S (2 * k + 1))) by lia.
      simpl. apply IH.
Qed.

Lemma matched_unfold (w : World) (player1 player2 : loc)
    (roomID : string) (seed : Z) :
  let w2 := upd player2 (assigned roomID) (upd player1 (assigned roomID) w) in
  (∀ p, ID (heap w2 p) = ID (heap w p) ∧ Name (heap w2 p) = Name (heap w p)) ∧
  matched player1 player2 roomID seed w =
    SendJSON player2 "GAME_START"
      (GameStartPayload roomID seed
         (ID (heap w player2)) (Name (heap w player2))
         (ID (heap w player1)) (Name (heap w player1)))
      (SendJSON player1 "GAME_START"
         (GameStartPayload roomID seed
            (ID (heap w player1)) (Name (heap w player1))
            (ID (heap w player2)) (Name (heap w player2))) w2).
Proof.
  intros w2.
  assert (∀ p, ID (heap w2 p) = ID (heap w p) ∧
               Name (heap w2 p) = Name (heap w p)) as Hid.
  { intros p. unfold w2. rewrite !heap_upd.
    repeat case_decide; subst; by rewrite ?heap_upd_eq. }
  split; [done|].
  unfold matched. cbv zeta. fold (assigned roomID). fold w2.
  rewrite !ID_SendJSON, !Name_SendJSON.
  destruct (Hid player1) as [-> ->]. by destruct (Hid player2) as [-> ->].
Qed.

Lemma matched_start_trace (w : World) (player1 player2 : loc)
    (roomID : string) (seed : Z) :
  trace (matched player1 player2 roomID seed w) =
    trace w ++
    [CallSendJSON player1 "GAME_START"
       (GameStartPayload roomID seed
          (ID (heap w player1)) (Name (heap w player1))
          (ID (heap w player2)) (Name (heap w player2)));
     CallSendJSON player2 "GAME_START"
       (GameStartPayload roomID seed
          (ID (heap w player2)) (Name (heap w player2))
          (ID (heap w player1)) (Name (heap w player1)))].
Proof.
  destruct (matched_unfold w player1 player2 roomID seed) as [_ ->].
  rewrite !trace_SendJSON, !trace_upd. by rewrite <- app_assoc.
Qed.

(** The three ways [createMatch] ends. *)
Lemma createMatch_cases (closed : list loc) (w : World)
    (player1 player2 : loc) (roomID : string) (seed : Z) :
  let w2 := upd player2 (assigned roomID) (upd player1 (assigned roomID) w) in
  let start1 := GameStartPayload roomID seed
    (ID (heap w player1)) (Name (heap w player1))
    (ID (heap w player2)) (Name (heap w player2)) in
  let start2 := GameStartPayload roomID seed
    (ID (heap w player2)) (Name (heap w player2))
    (ID (heap w player1)) (Name (heap w player1)) in
  createMatch closed player1 player2 roomID seed w =
    if decide (player1 ∈ closed)
    then Panics (emit (CallSendJSON player1 "GAME_START" start1) w2)
    else if decide (player2 ∈ closed)
         then Panics (emit (CallSendJSON player2 "GAME_START" start2)
                        (SendJSON player1 "GAME_START" start1 w2))
         else Returns (matched player1 player2 roomID seed w).
Proof.
  intros w2 start1 start2.
  destruct (matched_unfold w player1 player2 roomID seed) as [Hid Heq].
  fold w2 in Hid, Heq. fold start1 start2 in Heq.
  unfold createMatch, SendJSON_or_panic. cbv zeta.
  fold (assigned roomID). fold w2.
  destruct (Hid player1) as [-> ->]. destruct (Hid player2) as [-> ->].
  fold start1. destruct (decide (player1 ∈ closed)); [done|].
  rewrite !ID_SendJSON, !Name_SendJSON.
  destruct (Hid player1) as [-> ->]. destruct (Hid player2) as [-> ->].
  fold start2. destruct (decide (player2 ∈ closed)); [done|].
  by rewrite Heq.
Qed.

Lemma createMatch_open (closed : list loc) (w : World)
    (player1 player2 : loc) (roomID : string) (seed : Z) :
  player1 ∉ closed → player2 ∉ closed →
  createMatch closed player1 player2 roomID seed w =
    Returns (matched player1 player2 roomID seed w).
Proof.
  intros H1 H2. rewrite createMatch_cases. by rewrite !decide_False.
Qed.

Lemma matched_core player1 player2 roomID seed w q :
  core (heap (matched player1 player2 roomID seed w) q) =
  core (if decide (q = player1 ∨ q = player2)
        then assigned roomID (heap w q) else heap w q).
Proof.
  unfold matched. cbv zeta. rewrite !heap_SendJSON_core.
  rewrite !heap_upd. unfold assigned.
  destruct (decide (q = player1 ∨ q = player2)) as [Hq|Hq];
    repeat case_decide; subst; try done; exfalso; intuition congruence.
Qed.

(** What [createMatch] has done when it ends, in whatever way: the
    room is assigned, and hub and queue are as they were. *)
Lemma createMatch_core closed player1 player2 roomID seed w q :
  core (heap (reached (createMatch closed player1 player2 roomID seed w)) q) =
  core (if decide (q = player1 ∨ q = player2)
        then assigned roomID (heap w q) else heap w q).
Proof.
  rewrite <- (matched_core player1 player2 roomID seed w q).
  rewrite createMatch_cases.
  destruct (decide (player1 ∈ closed)); [|destruct (decide (player2 ∈ closed))];
    unfold emit; cbn [reached heap]; [| |done].
  all: destruct (matched_unfold w player1 player2 roomID seed) as [_ ->].
  all: by rewrite ?heap_SendJSON_core.
Qed.

Lemma createMatch_frame closed player1 player2 roomID seed w :
  let w' := reached (createMatch closed player1 player2 roomID seed w) in
  hub_clients w' = hub_clients w ∧ queue w' = queue w ∧
  ∀ q, ID (heap w' q) = ID (heap w q) ∧ Name (heap w' q) = Name (heap w q).
Proof.
  intros w'. split; [|split].
  - unfold w'. rewrite createMatch_cases.
    destruct (decide (player1 ∈ closed)); [|destruct (decide (player2 ∈ closed))];
      unfold emit; cbn [reached hub_clients];
      rewrite ?(proj2 (matched_unfold w player1 player2 roomID seed));
      by rewrite ?hub_SendJSON, ?hub_upd.
  - unfold w'. rewrite createMatch_cases.
    destruct (decide (player1 ∈ closed)); [|destruct (decide (player2 ∈ closed))];
      unfold emit; cbn [reached queue];
      rewrite ?(proj2 (matched_unfold w player1 player2 roomID seed));
      by rewrite ?queue_SendJSON, ?queue_upd.
  - intros q.
    destruct (core_fields _ _
      (createMatch_core closed player1 player2 roomID seed w q))
      as (Hi & Hn & _).
    fold w' in Hi, Hn. rewrite Hi, Hn. by case_decide.
Qed.

(** Whatever way it ends, [createMatch] has assigned the room. *)
Lemma assigned_fields (roomID : string) (w : World) (player1 player2 p : loc) :
  let w2 := upd player2 (assigned roomID) (upd player1 (assigned roomID) w) in
  p = player1 ∨ p = player2 →
  RoomID (heap w2 p) = roomID ∧ IsAlive (heap w2 p) = true ∧
  Score (heap w2 p) = 0%Z ∧ InQueue (heap w2 p) = false.
Proof.
  intros w2 Hp. unfold w2. rewrite !heap_upd.
  repeat case_decide; subst; try done. by destruct Hp.
Qed.

Lemma Run_step_pair gen closed ss v a b :
  a ∉ closed → b ∉ closed →
  Run_step gen closed (Run_step gen closed
    {| waiting := None; sessions := ss; world := v; panicked := false |} a) b =
  {| waiting := None;
     sessions := ss ++ [sessionOf gen (length ss) 0 (a, b)];
     world := matched a b (gen (length ss)).1 (gen (length ss)).2 v;
     panicked := false |}.
Proof.
  intros Ha Hb. unfold Run_step, sessionOf. cbn. rewrite Nat.add_0_r.
  destruct (gen (length ss)) as [roomID seed]. cbn.
  by rewrite createMatch_open.
Qed.

Lemma Run_step_panics gen closed ss v a b :
  a ∈ closed ∨ b ∈ closed →
  ∃ v',
    createMatch closed a b (gen (length ss)).1 (gen (length ss)).2 v =
      Panics v' ∧
    Run_step gen closed (Run_step gen closed
      {| waiting := None; sessions := ss; world := v; panicked := false |} a) b =
    {| waiting := Some a; sessions := ss; world := v'; panicked := true |}.
Proof.
  intros Hab. unfold Run_step. cbn.
  destruct (gen (length ss)) as [roomID seed]. cbn.
  rewrite createMatch_cases.
  destruct (decide (a ∈ closed)); [by eexists|].
  destruct (decide (b ∈ closed)); [by eexists|]. tauto.
Qed.

(** A loop that has panicked receives nothing. *)
Lemma Run_step_dead gen closed l :
  ∀ st, panicked st = true → foldl (Run_step gen closed) st l = st.
Proof.
  induction l as [|a l IH]; intros st Hst; [done|].
  cbn [foldl]. unfold Run_step at 2. rewrite Hst. by apply IH.
Qed.

Lemma all_open_pair closed a b l :
  all_open closed (a :: b :: l) ↔
  (a ∉ closed) ∧ (b ∉ closed) ∧ all_open closed l.
Proof. unfold all_open. rewrite !Forall_cons. tauto. Qed.

Lemma Run_loop gen closed l :
  all_open closed l →
  ∀ ss w,
    let st := foldl (Run_step gen closed)
                {| waiting := None; sessions := ss; world := w;
                   panicked := false |} l in
    sessions st = ss ++ imap (sessionOf gen (length ss)) (pairs l) ∧
    waiting st = (if Nat.even (length l) then None else last l) ∧
    panicked st = false.
Proof.
  induction l as [|a|a b l IH] using list_pair_ind; intros Hopen ss w.
  - simpl. by rewrite app_nil_r.
  - simpl. by rewrite app_nil_r.
  - apply all_open_pair in Hopen as (Ha & Hb & Hopen).
    cbn [foldl]. rewrite Run_step_pair by done.
    destruct (IH Hopen (ss ++ [sessionOf gen (length ss) 0 (a, b)])
                (matched a b (gen (length ss)).1 (gen (length ss)).2 w))
      as (Hs & Hw & Hp).
    split; [|split; [|done]].
    + rewrite Hs. cbn [pairs imap]. rewrite <- app_assoc. f_equal.
      f_equal. apply imap_ext. intros k ab _. unfold sessionOf, compose.
      rewrite length_app. cbn.
      by replace (length ss + 1 + k) with (length ss + S k) by lia.
    + rewrite Hw. cbn [length Nat.even]. by destruct l.
Qed.

Lemma even_div2 (n : nat) :
  Nat.even n = true →
  ∀ m, Nat.div (n + S (S m)) 2 = S (Nat.div n 2 + Nat.div m 2).
Proof.
  intros [k ->]%Nat.even_spec m.
  replace (2 * k + S (S m)) with ((k + 1) * 2 + m) by lia.
  rewrite Nat.div_add_l by done.
  replace (2 * k) with (k * 2) by lia. rewrite Nat.div_mul by done. lia.
Qed.

(** C3 fails where the matchmaker pairs a connection whose channel has
    been closed (the waiting one that went away, or the arrival): the
    first such pairing panics in [createMatch], so no session comes of
    it, the waiting slot is not cleared, and the arrivals after it are
    never received.  [Run] then ends with fewer than floor(N/2) sessions:
    only the pairs before that pairing. *)
Theorem Run_panics_pairing_closed_channel (gen : nat → string * Z)
    (closed : list loc) (w : World) (before : list loc) (first second : loc)
    (after : list loc) :
  Nat.even (length before) = true → all_open closed before →
  first ∈ closed ∨ second ∈ closed →
  let arrivals := before ++ first :: second :: after in
  let st := Run gen closed w arrivals in
  panicked st = true ∧
  waiting st = Some first ∧
  sessions st = imap (sessionOf gen 0) (pairs before) ∧
  length (sessions st) < length arrivals `div` 2 ∧
  st = Run gen closed w (before ++ [first; second]).
Proof.
  intros Heven Hopen Hclosed arrivals st.
  destruct (Run_loop gen closed before Hopen [] w) as (Hs & Hw & Hp).
  rewrite Heven in Hw. cbn [app length] in Hs.
  assert (Run gen closed w (before ++ [first; second]) =
          Run gen closed w arrivals) as Hsame.
  { unfold arrivals, Run. rewrite !foldl_app.
    destruct (foldl (Run_step gen closed) _ before) as [wt ss v pk].
    cbn in Hs, Hw, Hp. subst wt pk. cbn [foldl].
    destruct (Run_step_panics gen closed ss v first second Hclosed)
      as (v' & _ & ->).
    by rewrite Run_step_dead. }
  fold st in Hsame. rewrite <- Hsame.
  unfold Run. rewrite foldl_app.
  destruct (foldl (Run_step gen closed) _ before) as [wt ss v pk].
  cbn in Hs, Hw, Hp. subst wt pk. cbn [foldl].
  destruct (Run_step_panics gen closed ss v first second Hclosed)
    as (v' & _ & ->).
  cbn [panicked waiting sessions].
  split; [done|]. split; [done|]. split; [done|]. split; [|done].
  rewrite Hs, length_imap, length_pairs. unfold arrivals.
  rewrite length_app. cbn [length]. rewrite even_div2 by done. lia.
Qed.

(** C4 fails on a pairing with a connection whose channel has been
    closed: [createMatch] assigns the room to both and then panics in
    [SendJSON], in the first call when it is the first player's channel
    (no second call is made), in the second call otherwise.  In both
    cases nothing is put on the second player's channel. *)
Theorem createMatch_panics_on_closed_channel (closed : list loc) (w : World)
    (player1 player2 : loc) (roomID : string) (seed : Z) :
  player1 ∈ closed ∨ player2 ∈ closed →
  let start1 := GameStartPayload roomID seed
    (ID (heap w player1)) (Name (heap w player1))
    (ID (heap w player2)) (Name (heap w player2)) in
  let start2 := GameStartPayload roomID seed
    (ID (heap w player2)) (Name (heap w player2))
    (ID (heap w player1)) (Name (heap w player1)) in
  ∃ w',
    createMatch closed player1 player2 roomID seed w = Panics w' ∧
    (∀ p, p = player1 ∨ p = player2 →
       RoomID (heap w' p) = roomID ∧ IsAlive (heap w' p) = true ∧
       Score (heap w' p) = 0%Z ∧ InQueue (heap w' p) = false) ∧
    emitted w w' =
      (if decide (player1 ∈ closed)
       then [CallSendJSON player1 "GAME_START" start1]
       else [CallSendJSON player1 "GAME_START" start1;
             CallSendJSON player2 "GAME_START" start2]) ∧
    Send (heap w' player2) = Send (heap w player2).
Proof.
  intros Hclosed start1 start2.
  rewrite createMatch_cases. fold start1 start2.
  set (w2 := upd player2 (assigned roomID) (upd player1 (assigned roomID) w)).
  pose proof (assigned_fields roomID w player1 player2) as Hset.
  cbv zeta in Hset. fold w2 in Hset.
  assert (Send (heap w2 player2) = Send (heap w player2)) as Hsend.
  { unfold w2. rewrite !heap_upd.
    repeat case_decide; subst; by rewrite ?heap_upd_eq. }
  destruct (decide (player1 ∈ closed)) as [H1|H1].
  - eexists. split; [done|]. split; [exact Hset|]. split; [|exact Hsend].
    apply emitted_app. unfold emit, w2. cbn [trace]. by rewrite !trace_upd.
  - destruct (decide (player2 ∈ closed)) as [H2|H2]; [|tauto].
    eexists. split; [done|].
    assert (player2 ≠ player1) as Hne by (intros ->; tauto).
    split; [|split].
    + intros p Hp. unfold emit. cbn [heap].
      rewrite RoomID_SendJSON, IsAlive_SendJSON, Score_SendJSON,
        InQueue_SendJSON. by apply Hset.
    + apply emitted_app. unfold emit. cbn [trace].
      rewrite trace_SendJSON. unfold w2. rewrite !trace_upd.
      by rewrite <- app_assoc.
    + unfold emit. cbn [heap]. by rewrite Send_SendJSON_ne.
Qed.

(** ** What each message does, for any world *)

Lemma core_cleaned cl : core (cleaned cl) = cleaned (core cl).
Proof. reflexivity. Qed.

Section PlayerDied.
Context (client : loc) (msg : Message) (range1 range2 : list loc)
        (w : World) (score : Z).
Context (E : MsgType msg = "PLAYER_DIED")
        (Es : asScorePayload msg = Some score).

(** The world once the death is recorded. *)
Let w2 := upd client (setIsAlive false) (upd client (setScore score) w).
Let roomClients := GetClientsInRoom range2 (RoomID (heap w client)) w2.
Let wd := foldl (pickWinner w2) (None, false) roomClients.
Let w' := handleMessage client msg range1 range2 w.

Lemma heap_died q :
  heap w2 q = if decide (client = q)
              then setIsAlive false (setScore score (heap w client))
              else heap w q.
Proof.
  unfold w2. rewrite heap_upd.
  case_decide; [by rewrite heap_upd_eq | by rewrite heap_upd_ne].
Qed.

Lemma player_died_spec :
  hub_clients w' = hub_clients w ∧ queue w' = queue w ∧
  trace w' = trace w ++
    map (λ q, CallSendJSON q "OPPONENT_UPDATE"
                (OpponentUpdatePayload score false))
        (opponents client range1 w2) ++
    (if allDead roomClients w2 then
       map (λ c, CallSendJSON c "GAME_OVER"
                   (gameOverPayload w2 wd.1 wd.2)) roomClients ++
       map (saveOf w2) roomClients
     else []) ∧
  ∀ q, core (heap w' q) =
       core (if allDead roomClients w2 && bool_decide (q ∈ roomClients)
             then cleaned (heap w2 q) else heap w2 q).
Proof.
  unfold w'. rewrite (handle_PLAYER_DIED _ _ _ _ _ score E Es). cbv zeta.
  fold w2. fold roomClients. fold wd.
  set (w3 := notifyOpponent _ _ _ _ w2).
  assert (frames w2 w3) as Hf3 by apply frames_notifyOpponent.
  assert (trace w3 = trace w2 ++
    map (λ q, CallSendJSON q "OPPONENT_UPDATE"
                (OpponentUpdatePayload score false))
        (opponents client range1 w2)) as Ht3
    by apply trace_notifyOpponent.
  destruct (allDead roomClients w2); cbn [andb].
  - destruct (gameOver_loop w2 wd.1 wd.2 roomClients w3 Hf3) as [Hf4 Ht4].
    set (w4 := foldl _ w3 roomClients) in *.
    destruct (persist_loop w2 roomClients w4 Hf4) as (Hf5 & Hh5 & Ht5).
    set (w5 := foldl persist w4 roomClients) in *.
    destruct (cleanUp_loop roomClients w5) as (Ht6 & Hq6 & Hh6 & Hp6).
    cbv zeta in Ht6, Hq6, Hh6, Hp6.
    split; [by rewrite Hh6, (frames_hub _ _ Hf5)|].
    split; [by rewrite Hq6, (frames_queue _ _ Hf5)|].
    split.
    + rewrite Ht6, Ht5, Ht4, Ht3. unfold w2 at 1. rewrite !trace_upd.
      by rewrite <- !app_assoc.
    + intros q. rewrite Hp6. destruct Hf5 as (_ & _ & Hc5).
      destruct (decide (q ∈ roomClients)).
      * rewrite bool_decide_eq_true_2 by done.
        by rewrite !core_cleaned, Hc5.
      * by rewrite bool_decide_eq_false_2 by done.
  - split; [by rewrite (frames_hub _ _ Hf3)|].
    split; [by rewrite (frames_queue _ _ Hf3)|].
    split.
    + rewrite Ht3. unfold w2 at 1. rewrite !trace_upd.
      by rewrite app_nil_r.
    + intros q. by destruct Hf3 as (_ & _ & ->).
Qed.

End PlayerDied.

Section UpdateScore.
Context (client : loc) (msg : Message) (range1 range2 : list loc)
        (w : World) (score : Z).
Context (E : MsgType msg = "UPDATE_SCORE")
        (Es : asScorePayload msg = Some score).

Let w' := handleMessage client msg range1 range2 w.

(** The report does not pass the gate. *)
Lemma update_score_rejected :
  (GoInt.sub score (Score (heap w client)) > 50)%Z →
  frames w w' ∧
  Send (heap w' client) = Send (heap w client) ∧
  trace w' = trace w ++
    map (λ q, CallSendJSON q "OPPONENT_UPDATE"
                (OpponentUpdatePayload (Score (heap w client))
                                       (IsAlive (heap w client))))
        (opponents client range1 w).
Proof.
  intros Hgt. unfold w'.
  rewrite (handle_UPDATE_SCORE _ _ _ _ _ score E Es).
  replace (_ >? 50)%Z with true by (symmetry; apply Z.gtb_gt; lia).
  split; [apply frames_notifyOpponent|].
  split; [apply Send_notifyOpponent | apply trace_notifyOpponent].
Qed.

(** The report passes the gate. *)
Lemma update_score_accepted :
  (GoInt.sub score (Score (heap w client)) ≤ 50)%Z →
  frames (upd client (setScore score) w) w' ∧
  Score (heap w' client) = score ∧
  trace w' = trace w ++
    map (λ q, CallSendJSON q "OPPONENT_UPDATE"
                (OpponentUpdatePayload score (IsAlive (heap w client))))
        (opponents client range1 (upd client (setScore score) w)).
Proof.
  intros Hle. unfold w'.
  rewrite (handle_UPDATE_SCORE _ _ _ _ _ score E Es).
  replace (_ >? 50)%Z with false
    by (symmetry; rewrite Z.gtb_ltb; apply Z.ltb_ge; lia).
  split; [apply frames_notifyOpponent|].
  split; [|by rewrite trace_notifyOpponent, trace_upd].
  rewrite (frames_Score _ _ (frames_notifyOpponent _ _ _ _ _)).
  by rewrite heap_upd_eq.
Qed.

End UpdateScore.

(** ** Sessions of two participants *)

Lemma session_sym w R A B : session w R A B → session w R B A.
Proof.
  intros [Hid Hp]. split; [done|]. intros p. rewrite Hp. tauto.
Qed.

Lemma session_ne w R A B : session w R A B → A ≠ B.
Proof. intros [Hid _] ->. by apply Hid. Qed.

Lemma session_RoomID w R A B :
  session w R A B → RoomID (heap w A) = R ∧ RoomID (heap w B) = R.
Proof.
  intros [_ Hp]. split.
  - by apply (Hp A); left.
  - by apply (Hp B); right.
Qed.

(** A session survives whatever keeps the hub, the identifiers and the
    rooms. *)
Lemma session_ext w w' R A B :
  hub_clients w' = hub_clients w →
  (∀ q, ID (heap w' q) = ID (heap w q)) →
  (∀ q, RoomID (heap w' q) = RoomID (heap w q)) →
  session w R A B → session w' R A B.
Proof.
  intros Hh Hi Hr [Hid Hp]. split; [by rewrite !Hi|].
  intros p. by rewrite Hh, Hr.
Qed.

Lemma enumerates_ext w w' e :
  hub_clients w' = hub_clients w → enumerates w e → enumerates w' e.
Proof. intros Hh [Hn He]. split; [done|]. intros p. by rewrite Hh. Qed.

Lemma GetClientsInRoom_ext w w' e r :
  (∀ q, RoomID (heap w' q) = RoomID (heap w q)) →
  GetClientsInRoom e r w' = GetClientsInRoom e r w.
Proof.
  intros Hr. unfold GetClientsInRoom. apply list_filter_iff.
  intros q. by rewrite Hr.
Qed.

Lemma two_element_list (l : list loc) A B :
  A ≠ B → NoDup l → (∀ p, p ∈ l ↔ p = A ∨ p = B) →
  l = [A; B] ∨ l = [B; A].
Proof.
  intros Hne Hnd Hl.
  assert (l ≡ₚ [A; B]) as Hperm.
  { apply NoDup_Permutation; [done| |].
    - apply NoDup_cons. split; [|apply NoDup_singleton].
      rewrite list_elem_of_singleton. done.
    - intros p. rewrite Hl, !elem_of_cons, elem_of_nil. tauto. }
  pose proof (Permutation_length Hperm) as Hlen.
  destruct l as [|x [|y [|z l]]]; try done.
  assert (x ≠ y) as Hxy.
  { apply NoDup_cons in Hnd as [Hx _]. intros ->. apply Hx. by left. }
  assert (x = A ∨ x = B) as Hx by (apply Hl; by left).
  assert (y = A ∨ y = B) as Hy by (apply Hl; right; by left).
  destruct Hx as [-> | ->], Hy as [-> | ->]; by auto.
Qed.

(** Whatever the iteration order, the room holds its two participants. *)
Lemma room_of_session w R A B e :
  session w R A B → enumerates w e →
  GetClientsInRoom e R w = [A; B] ∨ GetClientsInRoom e R w = [B; A].
Proof.
  intros Hs [Hnd He]. apply two_element_list.
  - by eapply session_ne.
  - by apply NoDup_filter.
  - intros p. unfold GetClientsInRoom. rewrite list_elem_of_filter, He.
    destruct Hs as [_ Hp]. rewrite <- Hp. tauto.
Qed.

Lemma opponents_of_session w R A B e :
  session w R A B → enumerates w e → opponents A e w = [B].
Proof.
  intros Hs He. unfold opponents.
  destruct (session_RoomID _ _ _ _ Hs) as [-> _].
  destruct Hs as [Hid Hp].
  destruct (room_of_session w R A B e (conj Hid Hp) He) as [-> | ->].
  - rewrite filter_cons_False by (intros H; by apply H).
    by rewrite filter_cons_True by (intros H; by apply Hid).
  - rewrite filter_cons_True by (intros H; by apply Hid).
    by rewrite filter_cons_False by (intros H; by apply H).
Qed.

Lemma resolution_sym idA sA idB sB :
  resolution idA sA idB sB = resolution idB sB idA sA.
Proof.
  unfold resolution. rewrite (Z.eqb_sym sB sA).
  destruct (Z.eqb_spec sA sB); [done|].
  destruct (Z.gtb_spec sA sB), (Z.gtb_spec sB sA); try done; lia.
Qed.

Lemma winner_of_two w A B :
  let wd := foldl (pickWinner w) (None, false) [A; B] in
  gameOverPayload w wd.1 wd.2 =
    resolution (ID (heap w A)) (Score (heap w A))
               (ID (heap w B)) (Score (heap w B)).
Proof.
  cbn. unfold resolution, gameOverPayload. rewrite (Z.eqb_sym (Score (heap w A))).
  destruct (Z.gtb_spec (Score (heap w B)) (Score (heap w A))) as [Hgt|Hle];
    cbn.
  - destruct (Z.eqb_spec (Score (heap w B)) (Score (heap w A))); [lia|].
    destruct (Z.gtb_spec (Score (heap w A)) (Score (heap w B))); [lia|done].
  - destruct (Z.eqb_spec (Score (heap w B)) (Score (heap w A))); [done|]. cbn.
    destruct (Z.gtb_spec (Score (heap w A)) (Score (heap w B))); [done|lia].
Qed.

Section TwoDeaths.
Context (w : World) (R : string) (A B : loc).
Context (Hs : session w R A B).
Context (m : Message) (s : Z) (range1 range2 : list loc).
Context (E : MsgType m = "PLAYER_DIED") (Es : asScorePayload m = Some s).
Context (He1 : enumerates w range1) (He2 : enumerates w range2).

(** The world once [B]'s death is recorded. *)
Let wB := upd B (setIsAlive false) (upd B (setScore s) w).

Lemma died_ID q : ID (heap wB q) = ID (heap w q).
Proof. unfold wB. rewrite heap_died. by case_decide; subst. Qed.
Lemma died_Name q : Name (heap wB q) = Name (heap w q).
Proof. unfold wB. rewrite heap_died. by case_decide; subst. Qed.
Lemma died_RoomID q : RoomID (heap wB q) = RoomID (heap w q).
Proof. unfold wB. rewrite heap_died. by case_decide; subst. Qed.

Lemma died_session : session wB R A B.
Proof.
  apply (session_ext w); [done | apply died_ID | apply died_RoomID | done].
Qed.

Lemma died_room :
  GetClientsInRoom range2 (RoomID (heap w B)) wB = [A; B] ∨
  GetClientsInRoom range2 (RoomID (heap w B)) wB = [B; A].
Proof.
  destruct (session_RoomID _ _ _ _ Hs) as [_ ->].
  apply room_of_session; [apply died_session|].
  by apply (enumerates_ext w).
Qed.

Lemma died_opponents : opponents B range1 wB = [A].
Proof.
  apply (opponents_of_session wB R B A).
  - apply session_sym, died_session.
  - by apply (enumerates_ext w).
Qed.

(** [B] dies while [A] is still playing: [A] is told, nothing else
    happens. *)
Lemma first_death :
  IsAlive (heap w A) = true →
  let w' := handleMessage B m range1 range2 w in
  hub_clients w' = hub_clients w ∧ queue w' = queue w ∧
  trace w' = trace w ++
    [CallSendJSON A "OPPONENT_UPDATE" (OpponentUpdatePayload s false)] ∧
  ∀ q, core (heap w' q) =
       core (if decide (B = q)
             then setIsAlive false (setScore s (heap w B)) else heap w q).
Proof.
  intros Halive w'.
  destruct (player_died_spec B m range1 range2 w s E Es)
    as (Hh & Hq & Ht & Hp).
  fold w' in Hh, Hq, Ht, Hp. fold wB in Ht, Hp.
  rewrite died_opponents in Ht.
  assert (IsAlive (heap wB A) = true) as HA.
  { unfold wB. rewrite heap_died.
    rewrite decide_False; [done|]. intros ->. by eapply session_ne. }
  assert (allDead (GetClientsInRoom range2 (RoomID (heap w B)) wB) wB
          = false) as Hdead.
  { destruct died_room as [-> | ->]; unfold allDead; cbn; rewrite HA;
      [done | apply andb_false_r]. }
  rewrite Hdead in Ht, Hp. cbn [andb] in Hp.
  split; [done|]. split; [done|]. split.
  - rewrite Ht. by rewrite app_nil_r.
  - intros q. rewrite Hp. unfold wB. by rewrite heap_died.
Qed.

(** [B] dies after [A]: the room is resolved. *)
Lemma second_death :
  IsAlive (heap w A) = false →
  let w' := handleMessage B m range1 range2 w in
  let over := resolution (ID (heap w A)) (Score (heap w A))
                         (ID (heap w B)) s in
  let save := λ c, CallSaveScore (ID (heap w c)) (Name (heap w c))
                     (if decide (c = B) then s else Score (heap w c)) in
  hub_clients w' = hub_clients w ∧ queue w' = queue w ∧
  (∃ π, (π = [A; B] ∨ π = [B; A]) ∧
     trace w' = trace w ++
       [CallSendJSON A "OPPONENT_UPDATE" (OpponentUpdatePayload s false)] ++
       map (λ c, CallSendJSON c "GAME_OVER" over) π ++ map save π) ∧
  ∀ q, core (heap w' q) =
       core (if decide (q = A ∨ q = B) then cleaned (heap w q)
             else heap w q).
Proof.
  intros Hdead w' over save.
  destruct (player_died_spec B m range1 range2 w s E Es)
    as (Hh & Hq & Ht & Hp).
  fold w' in Hh, Hq, Ht, Hp. fold wB in Ht, Hp.
  rewrite died_opponents in Ht.
  pose proof (session_ne _ _ _ _ Hs) as Hne.
  assert (heap wB A = heap w A) as HA.
  { unfold wB. rewrite heap_died. by rewrite decide_False. }
  assert (heap wB B = setIsAlive false (setScore s (heap w B))) as HB.
  { unfold wB. rewrite heap_died. by rewrite decide_True. }
  assert (∀ c, c = A ∨ c = B → saveOf wB c = save c) as Hsave.
  { intros c Hc. unfold saveOf, save. rewrite died_ID, died_Name.
    unfold wB. rewrite heap_died.
    case_decide; subst; [by rewrite decide_True|].
    rewrite decide_False; [done|]. by intros ->. }
  set (rc := GetClientsInRoom range2 (RoomID (heap w B)) wB) in *.
  assert (rc = [A; B] ∨ rc = [B; A]) as Hrc by apply died_room.
  assert (allDead rc wB = true) as Hall.
  { destruct Hrc as [-> | ->]; unfold allDead; cbn; by rewrite HA, HB, Hdead. }
  assert (gameOverPayload wB (foldl (pickWinner wB) (None, false) rc).1
            (foldl (pickWinner wB) (None, false) rc).2 = over) as Hover.
  { unfold over. destruct Hrc as [-> | ->]; rewrite winner_of_two.
    - by rewrite HA, HB.
    - rewrite HA, HB. apply resolution_sym. }
  rewrite Hall, Hover in Ht. rewrite Hall in Hp. cbn [andb] in Hp.
  split; [done|]. split; [done|]. split.
  - exists rc. split; [done|]. rewrite Ht. do 3 f_equal.
    destruct Hrc as [-> | ->]; cbn [map]; rewrite !Hsave; auto.
  - intros q. rewrite Hp.
    destruct (decide (q = A ∨ q = B)) as [Hq'|Hq'].
    + rewrite bool_decide_eq_true_2.
      * destruct Hq' as [-> | ->]; [by rewrite HA | by rewrite HB].
      * destruct Hrc as [-> | ->]; rewrite !elem_of_cons; tauto.
    + rewrite bool_decide_eq_false_2.
      * unfold wB. rewrite heap_died. rewrite decide_False; [done|].
        intros ->. tauto.
      * destruct Hrc as [-> | ->]; rewrite !elem_of_cons, elem_of_nil;
          tauto.
Qed.

End TwoDeaths.

(** ** Observing a step *)

Lemma filter_GAME_OVER_map (p : Payload) (l : list loc) :
  filter is_GAME_OVER (map (λ c, CallSendJSON c "GAME_OVER" p) l) =
    map (λ c, CallSendJSON c "GAME_OVER" p) l.
Proof.
  induction l as [|c l IH]; [done|]. cbn [map].
  rewrite filter_cons_True by done. by rewrite IH.
Qed.

Lemma filter_GAME_OVER_other (t : string) (p : Payload) (l : list loc) :
  t ≠ "GAME_OVER" →
  filter is_GAME_OVER (map (λ c, CallSendJSON c t p) l) = [].
Proof.
  intros Ht. induction l as [|c l IH]; [done|]. cbn [map].
  rewrite filter_cons_False; [done|]. cbn [is_GAME_OVER].
  by intros H%bool_decide_unpack.
Qed.

(** The two deaths of a session, one after the other. *)
Lemma two_deaths (w : World) (R : string) (P Q : loc)
    (mP mQ : Message) (sP sQ : Z) (rangeP1 rangeP2 rangeQ1 rangeQ2 : list loc) :
  session w R P Q →
  IsAlive (heap w P) = true → IsAlive (heap w Q) = true →
  MsgType mP = "PLAYER_DIED" → asScorePayload mP = Some sP →
  MsgType mQ = "PLAYER_DIED" → asScorePayload mQ = Some sQ →
  enumerates w rangeP1 → enumerates w rangeP2 →
  enumerates w rangeQ1 → enumerates w rangeQ2 →
  let w1 := handleMessage P mP rangeP1 rangeP2 w in
  let w2 := handleMessage Q mQ rangeQ1 rangeQ2 w1 in
  let over := resolution (ID (heap w P)) sP (ID (heap w Q)) sQ in
  let save := λ c, CallSaveScore (ID (heap w c)) (Name (heap w c))
                     (if decide (c = P) then sP else sQ) in
  trace w1 = trace w ++
    [CallSendJSON Q "OPPONENT_UPDATE" (OpponentUpdatePayload sP false)] ∧
  (∀ q, core (heap w1 q) =
        core (if decide (P = q)
              then setIsAlive false (setScore sP (heap w P)) else heap w q)) ∧
  (∃ π, (π = [P; Q] ∨ π = [Q; P]) ∧
     trace w2 = trace w1 ++
       [CallSendJSON P "OPPONENT_UPDATE" (OpponentUpdatePayload sQ false)] ++
       map (λ c, CallSendJSON c "GAME_OVER" over) π ++ map save π) ∧
  (∀ q, core (heap w2 q) =
        core (if decide (q = P ∨ q = Q) then cleaned (heap w q)
              else heap w q)).
Proof.
  intros Hs HP HQ EP EsP EQ EsQ HeP1 HeP2 HeQ1 HeQ2 w1 w2 over save.
  pose proof (session_ne _ _ _ _ Hs) as Hne.
  destruct (first_death w R Q P (session_sym _ _ _ _ Hs) mP sP
              rangeP1 rangeP2 EP EsP HeP1 HeP2 HQ) as (Hh1 & Hq1 & Ht1 & Hp1).
  fold w1 in Hh1, Hq1, Ht1, Hp1.
  assert (∀ q, core (heap w1 q) = core (if decide (P = q)
            then setIsAlive false (setScore sP (heap w P)) else heap w q))
    as Hc1 by done.
  destruct (core_fields _ _ (Hc1 P)) as (HiP & HnP & HrP & _ & HscP & HaP).
  rewrite decide_True in HiP, HnP, HrP, HscP, HaP by done.
  destruct (core_fields _ _ (Hc1 Q)) as (HiQ & HnQ & HrQ & _ & _ & HaQ).
  rewrite decide_False in HiQ, HnQ, HrQ, HaQ by done.
  cbn in HiP, HnP, HrP, HscP, HaP.
  assert (session w1 R P Q) as Hs1.
  { apply (session_ext w); [done| | |done]; intros q;
      destruct (core_fields _ _ (Hc1 q)) as (Hi & _ & Hr & _);
      [rewrite Hi | rewrite Hr]; by case_decide; subst. }
  destruct (second_death w1 R P Q Hs1 mQ sQ rangeQ1 rangeQ2 EQ EsQ
              (enumerates_ext _ _ _ Hh1 HeQ1) (enumerates_ext _ _ _ Hh1 HeQ2)
              HaP) as (Hh2 & Hq2 & (π & Hπ & Ht2) & Hp2).
  fold w2 in Hh2, Hq2, Ht2, Hp2.
  split; [done|]. split; [done|]. split.
  - exists π. split; [done|]. rewrite Ht2, HiP, HiQ, HscP. do 3 f_equal.
    destruct Hπ as [-> | ->]; cbn; unfold save;
      rewrite HiP, HiQ, HnP, HnQ, HscP;
      rewrite ?(decide_True (P := P = P)), ?(decide_False (P := Q = P)),
        ?(decide_True (P := Q = Q)), ?(decide_False (P := P = Q)) by done;
      done.
  - intros q. rewrite Hp2. case_decide as Hq'.
    + rewrite !core_cleaned, Hc1. case_decide; by subst.
    + rewrite Hc1. rewrite decide_False; [done|]. intros ->. tauto.
Qed.

(** C1: in a session of two participants, both alive, the death of
    one ([P]) then the death of the other ([Q]) resolve the room exactly
    once, when the second death is handled.  The first death sends no
    [GAME_OVER] and leaves both in the room; the second sends one
    [GAME_OVER] to each participant and to nobody else, saves both
    scores, and resets room identifier, score and alive flag of both.
    [P] and [Q] are any naming of the two participants, so both orders
    of death are covered. *)
Theorem both_dead_resolved_once (w : World) (R : string) (P Q : loc)
    (mP mQ : Message) (sP sQ : Z) (rangeP1 rangeP2 rangeQ1 rangeQ2 : list loc) :
  session w R P Q →
  IsAlive (heap w P) = true → IsAlive (heap w Q) = true →
  MsgType mP = "PLAYER_DIED" → asScorePayload mP = Some sP →
  MsgType mQ = "PLAYER_DIED" → asScorePayload mQ = Some sQ →
  enumerates w rangeP1 → enumerates w rangeP2 →
  enumerates w rangeQ1 → enumerates w rangeQ2 →
  let w1 := handleMessage P mP rangeP1 rangeP2 w in
  let w2 := handleMessage Q mQ rangeQ1 rangeQ2 w1 in
  (filter is_GAME_OVER (emitted w w1) = [] ∧
   filter is_SaveScore (emitted w w1) = [] ∧
   RoomID (heap w1 P) = R ∧ RoomID (heap w1 Q) = R ∧
   IsAlive (heap w1 P) = false ∧ IsAlive (heap w1 Q) = true) ∧
  (∃ over π, (π = [P; Q] ∨ π = [Q; P]) ∧
     filter is_GAME_OVER (emitted w1 w2) =
       map (λ c, CallSendJSON c "GAME_OVER" over) π ∧
     filter is_SaveScore (emitted w1 w2) =
       map (λ c, CallSaveScore (ID (heap w c)) (Name (heap w c))
                   (if decide (c = P) then sP else sQ)) π) ∧
  (∀ c, c = P ∨ c = Q →
     RoomID (heap w2 c) = "" ∧ Score (heap w2 c) = 0%Z ∧
     IsAlive (heap w2 c) = true).
Proof.
  intros Hs HP HQ EP EsP EQ EsQ HeP1 HeP2 HeQ1 HeQ2 w1 w2.
  pose proof (session_ne _ _ _ _ Hs) as Hne.
  destruct (session_RoomID _ _ _ _ Hs) as [HRP HRQ].
  destruct (two_deaths w R P Q mP mQ sP sQ rangeP1 rangeP2 rangeQ1 rangeQ2)
    as (Ht1 & Hc1 & (π & Hπ & Ht2) & Hc2); try done.
  fold w1 in Ht1, Hc1, Ht2. fold w2 in Ht2, Hc2.
  split; [|split].
  - rewrite (emitted_app _ _ _ Ht1). cbn. do 2 (split; [done|]).
    destruct (core_fields _ _ (Hc1 P)) as (_ & _ & HrP & _ & _ & HaP).
    rewrite decide_True in HrP, HaP by done.
    destruct (core_fields _ _ (Hc1 Q)) as (_ & _ & HrQ & _ & _ & HaQ).
    rewrite decide_False in HrQ, HaQ by done.
    cbn in HrP, HaP. repeat split; congruence.
  - eexists _, π. split; [done|].
    rewrite (emitted_app _ _ _ Ht2).
    rewrite !filter_app, filter_GAME_OVER_map. cbn [app].
    rewrite filter_cons_False by (by intros H%bool_decide_unpack).
    rewrite filter_nil. cbn [app].
    split; [|by destruct Hπ as [-> | ->]].
    rewrite <- app_nil_r. f_equal. by destruct Hπ as [-> | ->].
  - intros c Hc.
    destruct (core_fields _ _ (Hc2 c)) as (_ & _ & Hr & _ & Hsc & Ha).
    rewrite decide_True in Hr, Hsc, Ha by done. done.
Qed.

(** C5: when both participants of a session have died, with final
    scores [sP] and [sQ], every [GAME_OVER] of the resolution carries the
    same payload, sent once to each of the two: the identifier of the
    participant with the strictly higher score, or the empty identifier
    when the scores are equal.  The payload is the same whether [P] or [Q]
    dies last, and for every iteration order of the hub. *)
Theorem winner_is_higher_score (w : World) (R : string) (P Q : loc)
    (mP mQ : Message) (sP sQ : Z)
    (rangeP1 rangeP2 rangeQ1 rangeQ2 rangeQ1' rangeQ2' rangeP1' rangeP2'
      : list loc) :
  session w R P Q →
  IsAlive (heap w P) = true → IsAlive (heap w Q) = true →
  MsgType mP = "PLAYER_DIED" → asScorePayload mP = Some sP →
  MsgType mQ = "PLAYER_DIED" → asScorePayload mQ = Some sQ →
  enumerates w rangeP1 → enumerates w rangeP2 →
  enumerates w rangeQ1 → enumerates w rangeQ2 →
  enumerates w rangeQ1' → enumerates w rangeQ2' →
  enumerates w rangeP1' → enumerates w rangeP2' →
  let over :=
    if (sP =? sQ)%Z then GameOverPayload "" "draw"
    else GameOverPayload
           (if (sP >? sQ)%Z then ID (heap w P) else ID (heap w Q))
           "all_players_died" in
  let wPQ := handleMessage Q mQ rangeQ1 rangeQ2
               (handleMessage P mP rangeP1 rangeP2 w) in
  let wQP := handleMessage P mP rangeP1' rangeP2'
               (handleMessage Q mQ rangeQ1' rangeQ2' w) in
  (∃ π, (π = [P; Q] ∨ π = [Q; P]) ∧
     filter is_GAME_OVER (emitted w wPQ) =
       map (λ c, CallSendJSON c "GAME_OVER" over) π) ∧
  (∃ π, (π = [P; Q] ∨ π = [Q; P]) ∧
     filter is_GAME_OVER (emitted w wQP) =
       map (λ c, CallSendJSON c "GAME_OVER" over) π).
Proof.
  intros Hs HP HQ EP EsP EQ EsQ H1 H2 H3 H4 H5 H6 H7 H8 over wPQ wQP.
  assert (∀ A B mA mB sA sB a1 a2 b1 b2 π l,
    trace (handleMessage B mB b1 b2 (handleMessage A mA a1 a2 w)) =
      (trace w ++ [CallSendJSON B "OPPONENT_UPDATE"
                     (OpponentUpdatePayload sA false)]) ++
      [CallSendJSON A "OPPONENT_UPDATE" (OpponentUpdatePayload sB false)] ++
      map (λ c, CallSendJSON c "GAME_OVER" over) π ++
      map (λ c, CallSaveScore (ID (heap w c)) (Name (heap w c)) (l c)) π →
    filter is_GAME_OVER
      (emitted w (handleMessage B mB b1 b2 (handleMessage A mA a1 a2 w))) =
      map (λ c, CallSendJSON c "GAME_OVER" over) π) as Hfilter.
  { intros A B mA mB sA sB a1 a2 b1 b2 π l Ht.
    rewrite <- app_assoc in Ht. rewrite (emitted_app _ _ _ Ht).
    cbn [app]. rewrite !filter_cons_False by (by intros H%bool_decide_unpack).
    rewrite filter_app, filter_GAME_OVER_map.
    rewrite <- app_nil_r. f_equal.
    clear Ht. induction π as [|c π IH]; [done|]. cbn [map].
    rewrite filter_cons_False; [done | by intros []]. }
  split.
  - destruct (two_deaths w R P Q mP mQ sP sQ rangeP1 rangeP2 rangeQ1 rangeQ2)
      as (Ht1 & _ & (π & Hπ & Ht2) & _); try done.
    exists π. split; [done|]. rewrite Ht1 in Ht2.
    apply (Hfilter P Q mP mQ sP sQ _ _ _ _ π
             (λ c, if decide (c = P) then sP else sQ)).
    exact Ht2.
  - destruct (two_deaths w R Q P mQ mP sQ sP rangeQ1' rangeQ2'
                rangeP1' rangeP2')
      as (Ht1 & _ & (π & Hπ & Ht2) & _); try done; [by apply session_sym|].
    exists π. split; [tauto|]. rewrite Ht1 in Ht2.
    rewrite resolution_sym in Ht2.
    apply (Hfilter Q P mQ mP sQ sP _ _ _ _ π
             (λ c, if decide (c = Q) then sQ else sP)).
    exact Ht2.
Qed.

(** C8: [LEAVE_GAME] from a connection with no room changes nothing.
    From a connection in a room it saves that connection's current score,
    sends [OPPONENT_LEFT] with that score and [IsAlive = false] to every
    other registered client of the room, and resets the leaver's room
    identifier, alive flag, score and in-queue flag; room identifier,
    score, alive flag and in-queue flag of every other client are as
    before.  In a session of two, the calls are the save and one
    [OPPONENT_LEFT] to the opponent. *)
Theorem LEAVE_GAME_resets_leaver_only (client : loc) (msg : Message)
    (range1 range2 : list loc) (w : World) :
  MsgType msg = "LEAVE_GAME" →
  let w' := handleMessage client msg range1 range2 w in
  let cl := heap w client in
  (RoomID cl = "" → w' = w) ∧
  (RoomID cl ≠ "" →
     emitted w w' =
       CallSaveScore (ID cl) (Name cl) (Score cl) ::
       map (λ q, CallSendJSON q "OPPONENT_LEFT"
                   (OpponentUpdatePayload (Score cl) false))
           (opponents client range1 w) ∧
     (RoomID (heap w' client) = "" ∧ IsAlive (heap w' client) = true ∧
      Score (heap w' client) = 0%Z ∧ InQueue (heap w' client) = false) ∧
     (∀ q, q ≠ client →
        RoomID (heap w' q) = RoomID (heap w q) ∧
        Score (heap w' q) = Score (heap w q) ∧
        IsAlive (heap w' q) = IsAlive (heap w q) ∧
        InQueue (heap w' q) = InQueue (heap w q)) ∧
     queue w' = queue w ∧ hub_clients w' = hub_clients w ∧
     (∀ R opponent,
        session w R client opponent → enumerates w range1 →
        emitted w w' =
          [CallSaveScore (ID cl) (Name cl) (Score cl);
           CallSendJSON opponent "OPPONENT_LEFT"
             (OpponentUpdatePayload (Score cl) false)])).
Proof.
  intros E w' cl. unfold w'. rewrite (handle_LEAVE_GAME _ _ _ _ _ E).
  fold cl. split.
  - intros Hr. by rewrite decide_True.
  - intros Hr. rewrite decide_False by done.
    set (w1 := SaveScore (ID cl) (Name cl) (Score cl) w).
    set (w2 := notifyOpponent client "OPPONENT_LEFT"
                 (OpponentUpdatePayload (Score cl) false) range1 w1).
    assert (frames w1 w2) as Hf by apply frames_notifyOpponent.
    assert (trace w2 = trace w1 ++
              map (λ q, CallSendJSON q "OPPONENT_LEFT"
                          (OpponentUpdatePayload (Score cl) false))
                  (opponents client range1 w1)) as Ht
      by apply trace_notifyOpponent.
    assert (emitted w
              (upd client (λ cl0, setInQueue false (cleaned cl0)) w2) =
            CallSaveScore (ID cl) (Name cl) (Score cl) ::
            map (λ q, CallSendJSON q "OPPONENT_LEFT"
                        (OpponentUpdatePayload (Score cl) false))
                (opponents client range1 w)) as He.
    { apply emitted_app. rewrite trace_upd, Ht. unfold w1.
      rewrite trace_SaveScore. by rewrite <- app_assoc. }
    split; [done|].
    split; [by rewrite heap_upd_eq|]. split.
    { intros q Hq. rewrite heap_upd_ne by done.
      by rewrite (frames_RoomID _ _ Hf), (frames_Score _ _ Hf),
        (frames_IsAlive _ _ Hf), (frames_InQueue _ _ Hf). }
    split; [apply (frames_queue _ _ Hf)|].
    split; [apply (frames_hub _ _ Hf)|].
    intros R opponent Hs He1. rewrite He.
    by rewrite (opponents_of_session w R client opponent range1).
Qed.

(** ** The life-cycle of a queued connection *)

Lemma enqueued_core w w' c :
  core (heap w' c) = core (heap w c) → enqueued w c → enqueued w' c.
Proof.
  intros (_ & _ & Hr & Hq & _)%core_fields [H1 H2]. split; congruence.
Qed.

Lemma enqueued_fields w w' c :
  InQueue (heap w' c) = InQueue (heap w c) →
  RoomID (heap w' c) = RoomID (heap w c) → enqueued w c → enqueued w' c.
Proof. intros Hi Hr [H1 H2]. split; congruence. Qed.

Lemma handle_enqueued client msg range1 range2 w :
  let w' := handleMessage client msg range1 range2 w in
  (queue w' = queue w ∨
   queue w' = queue w ++ [client] ∧ ¬ enqueued w client ∧ enqueued w' client) ∧
  ∀ c, enqueued w c → enqueued w' c.
Proof.
  intros w'. unfold w'.
  destruct (decide (MsgType msg = "JOIN_QUEUE")) as [E|E1].
  { rewrite (handle_JOIN_QUEUE _ _ _ _ _ E).
    destruct (InQueue (heap w client)) eqn:Hin; cbn [negb andb]; [by auto|].
    case_bool_decide as Hr; [|by auto]. cbv zeta.
    set (w1 := if decide (_ ≠ "") then _ else _).
    assert (∀ q, RoomID (heap w1 q) = RoomID (heap w q) ∧
                 InQueue (heap w1 q) = InQueue (heap w q)) as H1.
    { intros q. unfold w1. case_decide; rewrite heap_upd;
        case_decide; by subst. }
    assert (queue w1 = queue w) as Hq1 by (unfold w1; by case_decide).
    split.
    - right. split; [by rewrite queue_upd; unfold AddToQueue; cbn; rewrite Hq1|].
      split; [intros [? _]; congruence|].
      split; rewrite heap_upd_eq; [done|]. unfold AddToQueue. cbn.
      by destruct (H1 client) as [-> _].
    - intros c [Hc1 Hc2]. assert (c ≠ client) by (intros ->; congruence).
      split; rewrite heap_upd_ne by done; unfold AddToQueue; cbn;
        destruct (H1 c) as [Hr1 Hi1]; congruence. }
  destruct (decide (MsgType msg = "UPDATE_SCORE")) as [E|E2].
  { destruct (asScorePayload msg) as [score|] eqn:Es;
      [|rewrite handle_undecodable by auto; by auto].
    rewrite (handle_UPDATE_SCORE _ _ _ _ _ score E Es).
    destruct (_ >? 50)%Z.
    - pose proof (frames_notifyOpponent w client "OPPONENT_UPDATE"
        (OpponentUpdatePayload (Score (heap w client))
           (IsAlive (heap w client))) range1) as (_ & Hq & Hc).
      split; [by left|]. intros c. by apply enqueued_core.
    - pose proof (frames_notifyOpponent (upd client (setScore score) w)
        client "OPPONENT_UPDATE"
        (OpponentUpdatePayload score (IsAlive (heap w client))) range1)
        as (_ & Hq & Hc).
      split; [by left|]. intros c.
      destruct (core_fields _ _ (Hc c)) as (_ & _ & Hr & Hi & _).
      apply enqueued_fields; [rewrite Hi | rewrite Hr];
        rewrite heap_upd; by case_decide; subst. }
  destruct (decide (MsgType msg = "PLAYER_DIED")) as [E|E3].
  { destruct (asScorePayload msg) as [score|] eqn:Es;
      [|rewrite handle_undecodable by auto; by auto].
    destruct (player_died_spec client msg range1 range2 w score E Es)
      as (_ & Hq & _ & Hc).
    split; [by left|]. intros c [Hc1 Hc2].
    destruct (core_fields _ _ (Hc c)) as (_ & _ & Hr & Hi & _).
    rewrite heap_died in Hr, Hi.
    split.
    - rewrite Hi. destruct (_ && _); case_decide; by subst.
    - rewrite Hr. destruct (_ && _); case_decide; by subst. }
  destruct (decide (MsgType msg = "LEAVE_GAME")) as [E|E4].
  { rewrite (handle_LEAVE_GAME _ _ _ _ _ E).
    case_decide as Hr; [by auto|].
    set (w1 := SaveScore _ _ _ w).
    pose proof (frames_notifyOpponent w1 client "OPPONENT_LEFT"
      (OpponentUpdatePayload (Score (heap w client)) false) range1)
      as (_ & Hq & Hc).
    split; [by left|]. intros c [Hc1 Hc2].
    assert (c ≠ client) by (intros ->; congruence).
    destruct (core_fields _ _ (Hc c)) as (_ & _ & Hr' & Hi' & _).
    change (heap w1 c) with (heap w c) in Hr', Hi'.
    split; rewrite heap_upd_ne by done; congruence. }
  rewrite handle_other by done. by auto.
Qed.

Lemma createMatch_enqueued closed player1 player2 roomID seed w :
  let w' := reached (createMatch closed player1 player2 roomID seed w) in
  queue w' = queue w ∧
  ∀ c, c ≠ player1 → c ≠ player2 → enqueued w c → enqueued w' c.
Proof.
  intros w'.
  split; [apply (createMatch_frame closed player1 player2 roomID seed w)|].
  intros c H1 H2. apply enqueued_core. unfold w'.
  rewrite createMatch_core. rewrite decide_False; [done | tauto].
Qed.

Lemma step_enqueued w s c :
  ¬ matches c s →
  let w' := step w s in
  (enqueued w c → enqueued w' c) ∧
  (queue w' = queue w ∨
   ∃ client, queue w' = queue w ++ [client] ∧
             ¬ enqueued w client ∧ enqueued w' client).
Proof.
  destruct s as [client msg range1 range2 | closed player1 player2 roomID seed];
    cbn [step matches]; intros Hm.
  - destruct (handle_enqueued client msg range1 range2 w) as [Hq Hc].
    split; [apply Hc|]. destruct Hq as [Hq|Hq]; [by left | right; eauto].
  - destruct (createMatch_enqueued closed player1 player2 roomID seed w)
      as [Hq Hc].
    split; [|by left]. apply Hc; intros ->; tauto.
Qed.

(** Once enqueued, a connection is not enqueued again before a match. *)
Lemma run_enqueued steps :
  ∀ w c, Forall (λ s, ¬ matches c s) steps → enqueued w c →
    ∃ added, queue (foldl step w steps) = queue w ++ added ∧ c ∉ added.
Proof.
  induction steps as [|s steps IH]; intros w c Hall Hc; cbn [foldl].
  - exists []. split; [by rewrite app_nil_r | apply not_elem_of_nil].
  - apply Forall_cons in Hall as [Hs Hall].
    destruct (step_enqueued w s c Hs) as [Hkeep Hq].
    destruct (IH (step w s) c Hall (Hkeep Hc)) as (added & Ha & Hn).
    destruct Hq as [Hq | (client & Hq & Hnot & _)].
    + exists added. by rewrite Ha, Hq.
    + exists (client :: added). rewrite Ha, Hq, <- app_assoc.
      split; [done|]. rewrite elem_of_cons. intros [-> | ?]; tauto.
Qed.

Lemma filter_eq_absent (c : loc) (l : list loc) :
  c ∉ l → filter (λ q, q = c) l = [].
Proof.
  induction l as [|x l IH]; [done|]. rewrite not_elem_of_cons.
  intros [Hx Hl]. rewrite filter_cons_False by congruence. by apply IH.
Qed.

Lemma run_enqueues_once steps :
  ∀ w c, Forall (λ s, ¬ matches c s) steps →
    ∃ added, queue (foldl step w steps) = queue w ++ added ∧
             length (filter (λ q, q = c) added) ≤ 1.
Proof.
  induction steps as [|s steps IH]; intros w c Hall; cbn [foldl].
  - exists []. split; [by rewrite app_nil_r | cbn; lia].
  - apply Forall_cons in Hall as [Hs Hall].
    destruct (step_enqueued w s c Hs) as [_ Hq].
    destruct Hq as [Hq | (client & Hq & _ & Hin)].
    + destruct (IH (step w s) c Hall) as (added & Ha & Hn).
      exists added. by rewrite Ha, Hq.
    + destruct (decide (client = c)) as [-> | Hne].
      * destruct (run_enqueued steps (step w s) c Hall Hin)
          as (added & Ha & Hn).
        exists (c :: added). rewrite Ha, Hq, <- app_assoc.
        split; [done|]. rewrite filter_cons_True by done. cbn.
        rewrite filter_eq_absent by done. cbn. lia.
      * destruct (IH (step w s) c Hall) as (added & Ha & Hn).
        exists (client :: added). rewrite Ha, Hq, <- app_assoc.
        split; [done|]. by rewrite filter_cons_False.
Qed.

(** C9: [JOIN_QUEUE] from a connection that is already in the queue or
    in a room changes nothing; otherwise it enqueues the connection and
    sets its in-queue flag.  Hence in every run of the server in which
    the matchmaker does not match [c], whatever messages are handled in
    between and from whomever, [c] is enqueued at most once. *)
Theorem JOIN_QUEUE_enqueues_once :
  (∀ client msg range1 range2 w,
     MsgType msg = "JOIN_QUEUE" →
     InQueue (heap w client) = true ∨ RoomID (heap w client) ≠ "" →
     handleMessage client msg range1 range2 w = w) ∧
  (∀ client msg range1 range2 w,
     MsgType msg = "JOIN_QUEUE" →
     InQueue (heap w client) = false → RoomID (heap w client) = "" →
     let w' := handleMessage client msg range1 range2 w in
     queue w' = queue w ++ [client] ∧
     InQueue (heap w' client) = true ∧ RoomID (heap w' client) = "") ∧
  (∀ steps w c,
     Forall (λ s, ¬ matches c s) steps →
     ∃ added, queue (foldl step w steps) = queue w ++ added ∧
              length (filter (λ q, q = c) added) ≤ 1).
Proof.
  split; [|split].
  - intros client msg range1 range2 w E Hg.
    rewrite (handle_JOIN_QUEUE _ _ _ _ _ E).
    destruct Hg as [-> | Hr]; [done|].
    rewrite bool_decide_eq_false_2 by done. by rewrite andb_false_r.
  - intros client msg range1 range2 w E Hi Hr w'.
    destruct (handle_enqueued client msg range1 range2 w) as [Hq _].
    fold w' in Hq. destruct Hq as [Hq | (Hq & _ & He)]; [|by destruct He].
    exfalso. unfold w' in Hq. rewrite (handle_JOIN_QUEUE _ _ _ _ _ E) in Hq.
    rewrite Hi, bool_decide_eq_true_2 in Hq by done. cbn in Hq.
    rewrite queue_upd in Hq. unfold AddToQueue in Hq. cbn [queue] in Hq.
    assert (queue (if decide (from_option id (ID (heap w client))
                                (asJoinQueuePayload msg) ≠ "")
                   then upd client (setName (from_option id
                          (ID (heap w client)) (asJoinQueuePayload msg))) w
                   else upd client (λ cl, setName (ID cl) cl) w) = queue w)
      as Hq1 by by case_decide.
    rewrite Hq1 in Hq. apply (f_equal length) in Hq.
    rewrite length_app in Hq. cbn in Hq. lia.
  - intros steps w c. apply run_enqueues_once.
Qed.

(** ** The payloads of [GAME_OVER] *)

Lemma pickWinner_elem w l :
  ∀ acc, match (foldl (pickWinner w) acc l).1 with
         | Some x => acc.1 = Some x ∨ x ∈ l
         | None => acc.1 = None ∧ l = []
         end.
Proof.
  induction l as [|c l IH]; intros acc; cbn [foldl].
  - destruct acc as [[x|] d]; cbn; auto.
  - specialize (IH (pickWinner w acc c)).
    destruct (foldl _ _ l).1 as [x|].
    + destruct IH as [IH|IH]; [|right; by apply elem_of_cons; right].
      destruct acc as [[y|] d]; cbn in IH |- *.
      * repeat case_match; cbn in IH; injection IH as <-;
          (by left) || (right; by apply elem_of_cons; left).
      * injection IH as <-. right. by apply elem_of_cons; left.
    + destruct IH as [IH _]. destruct acc as [[y|] d]; cbn in IH;
        repeat case_match; done.
Qed.

Lemma emitted_nothing w v e : trace v = trace w → e ∉ emitted w v.
Proof.
  intros H. unfold emitted. rewrite H, drop_all. apply not_elem_of_nil.
Qed.

(** The calls one message can cause. *)
Lemma handle_emitted client msg range1 range2 w e :
  e ∈ emitted w (handleMessage client msg range1 range2 w) →
  (∃ i n s, e = CallSaveScore i n s) ∨
  (∃ c s a, e = CallSendJSON c "OPPONENT_UPDATE" (OpponentUpdatePayload s a)) ∨
  (∃ c s a, e = CallSendJSON c "OPPONENT_LEFT" (OpponentUpdatePayload s a)) ∨
  (∃ c, e = CallSendJSON c "GAME_OVER" (GameOverPayload "" "draw")) ∨
  (∃ c x, x ∈ range2 ∧
     e = CallSendJSON c "GAME_OVER"
           (GameOverPayload (ID (heap w x)) "all_players_died")).
Proof.
  destruct (decide (MsgType msg = "JOIN_QUEUE")) as [E|E1].
  { rewrite (handle_JOIN_QUEUE _ _ _ _ _ E).
    intros H. exfalso. revert H. apply emitted_nothing.
    destruct (_ && _); cbv zeta; [case_decide|]; done. }
  destruct (decide (MsgType msg = "UPDATE_SCORE")) as [E|E2].
  { destruct (asScorePayload msg) as [score|] eqn:Es.
    - rewrite (handle_UPDATE_SCORE _ _ _ _ _ score E Es).
      destruct (_ >? 50)%Z;
        (erewrite emitted_app;
          [|by rewrite trace_notifyOpponent, ?trace_upd]);
        intros (c & -> & _)%list_elem_of_fmap; right; left; eauto.
    - rewrite handle_undecodable by auto.
      intros H. exfalso. revert H. by apply emitted_nothing. }
  destruct (decide (MsgType msg = "PLAYER_DIED")) as [E|E3].
  { destruct (asScorePayload msg) as [score|] eqn:Es.
    - destruct (player_died_spec client msg range1 range2 w score E Es)
        as (_ & _ & Ht & _).
      rewrite (emitted_app _ _ _ Ht). clear Ht.
      set (w2 := upd client (setIsAlive false) (upd client (setScore score) w)).
      set (rc := GetClientsInRoom range2 (RoomID (heap w client)) w2).
      rewrite elem_of_app. intros [Hin|Hin].
      { apply list_elem_of_fmap in Hin as (c & -> & _). right; left; eauto. }
      destruct (allDead rc w2); [|by apply elem_of_nil in Hin].
      apply elem_of_app in Hin as [Hin|Hin].
      + apply list_elem_of_fmap in Hin as (c & -> & Hc).
        do 3 right. unfold gameOverPayload.
        pose proof (pickWinner_elem w2 rc (None, false)) as Hw.
        destruct (foldl (pickWinner w2) (None, false) rc) as [[x|] d];
          cbn [fst snd] in *.
        * destruct d; [left; eauto|]. right. exists c, x.
          destruct Hw as [Hw|Hw]; [done|]. split.
          -- unfold rc, GetClientsInRoom in Hw.
             by apply list_elem_of_filter in Hw as [_ Hw].
          -- cbn. unfold w2. rewrite heap_died. by case_decide; subst.
        * destruct Hw as [_ ->]. by apply elem_of_nil in Hc.
      + apply list_elem_of_fmap in Hin as (c & -> & _). left.
        unfold saveOf. eauto.
    - rewrite handle_undecodable by auto.
      intros H. exfalso. revert H. by apply emitted_nothing. }
  destruct (decide (MsgType msg = "LEAVE_GAME")) as [E|E4].
  { rewrite (handle_LEAVE_GAME _ _ _ _ _ E).
    case_decide as Hr.
    - intros H. exfalso. revert H. by apply emitted_nothing.
    - erewrite emitted_app;
        [|by rewrite trace_upd, trace_notifyOpponent, trace_SaveScore,
                     <- app_assoc].
      intros [-> | (c & -> & _)%list_elem_of_fmap]%elem_of_cons;
        [left; eauto | right; right; left; eauto]. }
  rewrite handle_other by done.
  intros H. exfalso. revert H. by apply emitted_nothing.
Qed.

(** Splits on the [case] of the [switch] a message selects. *)
Ltac by_type msg :=
  destruct (decide (MsgType msg = "JOIN_QUEUE")) as [E|?];
  [|destruct (decide (MsgType msg = "UPDATE_SCORE")) as [E|?];
    [|destruct (decide (MsgType msg = "PLAYER_DIED")) as [E|?];
      [|destruct (decide (MsgType msg = "LEAVE_GAME")) as [E|?]]]].

Lemma died_fields w client score q :
  let w2 := upd client (setIsAlive false) (upd client (setScore score) w) in
  ID (heap w2 q) = ID (heap w q) ∧ Name (heap w2 q) = Name (heap w q) ∧
  RoomID (heap w2 q) = RoomID (heap w q) ∧
  InQueue (heap w2 q) = InQueue (heap w q).
Proof. cbv zeta. rewrite heap_died. by case_decide; subst. Qed.

Lemma leads_step w seen acc c :
  leads w seen acc → leads w (seen ++ [c]) (pickWinner w acc c).
Proof.
  intros (x & Hx & Hin & Hmax & Hdraw).
  destruct acc as [o d]. cbn in Hx, Hdraw. subst o. cbn [pickWinner].
  assert (1 ≤ length (filter (λ y, Score (heap w y) = Score (heap w x)) seen))
    as Hone.
  { apply list_elem_of_split in Hin as (l1 & l2 & ->).
    rewrite filter_app, filter_cons_True by done.
    rewrite length_app. cbn. lia. }
  destruct (Z.gtb_spec (Score (heap w c)) (Score (heap w x))) as [Hgt|Hle].
  - exists c. cbn. split; [done|].
    split; [apply elem_of_app; right; by apply list_elem_of_singleton|].
    split.
    + intros y [Hy | ->%list_elem_of_singleton]%elem_of_app; [|lia].
      specialize (Hmax y Hy). lia.
    + rewrite filter_app, filter_cons_True, filter_nil by done.
      assert (filter (λ y, Score (heap w y) = Score (heap w c)) seen = [])
        as ->.
      { clear -Hmax Hgt. induction seen as [|y seen IH]; [done|].
        rewrite filter_cons_False.
        - apply IH. intros z Hz. apply Hmax. by right.
        - pose proof (Hmax y (ltac:(by left))). lia. }
      cbn. split; [done | lia].
  - destruct (Z.eqb_spec (Score (heap w c)) (Score (heap w x))) as [Heq|Hne].
    + exists x. cbn. split; [done|].
      split; [apply elem_of_app; by left|]. split.
      * intros y [Hy | ->%list_elem_of_singleton]%elem_of_app; [auto|lia].
      * rewrite filter_app, filter_cons_True, filter_nil by done.
        rewrite length_app. cbn. split; [lia | done].
    + exists x. cbn. split; [done|].
      split; [apply elem_of_app; by left|]. split.
      * intros y [Hy | ->%list_elem_of_singleton]%elem_of_app; [auto|lia].
      * rewrite filter_app, filter_cons_False, filter_nil, app_nil_r by done.
        done.
Qed.

Lemma leads_loop w l :
  ∀ seen acc, leads w seen acc →
    leads w (seen ++ l) (foldl (pickWinner w) acc l).
Proof.
  induction l as [|c l IH]; intros seen acc H; cbn [foldl].
  - by rewrite app_nil_r.
  - replace (seen ++ c :: l) with ((seen ++ [c]) ++ l)
      by by rewrite <- app_assoc.
    by apply IH, leads_step.
Qed.

Lemma leads_room w l :
  l ≠ [] → leads w l (foldl (pickWinner w) (None, false) l).
Proof.
  destruct l as [|c l]; [done|]. intros _. cbn [foldl pickWinner].
  apply (leads_loop w l [c] (Some c, false)).
  exists c. split; [done|]. split; [by left|]. split.
  - intros y ->%list_elem_of_singleton. lia.
  - rewrite filter_cons_True, filter_nil by done.
    cbn [snd length]. split; [done | lia].
Qed.

(** Where a [GAME_OVER] comes from: the resolution of a death. *)
Lemma GAME_OVER_origin client msg range1 range2 w c p :
  CallSendJSON c "GAME_OVER" p
    ∈ emitted w (handleMessage client msg range1 range2 w) →
  ∃ score, MsgType msg = "PLAYER_DIED" ∧ asScorePayload msg = Some score ∧
    let w2 := upd client (setIsAlive false) (upd client (setScore score) w) in
    let rc := GetClientsInRoom range2 (RoomID (heap w client)) w2 in
    c ∈ rc ∧
    p = gameOverPayload w2 (foldl (pickWinner w2) (None, false) rc).1
                           (foldl (pickWinner w2) (None, false) rc).2.
Proof.
  by_type msg.
  - intros H. exfalso. revert H. apply emitted_nothing.
    rewrite (handle_JOIN_QUEUE _ _ _ _ _ E).
    destruct (_ && _); cbv zeta; [case_decide|]; done.
  - destruct (asScorePayload msg) as [score|] eqn:Es.
    + rewrite (handle_UPDATE_SCORE _ _ _ _ _ score E Es).
      destruct (_ >? 50)%Z;
        (erewrite emitted_app;
          [|by rewrite trace_notifyOpponent, ?trace_upd]);
        by intros (? & [=] & _)%list_elem_of_fmap.
    + rewrite handle_undecodable by auto.
      intros H. exfalso. revert H. by apply emitted_nothing.
  - destruct (asScorePayload msg) as [score|] eqn:Es.
    + exists score. split; [done|]. split; [done|]. cbv zeta.
      destruct (player_died_spec client msg range1 range2 w score E Es)
        as (_ & _ & Ht & _).
      revert H. rewrite (emitted_app _ _ _ Ht). clear Ht.
      set (w2 := upd client (setIsAlive false) (upd client (setScore score) w)).
      set (rc := GetClientsInRoom range2 (RoomID (heap w client)) w2).
      rewrite elem_of_app. intros [Hin|Hin].
      { by apply list_elem_of_fmap in Hin as (? & [=] & _). }
      destruct (allDead rc w2); [|by apply elem_of_nil in Hin].
      apply elem_of_app in Hin as [Hin|Hin].
      * by apply list_elem_of_fmap in Hin as (c' & [= -> ->] & Hc).
      * by apply list_elem_of_fmap in Hin as (? & [=] & _).
    + rewrite handle_undecodable by auto.
      intros H. exfalso. revert H. by apply emitted_nothing.
  - rewrite (handle_LEAVE_GAME _ _ _ _ _ E).
    case_decide as Hr.
    + intros H. exfalso. revert H. by apply emitted_nothing.
    + erewrite emitted_app;
        [|by rewrite trace_upd, trace_notifyOpponent, trace_SaveScore,
                     <- app_assoc].
      by intros [[=] | (? & [=] & _)%list_elem_of_fmap]%elem_of_cons.
  - rewrite handle_other by done.
    intros H. exfalso. revert H. by apply emitted_nothing.
Qed.

Lemma Score_died w client score q :
  Score (heap (upd client (setIsAlive false) (upd client (setScore score) w)) q)
  = finalScore w client score q.
Proof.
  rewrite heap_died. unfold finalScore. by repeat case_decide; subst.
Qed.

(** C6, as the code has it.  A [GAME_OVER] is sent only when a death
    resolves a room, to a client of that room, and it tells the outcome:
    with [best] a client of the room whose final score none exceeds, it
    carries the empty winner identifier and reason "draw" when at least
    two clients of the room have that score, and the identifier of [best]
    and reason "all_players_died" otherwise.  So, client identifiers being
    non-empty, the winner identifier is empty exactly when the outcome is
    a draw, and so is the reason "draw"; no other reason is produced,
    "disconnect" in particular.  The matchmaker sends [GAME_START]
    only. *)
Theorem GAME_OVER_reasons :
  (∀ client msg range1 range2 w c t p,
     Forall (λ q, ID (heap w q) ≠ "") range2 →
     CallSendJSON c t p ∈ emitted w (handleMessage client msg range1 range2 w) →
     t = "GAME_OVER" →
     ∃ score best,
       MsgType msg = "PLAYER_DIED" ∧ asScorePayload msg = Some score ∧
       let room := GetClientsInRoom range2 (RoomID (heap w client)) w in
       c ∈ room ∧ best ∈ room ∧
       (∀ q, q ∈ room →
          (finalScore w client score q ≤ finalScore w client score best)%Z) ∧
       ∃ wid reason, p = GameOverPayload wid reason ∧
         (reason = "draw" ∨ reason = "all_players_died") ∧
         (wid = "" ↔ tied w client score room best) ∧
         (reason = "draw" ↔ tied w client score room best) ∧
         (reason = "all_players_died" ↔ ¬ tied w client score room best) ∧
         (¬ tied w client score room best → wid = ID (heap w best))) ∧
  (∀ closed player1 player2 roomID seed w c t p,
     CallSendJSON c t p
       ∈ emitted w (reached (createMatch closed player1 player2 roomID seed w)) →
     t = "GAME_START").
Proof.
  split.
  - intros client msg range1 range2 w c t p Hids Hin ->.
    apply GAME_OVER_origin in Hin as (score & E & Es & Hc & ->).
    exists score.
    set (w2 := upd client (setIsAlive false) (upd client (setScore score) w))
      in *.
    assert (GetClientsInRoom range2 (RoomID (heap w client)) w2 =
            GetClientsInRoom range2 (RoomID (heap w client)) w) as Hroom.
    { apply GetClientsInRoom_ext. intros q.
      by destruct (died_fields w client score q) as (_ & _ & ? & _). }
    rewrite Hroom in Hc |- *.
    set (room := GetClientsInRoom range2 (RoomID (heap w client)) w) in *.
    destruct (leads_room w2 room) as (best & Hbest & Hin & Hmax & Hdraw).
    { intros Hnil. rewrite Hnil in Hc. by apply elem_of_nil in Hc. }
    exists best. split; [done|]. split; [done|]. cbv zeta.
    split; [done|]. split; [done|].
    split. { intros q Hq. rewrite <- !Score_died. by apply Hmax. }
    assert (tied w client score room best ↔
            (foldl (pickWinner w2) (None, false) room).2 = true) as Htied.
    { rewrite Hdraw. unfold tied.
      assert (filter (λ y, Score (heap w2 y) = Score (heap w2 best)) room =
              filter (λ q, finalScore w client score q =
                           finalScore w client score best) room) as ->; [|done].
      apply list_filter_iff. intros q. unfold w2. by rewrite !Score_died. }
    rewrite Hbest. unfold gameOverPayload.
    assert (ID (heap w2 best) = ID (heap w best)) as Hid
      by by destruct (died_fields w client score best) as (? & _).
    assert (ID (heap w best) ≠ "") as Hne.
    { rewrite Forall_forall in Hids. apply Hids.
      unfold room, GetClientsInRoom in Hin.
      by apply list_elem_of_filter in Hin as [_ Hin]. }
    destruct (foldl (pickWinner w2) (None, false) room).2.
    + exists "", "draw". split; [done|]. split; [by left|]. rewrite Htied.
      split; [done|]. split; [done|]. split; [|done].
      split; [done | by intros []].
    + exists (ID (heap w best)), "all_players_died". cbn. rewrite Hid.
      split; [done|]. split; [by right|]. rewrite Htied.
      split; [split; [done | done]|].
      split; [split; [done | done]|]. split; [|done].
      split; [by intros _ ? | done].
  - intros closed player1 player2 roomID seed w c t p.
    rewrite createMatch_cases.
    destruct (decide (player1 ∈ closed)); [|destruct (decide (player2 ∈ closed))];
      unfold emit; cbn [reached].
    + erewrite emitted_app; [|cbn [trace]; by rewrite !trace_upd].
      by intros [= _ -> _]%list_elem_of_singleton.
    + erewrite emitted_app;
        [|cbn [trace]; by rewrite trace_SendJSON, !trace_upd, <- app_assoc].
      cbn [app]. rewrite !elem_of_cons, elem_of_nil.
      by intros [[= _ -> _] | [[= _ -> _] | []]].
    + rewrite (emitted_app _ _ _
                 (matched_start_trace w player1 player2 roomID seed)).
      rewrite !elem_of_cons, elem_of_nil.
      by intros [[= _ -> _] | [[= _ -> _] | []]].
Qed.

(** ** The anti-cheat gate when the subtraction does not overflow *)

Lemma sub_exact (a b : Z) : GoInt.is_int (a - b) → GoInt.sub a b = (a - b)%Z.
Proof. apply wrap_id. Qed.

(** A jump of more than 50 that fits an [int] is rejected: the stored
    state is kept, the sender gets nothing, and the other clients of the
    room are sent the stored score again. *)
Lemma anti_cheat_rejects client msg range1 range2 w score :
  MsgType msg = "UPDATE_SCORE" → asScorePayload msg = Some score →
  (score - Score (heap w client) ≤ GoInt.int_max)%Z →
  (score > Score (heap w client) + 50)%Z →
  let w' := handleMessage client msg range1 range2 w in
  frames w w' ∧ Send (heap w' client) = Send (heap w client) ∧
  emitted w w' =
    map (λ q, CallSendJSON q "OPPONENT_UPDATE"
                (OpponentUpdatePayload (Score (heap w client))
                                       (IsAlive (heap w client))))
        (opponents client range1 w).
Proof.
  intros E Es Hfit Hgt w'.
  destruct (update_score_rejected client msg range1 range2 w score E Es)
    as (Hf & Hs & Ht).
  { rewrite sub_exact; [lia|].
    unfold GoInt.is_int, GoInt.int_min, GoInt.int_max in *. lia. }
  split; [done|]. split; [done|]. by apply emitted_app.
Qed.

(** A report at most 50 above the stored score, whose distance to it
    fits an [int], is stored and forwarded. *)
Lemma anti_cheat_accepts client msg range1 range2 w score :
  MsgType msg = "UPDATE_SCORE" → asScorePayload msg = Some score →
  (GoInt.int_min ≤ score - Score (heap w client))%Z →
  (score ≤ Score (heap w client) + 50)%Z →
  let w' := handleMessage client msg range1 range2 w in
  Score (heap w' client) = score ∧
  emitted w w' =
    map (λ q, CallSendJSON q "OPPONENT_UPDATE"
                (OpponentUpdatePayload score (IsAlive (heap w client))))
        (opponents client range1 (upd client (setScore score) w)).
Proof.
  intros E Es Hfit Hle w'.
  destruct (update_score_accepted client msg range1 range2 w score E Es)
    as (Hf & Hs & Ht).
  { rewrite sub_exact; [lia|].
    unfold GoInt.is_int, GoInt.int_min, GoInt.int_max in *. lia. }
  split; [done|]. by apply emitted_app.
Qed.

(** ** Hubs of two clients *)

Lemma hub_of_two (hub : gmap string loc) (idA idB : string) (A B : loc) :
  hub = <[idA := A]> (<[idB := B]> ∅) → idA ≠ idB →
  ∀ p, (∃ id, hub !! id = Some p) ↔ p = A ∨ p = B.
Proof.
  intros -> Hne p. split.
  - intros (id & H). apply lookup_insert_Some in H as [[_ <-] | [_ H]];
      [by left|].
    apply lookup_insert_Some in H as [[_ <-] | [_ H]]; [by right|].
    by rewrite lookup_empty in H.
  - intros [-> | ->].
    + exists idA. apply lookup_insert_eq.
    + exists idB. rewrite lookup_insert_ne by done. apply lookup_insert_eq.
Qed.

Lemma enumerates_two w idA idB A B :
  hub_clients w = <[idA := A]> (<[idB := B]> ∅) → idA ≠ idB → A ≠ B →
  enumerates w [A; B] ∧ enumerates w [B; A].
Proof.
  intros Hh Hid Hne.
  pose proof (hub_of_two _ _ _ _ _ Hh Hid) as Hp.
  split; (split; [|intros p; rewrite Hp, !elem_of_cons, elem_of_nil; tauto]).
  - apply NoDup_cons. split; [|apply NoDup_singleton].
    by rewrite list_elem_of_singleton.
  - apply NoDup_cons. split; [|apply NoDup_singleton].
    rewrite list_elem_of_singleton. congruence.
Qed.

Lemma session_two w R idA idB A B :
  hub_clients w = <[idA := A]> (<[idB := B]> ∅) → idA ≠ idB →
  ID (heap w A) ≠ ID (heap w B) →
  RoomID (heap w A) = R → RoomID (heap w B) = R →
  session w R A B.
Proof.
  intros Hh Hid Hne HA HB. split; [done|]. intros p.
  rewrite (hub_of_two _ _ _ _ _ Hh Hid). split; [tauto|].
  intros [-> | ->]; auto.
Qed.

(** ** A run of the server on two guests *)

Lemma hub_arena : hub_clients arena = <["guest_a" := 1]> (<["guest_b" := 2]> ∅).
Proof. vm_compute. reflexivity. Qed.

Lemma arena_clients :
  core (heap arena 1) =
    {| ID := "guest_a"; Name := "ann"; Send := []; RoomID := "room-1";
       InQueue := false; Score := 0; IsAlive := true |} ∧
  core (heap arena 2) =
    {| ID := "guest_b"; Name := "bob"; Send := []; RoomID := "room-1";
       InQueue := false; Score := 0; IsAlive := true |}.
Proof. vm_compute. by split. Qed.

Lemma session_arena : session arena "room-1" 1 2.
Proof.
  apply (session_two arena "room-1" "guest_a" "guest_b");
    [apply hub_arena | done | vm_compute; congruence | done | done].
Qed.

Lemma enumerates_arena : enumerates arena [1; 2] ∧ enumerates arena [2; 1].
Proof.
  apply (enumerates_two arena "guest_a" "guest_b");
    [apply hub_arena | done | done].
Qed.

(** The run of C1 on [arena]: both die with score 40. *)
Lemma both_dead_resolved_once_witness :
  session arena "room-1" 1 2 ∧
  let w1 := handleMessage 1 (report "PLAYER_DIED" 40) [1; 2] [2; 1] arena in
  let w2 := handleMessage 2 (report "PLAYER_DIED" 40) [2; 1] [1; 2] w1 in
  filter is_GAME_OVER (emitted arena w1) = [] ∧
  ∃ over π, (π = [1; 2] ∨ π = [2; 1]) ∧
    filter is_GAME_OVER (emitted w1 w2) =
      map (λ c, CallSendJSON c "GAME_OVER" over) π.
Proof.
  split; [apply session_arena|].
  destruct (both_dead_resolved_once arena "room-1" 1 2
              (report "PLAYER_DIED" 40) (report "PLAYER_DIED" 40) 40 40
              [1; 2] [2; 1] [2; 1] [1; 2])
    as ((H1 & _) & (over & π & Hπ & H2 & _) & _).
  - apply session_arena.
  - vm_compute. reflexivity.
  - vm_compute. reflexivity.
  - reflexivity.
  - reflexivity.
  - reflexivity.
  - reflexivity.
  - apply enumerates_arena.
  - apply enumerates_arena.
  - apply enumerates_arena.
  - apply enumerates_arena.
  - split; [exact H1|]. exists over, π. split; [exact Hπ | exact H2].
Defined.

(** The run of C5 on [arena]: 120 against 95, in both orders. *)
Lemma winner_is_higher_score_witness :
  session arena "room-1" 1 2 ∧
  let over := GameOverPayload "guest_a" "all_players_died" in
  (∃ π, (π = [1; 2] ∨ π = [2; 1]) ∧
     filter is_GAME_OVER
       (emitted arena
          (handleMessage 2 (report "PLAYER_DIED" 95) [1; 2] [1; 2]
             (handleMessage 1 (report "PLAYER_DIED" 120) [1; 2] [1; 2] arena))) =
       map (λ c, CallSendJSON c "GAME_OVER" over) π) ∧
  (∃ π, (π = [1; 2] ∨ π = [2; 1]) ∧
     filter is_GAME_OVER
       (emitted arena
          (handleMessage 1 (report "PLAYER_DIED" 120) [2; 1] [2; 1]
             (handleMessage 2 (report "PLAYER_DIED" 95) [2; 1] [2; 1] arena))) =
       map (λ c, CallSendJSON c "GAME_OVER" over) π).
Proof.
  split; [apply session_arena|].
  apply (winner_is_higher_score arena "room-1" 1 2
           (report "PLAYER_DIED" 120) (report "PLAYER_DIED" 95) 120 95
           [1; 2] [1; 2] [1; 2] [1; 2] [2; 1] [2; 1] [2; 1] [2; 1]).
  - apply session_arena.
  - vm_compute. reflexivity.
  - vm_compute. reflexivity.
  - reflexivity.
  - reflexivity.
  - reflexivity.
  - reflexivity.
  - apply enumerates_arena.
  - apply enumerates_arena.
  - apply enumerates_arena.
  - apply enumerates_arena.
  - apply enumerates_arena.
  - apply enumerates_arena.
  - apply enumerates_arena.
  - apply enumerates_arena.
Defined.

(** C8 on [arena]: the first guest leaves. *)
Lemma LEAVE_GAME_resets_leaver_only_witness :
  MsgType leave = "LEAVE_GAME" ∧
  RoomID (heap arena 1) ≠ "" ∧
  let w' := handleMessage 1 leave [1; 2] [1; 2] arena in
  (RoomID (heap w' 1) = "" ∧ IsAlive (heap w' 1) = true ∧
   Score (heap w' 1) = 0%Z ∧ InQueue (heap w' 1) = false) ∧
  emitted arena w' =
    [CallSaveScore (ID (heap arena 1)) (Name (heap arena 1))
       (Score (heap arena 1));
     CallSendJSON 2 "OPPONENT_LEFT"
       (OpponentUpdatePayload (Score (heap arena 1)) false)].
Proof.
  assert (RoomID (heap arena 1) ≠ "") as Hr by (vm_compute; congruence).
  split; [reflexivity|]. split; [exact Hr|].
  destruct (LEAVE_GAME_resets_leaver_only 1 leave [1; 2] [1; 2] arena)
    as [_ Hin]; [reflexivity|].
  destruct (Hin Hr) as (_ & Hreset & _ & _ & _ & Hcalls).
  split; [exact Hreset|].
  apply (Hcalls "room-1" 2); [apply session_arena | apply enumerates_arena].
Defined.

(** C9 on [lobby]: a guest asks twice to join. *)
Lemma JOIN_QUEUE_enqueues_once_witness :
  MsgType (join "ann") = "JOIN_QUEUE" ∧
  InQueue (heap lobby 1) = false ∧ RoomID (heap lobby 1) = "" ∧
  queue (handleMessage 1 (join "ann") [1; 2] [1; 2] lobby) = [1] ∧
  ∃ added,
    queue (foldl step lobby
             [Receive 1 (join "ann") [1; 2] [1; 2];
              Receive 1 (join "ann") [1; 2] [1; 2]]) = queue lobby ++ added ∧
    length (filter (λ q, q = 1) added) ≤ 1.
Proof.
  destruct JOIN_QUEUE_enqueues_once as (_ & Hjoin & Hrun).
  split; [reflexivity|]. split; [reflexivity|]. split; [reflexivity|].
  split.
  - destruct (Hjoin 1 (join "ann") [1; 2] [1; 2] lobby) as [Hq _];
      [reflexivity | reflexivity | reflexivity | exact Hq].
  - apply Hrun. repeat constructor; cbn; tauto.
Defined.

(** C6 on [arena]: a second death with equal scores is announced as
    the draw it is. *)
Lemma GAME_OVER_reasons_witness :
  let w1 := handleMessage 1 (report "PLAYER_DIED" 40) [1; 2] [1; 2] arena in
  let w2 := handleMessage 2 (report "PLAYER_DIED" 40) [1; 2] [1; 2] w1 in
  Forall (λ q, ID (heap w1 q) ≠ "") [1; 2] ∧
  CallSendJSON 1 "GAME_OVER" (GameOverPayload "" "draw") ∈ emitted w1 w2 ∧
  ∃ best,
    tied w1 2 40 (GetClientsInRoom [1; 2] (RoomID (heap w1 2)) w1) best.
Proof.
  intros w1 w2.
  assert (Forall (λ q, ID (heap w1 q) ≠ "") [1; 2]) as Hids
    by (repeat constructor; vm_compute; congruence).
  assert (CallSendJSON 1 "GAME_OVER" (GameOverPayload "" "draw")
            ∈ emitted w1 w2) as Hin
    by (vm_compute; right; left).
  split; [exact Hids|]. split; [exact Hin|].
  destruct GAME_OVER_reasons as [Hrelay _].
  destruct (Hrelay 2 (report "PLAYER_DIED" 40) [1; 2] [1; 2] w1 1 "GAME_OVER"
              (GameOverPayload "" "draw") Hids Hin eq_refl)
    as (score & best & _ & Es & _ & _ & _ & wid & reason & Hp & _ & Hwid & _).
  exists best. injection Hp as <- <-. injection Es as <-. by apply Hwid.
Defined.

(** C6 as stated fails: a draw is announced with reason "draw", which is
    neither "all_players_died" nor "disconnect". *)
Lemma GAME_OVER_reason_counterexample :
  let w1 := handleMessage 1 (report "PLAYER_DIED" 40) [1; 2] [1; 2] arena in
  let w2 := handleMessage 2 (report "PLAYER_DIED" 40) [1; 2] [1; 2] w1 in
  ¬ (∀ c wid reason,
       CallSendJSON c "GAME_OVER" (GameOverPayload wid reason) ∈ emitted w1 w2 →
       reason = "all_players_died" ∨ reason = "disconnect").
Proof.
  intros w1 w2 H.
  assert (CallSendJSON 1 "GAME_OVER" (GameOverPayload "" "draw")
            ∈ emitted w1 w2) as Hin
    by (vm_compute; right; left).
  destruct (H 1 "" "draw" Hin) as [Hr | Hr]; discriminate Hr.
Qed.

(** ** Where the matchmaker departs from its contract *)

(** C3 at a failing input: the first of four arrivals has closed while
    it was waiting. *)
Lemma Run_panics_pairing_closed_channel_witness :
  sys_closed gone_waiting = [0] ∧
  Nat.even (length (@nil loc)) = true ∧ all_open [0] [] ∧
  (0 ∈ [0] ∨ 1 ∈ [0]) ∧
  let st := Run one_room [0] (sys_world gone_waiting) [0; 1; 2; 3] in
  panicked st = true ∧ waiting st = Some 0 ∧ sessions st = [] ∧
  length (sessions st) < length [0; 1; 2; 3] `div` 2.
Proof.
  assert (0 ∈ [0] ∨ 1 ∈ [0]) as Hclosed by (left; by left).
  split; [reflexivity|].
  split; [reflexivity|]. split; [constructor|]. split; [exact Hclosed|].
  destruct (Run_panics_pairing_closed_channel one_room [0]
              (sys_world gone_waiting) [] 0 1 [2; 3] eq_refl (Forall_nil_2 _)
              Hclosed)
    as (Hp & Hw & Hs & Hlt & _).
  split; [exact Hp|]. split; [exact Hw|]. split; [exact Hs | exact Hlt].
Defined.

(** C4 at a failing input: the first player has closed while it was
    waiting. *)
Lemma createMatch_panics_on_closed_channel_witness :
  (0 ∈ [0] ∨ 1 ∈ [0]) ∧
  let w := sys_world gone_waiting in
  ∃ w', createMatch [0] 0 1 "room-1" 42 w = Panics w' ∧
    emitted w w' =
      [CallSendJSON 0 "GAME_START"
         (GameStartPayload "room-1" 42
            (ID (heap w 0)) (Name (heap w 0))
            (ID (heap w 1)) (Name (heap w 1)))] ∧
    Send (heap w' 1) = Send (heap w 1).
Proof.
  assert (0 ∈ [0] ∨ 1 ∈ [0]) as Hclosed by (left; by left).
  split; [exact Hclosed|]. intros w.
  destruct (createMatch_panics_on_closed_channel [0] w 0 1 "room-1" 42
              Hclosed) as (w' & Hw & _ & He & Hs).
  exists w'. split; [exact Hw|]. split; [exact He | exact Hs].
Defined.

(** ** Where the relay departs from its contract *)

(** C2 at its failing input.  The first guest of [arena] reports the
    least [int], which the gate lets through, and then the greatest one:
    the difference overflows to -1, so the report is stored although it
    exceeds the stored score by more than 50, and it is forwarded. *)
Theorem anti_cheat_overflow_accepts_jump :
  let w1 := handleMessage 1 (report "UPDATE_SCORE" GoInt.int_min)
              [1; 2] [1; 2] arena in
  let w2 := handleMessage 1 (report "UPDATE_SCORE" GoInt.int_max)
              [1; 2] [1; 2] w1 in
  Score (heap arena 1) = 0%Z ∧
  Score (heap w1 1) = GoInt.int_min ∧
  (GoInt.int_max > Score (heap w1 1%nat) + 50)%Z ∧
  GoInt.sub GoInt.int_max (Score (heap w1 1)) = (-1)%Z ∧
  Score (heap w2 1) = GoInt.int_max ∧
  emitted w1 w2 =
    [CallSendJSON 2 "OPPONENT_UPDATE"
       (OpponentUpdatePayload GoInt.int_max true)].
Proof. vm_compute. repeat split. Qed.

(** C10 at its failing input.  The first guest of [arena] has score 1
    and reports the least [int]: the difference overflows to the
    greatest [int], so the report is rejected although it is below the
    stored score. *)
Theorem anti_cheat_overflow_rejects_decrease :
  let w1 := handleMessage 1 (report "UPDATE_SCORE" 1) [1; 2] [1; 2] arena in
  let w2 := handleMessage 1 (report "UPDATE_SCORE" GoInt.int_min)
              [1; 2] [1; 2] w1 in
  Score (heap w1 1) = 1%Z ∧
  (GoInt.int_min ≤ Score (heap w1 1%nat) + 50)%Z ∧
  GoInt.sub GoInt.int_min (Score (heap w1 1)) = GoInt.int_max ∧
  Score (heap w2 1) = 1%Z ∧
  emitted w1 w2 =
    [CallSendJSON 2 "OPPONENT_UPDATE" (OpponentUpdatePayload 1 true)].
Proof. vm_compute. repeat split; discriminate. Qed.

(** C7 at its failing input.  In [lobby] nobody is in a room, yet a
    score report of the first guest is stored and sent to the second
    guest, and so is its death; when the second guest then dies too, the
    relay resolves the empty room: both get [GAME_OVER] and both scores
    are saved. *)
Theorem roomless_reports_are_processed :
  let w1 := handleMessage 1 (report "UPDATE_SCORE" 10) [1; 2] [1; 2] lobby in
  let w2 := handleMessage 1 (report "PLAYER_DIED" 10) [1; 2] [1; 2] w1 in
  let w3 := handleMessage 2 (report "PLAYER_DIED" 3) [1; 2] [1; 2] w2 in
  RoomID (heap lobby 1) = "" ∧ RoomID (heap lobby 2) = "" ∧
  Score (heap lobby 1) = 0%Z ∧ Score (heap w1 1) = 10%Z ∧
  emitted lobby w1 =
    [CallSendJSON 2 "OPPONENT_UPDATE" (OpponentUpdatePayload 10 true)] ∧
  IsAlive (heap w1 1) = true ∧ IsAlive (heap w2 1) = false ∧
  emitted w1 w2 =
    [CallSendJSON 2 "OPPONENT_UPDATE" (OpponentUpdatePayload 10 false)] ∧
  emitted w2 w3 =
    [CallSendJSON 1 "OPPONENT_UPDATE" (OpponentUpdatePayload 3 false);
     CallSendJSON 1 "GAME_OVER" (GameOverPayload "guest_a" "all_players_died");
     CallSendJSON 2 "GAME_OVER" (GameOverPayload "guest_a" "all_players_died");
     CallSaveScore "guest_a" "" 10; CallSaveScore "guest_b" "" 3].
Proof. vm_compute. repeat split. Qed.

(** * Further properties of the relay *)

Lemma handle_registry (client : loc) (msg : Message)
    (range1 range2 : list loc) (w : World) :
  let w' := handleMessage client msg range1 range2 w in
  hub_clients w' = hub_clients w ∧
  ∀ q, ID (heap w' q) = ID (heap w q) ∧
       (Name (heap w' q) = Name (heap w q) ∨
        q = client ∧ MsgType msg = "JOIN_QUEUE") ∧
       (RoomID (heap w' q) = RoomID (heap w q) ∨ RoomID (heap w' q) = "").
Proof.
  intros w'. unfold w'. by_type msg.
  - rewrite (handle_JOIN_QUEUE _ _ _ _ _ E).
    destruct (_ && _); [|by auto]. cbv zeta.
    split; [by case_decide|]. intros q.
    rewrite heap_upd. unfold AddToQueue. cbn [heap].
    destruct (decide (client = q)) as [<-|Hq].
    + case_decide; rewrite heap_upd_eq; cbn; auto.
    + case_decide; rewrite heap_upd_ne by done; auto.
  - destruct (asScorePayload msg) as [score|] eqn:Es;
      [|rewrite handle_undecodable by auto; by auto].
    rewrite (handle_UPDATE_SCORE _ _ _ _ _ score E Es).
    destruct (_ >? 50)%Z.
    + pose proof (frames_notifyOpponent w client "OPPONENT_UPDATE"
        (OpponentUpdatePayload (Score (heap w client))
           (IsAlive (heap w client))) range1) as Hf.
      split; [apply (frames_hub _ _ Hf)|]. intros q.
      rewrite (frames_ID _ _ Hf), (frames_Name _ _ Hf),
        (frames_RoomID _ _ Hf). auto.
    + pose proof (frames_notifyOpponent (upd client (setScore score) w)
        client "OPPONENT_UPDATE"
        (OpponentUpdatePayload score (IsAlive (heap w client))) range1)
        as Hf.
      split; [apply (frames_hub _ _ Hf)|]. intros q.
      rewrite (frames_ID _ _ Hf), (frames_Name _ _ Hf),
        (frames_RoomID _ _ Hf), heap_upd.
      case_decide; subst; cbn; auto.
  - destruct (asScorePayload msg) as [score|] eqn:Es;
      [|rewrite handle_undecodable by auto; by auto].
    destruct (player_died_spec client msg range1 range2 w score E Es)
      as (Hh & _ & _ & Hc).
    split; [done|]. intros q.
    destruct (core_fields _ _ (Hc q)) as (Hi & Hn & Hr & _).
    rewrite Hi, Hn, Hr, heap_died.
    destruct (_ && _); case_decide; subst; cbn; auto.
  - rewrite (handle_LEAVE_GAME _ _ _ _ _ E).
    case_decide; [by auto|].
    set (w1 := SaveScore _ _ _ w).
    pose proof (frames_notifyOpponent w1 client "OPPONENT_LEFT"
      (OpponentUpdatePayload (Score (heap w client)) false) range1) as Hf.
    split; [by rewrite hub_upd, (frames_hub _ _ Hf)|]. intros q.
    rewrite heap_upd.
    destruct (decide (client = q)) as [<-|Hq]; cbn;
      rewrite ?(frames_ID _ _ Hf), ?(frames_Name _ _ Hf),
        ?(frames_RoomID _ _ Hf); auto.
  - rewrite handle_other by done. auto.
Qed.

(** X1: the relay never touches the registry, never changes an
    identifier, renames nobody but the sender of a [JOIN_QUEUE], and
    never puts a client into a room: a room identifier is kept or
    cleared. *)
Theorem relay_keeps_registry (client : loc) (msg : Message)
    (range1 range2 : list loc) (w : World) :
  let w' := handleMessage client msg range1 range2 w in
  hub_clients w' = hub_clients w ∧
  ∀ q, ID (heap w' q) = ID (heap w q) ∧
       (Name (heap w' q) = Name (heap w q) ∨
        q = client ∧ MsgType msg = "JOIN_QUEUE") ∧
       (RoomID (heap w' q) = RoomID (heap w q) ∨ RoomID (heap w' q) = "").
Proof. apply handle_registry. Qed.

Lemma elem_of_opponents client e w c :
  c ∈ opponents client e w ↔
  c ∈ e ∧ RoomID (heap w c) = RoomID (heap w client) ∧
  ID (heap w c) ≠ ID (heap w client).
Proof.
  unfold opponents, GetClientsInRoom. rewrite !list_elem_of_filter. tauto.
Qed.

Lemma opponents_ext w w' client e :
  (∀ q, ID (heap w' q) = ID (heap w q)) →
  (∀ q, RoomID (heap w' q) = RoomID (heap w q)) →
  opponents client e w' = opponents client e w.
Proof.
  intros Hi Hr. unfold opponents.
  rewrite (GetClientsInRoom_ext w w') by done. rewrite Hr.
  apply list_filter_iff. intros q. by rewrite !Hi.
Qed.

Lemma handle_targets (client : loc) (msg : Message)
    (range1 range2 : list loc) (w : World) (c : loc) (t : string)
    (p : Payload) :
  CallSendJSON c t p ∈ emitted w (handleMessage client msg range1 range2 w) →
  RoomID (heap w c) = RoomID (heap w client) ∧
  ((t = "OPPONENT_UPDATE" ∨ t = "OPPONENT_LEFT") ∧ c ∈ range1 ∧
   ID (heap w c) ≠ ID (heap w client)
   ∨ t = "GAME_OVER" ∧ c ∈ range2).
Proof.
  by_type msg.
  - intros H. exfalso. revert H. apply emitted_nothing.
    rewrite (handle_JOIN_QUEUE _ _ _ _ _ E).
    destruct (_ && _); cbv zeta; [case_decide|]; done.
  - destruct (asScorePayload msg) as [score|] eqn:Es.
    + rewrite (handle_UPDATE_SCORE _ _ _ _ _ score E Es).
      destruct (_ >? 50)%Z;
        (erewrite emitted_app;
          [|by rewrite trace_notifyOpponent, ?trace_upd]);
        intros (c' & [= -> -> _] & Hc)%list_elem_of_fmap.
      * apply elem_of_opponents in Hc as (? & ? & ?). auto.
      * rewrite (opponents_ext w) in Hc
          by (intros q; rewrite heap_upd; by case_decide; subst).
        apply elem_of_opponents in Hc as (? & ? & ?). auto.
    + rewrite handle_undecodable by auto.
      intros H. exfalso. revert H. by apply emitted_nothing.
  - destruct (asScorePayload msg) as [score|] eqn:Es.
    + destruct (player_died_spec client msg range1 range2 w score E Es)
        as (_ & _ & Ht & _).
      rewrite (emitted_app _ _ _ Ht). clear Ht.
      rewrite (opponents_ext w)
        by (intros q; by destruct (died_fields w client score q)
              as (? & ? & ? & ?)).
      rewrite (GetClientsInRoom_ext w)
        by (intros q; by destruct (died_fields w client score q)
              as (? & ? & ? & ?)).
      rewrite elem_of_app. intros [Hin|Hin].
      { apply list_elem_of_fmap in Hin as (c' & [= -> -> _] & Hc).
        apply elem_of_opponents in Hc as (? & ? & ?). auto. }
      destruct (allDead _ _); [|by apply elem_of_nil in Hin].
      apply elem_of_app in Hin as [Hin|Hin].
      * apply list_elem_of_fmap in Hin as (c' & [= -> -> _] & Hc).
        unfold GetClientsInRoom in Hc.
        apply list_elem_of_filter in Hc as [? ?]. auto.
      * by apply list_elem_of_fmap in Hin as (c' & ? & _).
    + rewrite handle_undecodable by auto.
      intros H. exfalso. revert H. by apply emitted_nothing.
  - rewrite (handle_LEAVE_GAME _ _ _ _ _ E).
    case_decide as Hr.
    + intros H. exfalso. revert H. by apply emitted_nothing.
    + erewrite emitted_app;
        [|by rewrite trace_upd, trace_notifyOpponent, trace_SaveScore,
                     <- app_assoc].
      intros [[=] | (c' & [= -> -> _] & Hc)%list_elem_of_fmap]%elem_of_cons.
      change (opponents client range1 (SaveScore _ _ _ w))
        with (opponents client range1 w) in Hc.
      apply elem_of_opponents in Hc as (? & ? & ?). auto.
  - rewrite handle_other by done.
    intros H. exfalso. revert H. by apply emitted_nothing.
Qed.

(** X2: whatever the message, the relay sends only to clients of the
    sender's room found in the hub: an [OPPONENT_UPDATE] or
    [OPPONENT_LEFT] never goes to a client with the sender's identifier
    (so never back to the sender), and nothing but these and [GAME_OVER]
    is sent. *)
Theorem relay_sends_within_room (client : loc) (msg : Message)
    (range1 range2 : list loc) (w : World) (c : loc) (t : string)
    (p : Payload) :
  CallSendJSON c t p ∈ emitted w (handleMessage client msg range1 range2 w) →
  RoomID (heap w c) = RoomID (heap w client) ∧
  ((t = "OPPONENT_UPDATE" ∨ t = "OPPONENT_LEFT") ∧ c ∈ range1 ∧
   ID (heap w c) ≠ ID (heap w client)
   ∨ t = "GAME_OVER" ∧ c ∈ range2).
Proof. apply handle_targets. Qed.

(** X2 on [arena]: the score report of the first guest reaches the
    second one. *)
Lemma relay_sends_within_room_witness :
  CallSendJSON 2 "OPPONENT_UPDATE" (OpponentUpdatePayload 10 true)
    ∈ emitted arena
        (handleMessage 1 (report "UPDATE_SCORE" 10) [1; 2] [1; 2] arena) ∧
  RoomID (heap arena 2) = RoomID (heap arena 1) ∧
  ID (heap arena 2) ≠ ID (heap arena 1).
Proof.
  assert (CallSendJSON 2 "OPPONENT_UPDATE" (OpponentUpdatePayload 10 true)
    ∈ emitted arena
        (handleMessage 1 (report "UPDATE_SCORE" 10) [1; 2] [1; 2] arena))
    as Hin by (vm_compute; left).
  split; [exact Hin|].
  destruct (relay_sends_within_room 1 (report "UPDATE_SCORE" 10)
              [1; 2] [1; 2] arena 2 "OPPONENT_UPDATE"
              (OpponentUpdatePayload 10 true) Hin) as [Hr [(_ & _ & Hi) | [Ht _]]].
  - split; [exact Hr | exact Hi].
  - discriminate Ht.
Defined.

(** X3: a [JOIN_QUEUE] that is let in names the connection after the
    decoded name, or after its own identifier when the payload does not
    decode or the name is empty; so the display name is empty only if the
    identifier is.  It sends nothing and keeps score and alive flag. *)
Theorem JOIN_QUEUE_names_connection (client : loc) (msg : Message)
    (range1 range2 : list loc) (w : World) :
  MsgType msg = "JOIN_QUEUE" →
  InQueue (heap w client) = false → RoomID (heap w client) = "" →
  let w' := handleMessage client msg range1 range2 w in
  Name (heap w' client) =
    match asJoinQueuePayload msg with
    | Some name => if decide (name = "") then ID (heap w client) else name
    | None => ID (heap w client)
    end ∧
  (ID (heap w client) ≠ "" → Name (heap w' client) ≠ "") ∧
  Score (heap w' client) = Score (heap w client) ∧
  IsAlive (heap w' client) = IsAlive (heap w client) ∧
  emitted w w' = [].
Proof.
  intros E Hi Hr w'. unfold w'. rewrite (handle_JOIN_QUEUE _ _ _ _ _ E).
  rewrite Hi, bool_decide_eq_true_2 by done. cbn [negb andb]. cbv zeta.
  assert (∀ v, trace v = trace w → emitted w v = []) as Hnil.
  { intros v Hv. unfold emitted. by rewrite Hv, drop_all. }
  rewrite heap_upd_eq. unfold AddToQueue. cbn [heap].
  destruct (asJoinQueuePayload msg) as [name|]; cbn [from_option id].
  - destruct (decide (name = "")) as [->|Hn].
    + rewrite decide_False by (intros H; by apply H).
      rewrite heap_upd_eq. cbn. repeat split; auto.
    + rewrite decide_True by done. rewrite heap_upd_eq. cbn.
      repeat split; auto.
  - case_decide; rewrite heap_upd_eq; cbn; repeat split; auto.
Qed.

(** X3 on [lobby]: an empty name falls back to the identifier. *)
Lemma JOIN_QUEUE_names_connection_witness :
  MsgType (join "") = "JOIN_QUEUE" ∧ InQueue (heap lobby 1) = false ∧
  RoomID (heap lobby 1) = "" ∧
  Name (heap (handleMessage 1 (join "") [1; 2] [1; 2] lobby) 1) = "guest_a".
Proof.
  split; [reflexivity|]. split; [reflexivity|]. split; [reflexivity|].
  destruct (JOIN_QUEUE_names_connection 1 (join "") [1; 2] [1; 2] lobby)
    as [Hn _]; [reflexivity | reflexivity | reflexivity | exact Hn].
Defined.

(** One accepted or rejected report of non-negative scores. *)
Lemma update_score_step client msg range1 range2 w :
  MsgType msg = "UPDATE_SCORE" →
  (∀ s, asScorePayload msg = Some s → (0 ≤ s ≤ GoInt.int_max)%Z) →
  (0 ≤ Score (heap w client) ≤ GoInt.int_max)%Z →
  let w' := handleMessage client msg range1 range2 w in
  (0 ≤ Score (heap w' client) ≤ GoInt.int_max)%Z ∧
  (Score (heap w' client) ≤ Score (heap w client) + 50)%Z.
Proof.
  intros E Hs HS w'. unfold w'.
  destruct (asScorePayload msg) as [score|] eqn:Es;
    [|rewrite handle_undecodable by auto; lia].
  specialize (Hs score eq_refl).
  assert (GoInt.sub score (Score (heap w client)) =
          (score - Score (heap w client))%Z) as Hsub.
  { apply sub_exact.
    unfold GoInt.is_int, GoInt.int_min, GoInt.int_max in *. lia. }
  destruct (Z_le_gt_dec (GoInt.sub score (Score (heap w client))) 50)
    as [Hle|Hgt].
  - destruct (update_score_accepted client msg range1 range2 w score E Es Hle)
      as (_ & -> & _). lia.
  - destruct (update_score_rejected client msg range1 range2 w score E Es Hgt)
      as (Hf & _). rewrite (frames_Score _ _ Hf). lia.
Qed.

(** X4: as long as stored and reported scores are non-negative, a
    connection's score grows by at most 50 per [UPDATE_SCORE] it sends,
    whether the reports are accepted, rejected or undecodable. *)
Theorem gate_bounds_growth (client : loc)
    (reports : list (Message * list loc * list loc)) (w : World) :
  Forall (λ r, MsgType r.1.1 = "UPDATE_SCORE" ∧
               ∀ s, asScorePayload r.1.1 = Some s →
                    (0 ≤ s ≤ GoInt.int_max)%Z) reports →
  (0 ≤ Score (heap w client) ≤ GoInt.int_max)%Z →
  let w' := foldl (λ v r, handleMessage client r.1.1 r.1.2 r.2 v) w reports in
  (0 ≤ Score (heap w' client) ≤
   Score (heap w client) + 50 * Z.of_nat (length reports))%Z.
Proof.
  revert w. induction reports as [|r reports IH]; intros w Hall HS;
    cbn [foldl length].
  - lia.
  - apply Forall_cons in Hall as [[E Hs] Hall].
    destruct (update_score_step client r.1.1 r.1.2 r.2 w E Hs HS)
      as [HS' Hstep].
    specialize (IH _ Hall HS'). cbv zeta in IH. lia.
Qed.

(** X4 on [arena]: 40, then 200 (rejected), then 90. *)
Lemma gate_bounds_growth_witness :
  let reports := [(report "UPDATE_SCORE" 40, [1; 2], [1; 2]);
                  (report "UPDATE_SCORE" 200, [1; 2], [1; 2]);
                  (report "UPDATE_SCORE" 90, [1; 2], [1; 2])] in
  let w' := foldl (λ v r, handleMessage 1 r.1.1 r.1.2 r.2 v) arena reports in
  (0 ≤ Score (heap arena 1%nat) ≤ GoInt.int_max)%Z ∧
  (0 ≤ Score (heap w' 1%nat) ≤ 150)%Z.
Proof.
  intros reports w'. unfold w'.
  assert (0 ≤ Score (heap arena 1%nat) ≤ GoInt.int_max)%Z as HS
    by (vm_compute; split; discriminate).
  split; [exact HS|].
  pose proof (gate_bounds_growth 1 reports arena) as H.
  assert (Score (heap arena 1%nat) = 0%Z) as H0 by (vm_compute; reflexivity).
  cbv zeta in H. rewrite H0 in H. apply H; [|exact HS].
  assert (∀ n, (0 ≤ n ≤ 200)%Z →
            MsgType (report "UPDATE_SCORE" n) = "UPDATE_SCORE" ∧
            ∀ s, asScorePayload (report "UPDATE_SCORE" n) = Some s →
                 (0 ≤ s ≤ GoInt.int_max)%Z) as Hok.
  { intros n Hn. split; [reflexivity|]. cbn. intros s [= <-].
    unfold GoInt.int_max. lia. }
  repeat (apply Forall_cons; split; [apply Hok; lia|]). constructor.
Defined.

(** ** The winner loop on rooms of any size *)

(** X5: on a non-empty room the winner loop ends on a client of the
    room whose score no other client of the room exceeds, and its draw
    flag is set exactly when at least two clients of the room have that
    score. *)
Theorem winner_loop_finds_maximum (w : World) (roomClients : list loc) :
  roomClients ≠ [] →
  ∃ winner,
    (foldl (pickWinner w) (None, false) roomClients).1 = Some winner ∧
    winner ∈ roomClients ∧
    (∀ c, c ∈ roomClients →
          (Score (heap w c) ≤ Score (heap w winner))%Z) ∧
    ((foldl (pickWinner w) (None, false) roomClients).2 = true ↔
     2 ≤ length (filter (λ c, Score (heap w c) = Score (heap w winner))
                        roomClients)).
Proof.
  destruct roomClients as [|c l]; [done|]. intros _. cbn [foldl pickWinner].
  apply (leads_loop w l [c] (Some c, false)).
  exists c. split; [done|]. split; [by left|]. split.
  - intros y ->%list_elem_of_singleton. lia.
  - rewrite filter_cons_True, filter_nil by done.
    cbn [snd length]. split; [done | lia].
Qed.

(** X5 on three scores 5, 7, 7. *)
Lemma winner_loop_finds_maximum_witness :
  let w := upd 3 (setScore 7) (upd 2 (setScore 7) (upd 1 (setScore 5) lobby)) in
  [1; 2; 3] ≠ [] ∧
  ∃ winner, (foldl (pickWinner w) (None, false) [1; 2; 3]).1 = Some winner ∧
            winner ∈ [1; 2; 3].
Proof.
  intros w. assert ([1; 2; 3] ≠ ([] : list loc)) as Hne by discriminate.
  split; [exact Hne|].
  destruct (winner_loop_finds_maximum w [1; 2; 3] Hne)
    as (winner & H1 & H2 & _).
  exists winner. split; [exact H1 | exact H2].
Defined.

(** ** Resolution of rooms of any size *)

Lemma filter_map_all (P : Effect → bool) (f : loc → Effect) (l : list loc) :
  (∀ c, P (f c) = true) → filter P (map f l) = map f l.
Proof.
  intros HP. induction l as [|c l IH]; [done|]. cbn [map].
  rewrite filter_cons_True by (apply Is_true_true, HP). by rewrite IH.
Qed.

Lemma filter_map_none (P : Effect → bool) (f : loc → Effect) (l : list loc) :
  (∀ c, P (f c) = false) → filter P (map f l) = [].
Proof.
  intros HP. induction l as [|c l IH]; [done|]. cbn [map].
  rewrite filter_cons_False by (apply Is_true_false, HP). by rewrite IH.
Qed.

Lemma filter_nobody (P : loc → Prop) `{∀ q, Decision (P q)} (l : list loc) :
  Forall (λ q, ¬ P q) l → filter P l = [].
Proof.
  induction 1 as [|q l' Hq _ IH]; [done|]. by rewrite filter_cons_False.
Qed.

Lemma allDead_spec l w :
  allDead l w = true ↔ ∀ q, q ∈ l → IsAlive (heap w q) = false.
Proof.
  unfold allDead. induction l as [|c l IH]; cbn [forallb].
  - split; [by intros _ q ?%elem_of_nil | done].
  - rewrite andb_true_iff, IH, negb_true_iff. split.
    + intros [Hc Hl] q [-> | Hq]%elem_of_cons; auto.
    + intros H. split; [apply H; by left | intros q Hq; apply H; by right].
Qed.

(** X6: a death resolves the sender's room exactly when every other
    registered client of that room is dead.  Then each client of the
    room is sent one [GAME_OVER], all with the same payload, each one's
    score is saved (the sender's being the reported one), each is reset,
    and a room with a non-empty identifier is left without clients.
    When another client of the room is alive, nothing is saved, no
    [GAME_OVER] is sent and nobody leaves the room. *)
Theorem death_resolves_room_iff_all_dead (client : loc) (msg : Message)
    (range1 range2 : list loc) (w : World) (score : Z) :
  MsgType msg = "PLAYER_DIED" → asScorePayload msg = Some score →
  let R := RoomID (heap w client) in
  let room := GetClientsInRoom range2 R w in
  let w' := handleMessage client msg range1 range2 w in
  ((∀ q, q ∈ room → q ≠ client → IsAlive (heap w q) = false) →
   (∃ over, filter is_GAME_OVER (emitted w w') =
              map (λ c, CallSendJSON c "GAME_OVER" over) room) ∧
   filter is_SaveScore (emitted w w') =
     map (λ c, CallSaveScore (ID (heap w c)) (Name (heap w c))
                 (if decide (client = c) then score else Score (heap w c)))
         room ∧
   (∀ q, q ∈ room →
      RoomID (heap w' q) = "" ∧ Score (heap w' q) = 0%Z ∧
      IsAlive (heap w' q) = true) ∧
   (R ≠ "" → GetClientsInRoom range2 R w' = [])) ∧
  ((∃ q, q ∈ room ∧ q ≠ client ∧ IsAlive (heap w q) = true) →
   filter is_GAME_OVER (emitted w w') = [] ∧
   filter is_SaveScore (emitted w w') = [] ∧
   ∀ q, RoomID (heap w' q) = RoomID (heap w q)).
Proof.
  intros E Es R room w'.
  destruct (player_died_spec client msg range1 range2 w score E Es)
    as (_ & _ & Ht & Hc).
  fold w' in Ht, Hc.
  set (w2 := upd client (setIsAlive false) (upd client (setScore score) w))
    in *.
  assert (∀ q, ID (heap w2 q) = ID (heap w q) ∧
               Name (heap w2 q) = Name (heap w q) ∧
               RoomID (heap w2 q) = RoomID (heap w q) ∧
               InQueue (heap w2 q) = InQueue (heap w q)) as Hf2
    by apply died_fields.
  rewrite (GetClientsInRoom_ext w w2) in Ht, Hc by (intros q; apply Hf2).
  fold R in Ht, Hc. fold room in Ht, Hc.
  assert (allDead room w2 = true ↔
          ∀ q, q ∈ room → q ≠ client → IsAlive (heap w q) = false) as Hall.
  { rewrite allDead_spec. split; intros H q Hq.
    - intros Hne. specialize (H q Hq). unfold w2 in H.
      rewrite heap_died in H. by rewrite decide_False in H.
    - unfold w2. rewrite heap_died. case_decide; subst; [done | auto]. }
  pose proof (emitted_app _ _ _ Ht) as He. clear Ht.
  assert (filter is_GAME_OVER
            (map (λ q, CallSendJSON q "OPPONENT_UPDATE"
                         (OpponentUpdatePayload score false))
                 (opponents client range1 w2)) = []) as Hg1
    by by apply filter_GAME_OVER_other.
  assert (filter is_SaveScore
            (map (λ q, CallSendJSON q "OPPONENT_UPDATE"
                         (OpponentUpdatePayload score false))
                 (opponents client range1 w2)) = []) as Hs1
    by by apply filter_map_none.
  split.
  - intros Hdead. apply Hall in Hdead. rewrite Hdead in He, Hc.
    cbn [andb] in Hc. rewrite He, !filter_app, Hg1, Hs1. cbn [app].
    split; [|split; [|split]].
    + eexists. rewrite filter_GAME_OVER_map.
      rewrite (filter_map_none is_GAME_OVER) by done. by rewrite app_nil_r.
    + rewrite (filter_map_none is_SaveScore) by done.
      rewrite (filter_map_all is_SaveScore) by done. cbn [app].
      apply map_ext. intros c. unfold saveOf.
      destruct (Hf2 c) as (-> & -> & _). unfold w2. rewrite heap_died.
      by case_decide.
    + intros q Hq.
      destruct (core_fields _ _ (Hc q)) as (_ & _ & Hr & _ & Hsc & Ha).
      by rewrite bool_decide_eq_true_2 in Hr, Hsc, Ha by done.
    + intros HR. unfold GetClientsInRoom.
      apply filter_nobody.
      apply Forall_forall. intros q Hq Hr'.
      destruct (core_fields _ _ (Hc q)) as (_ & _ & Hr & _).
      destruct (decide (q ∈ room)) as [Hin|Hin].
      * rewrite bool_decide_eq_true_2 in Hr by done. cbn in Hr. congruence.
      * rewrite bool_decide_eq_false_2 in Hr by done.
        destruct (Hf2 q) as (_ & _ & Hr2 & _). apply Hin.
        unfold room, GetClientsInRoom. apply list_elem_of_filter.
        split; [congruence | done].
  - intros (q & Hq & Hne & Hal).
    assert (allDead room w2 = false) as Hnot.
    { apply not_true_is_false. intros Hd.
      rewrite (proj1 Hall Hd q Hq Hne) in Hal. done. }
    rewrite Hnot in He, Hc. cbn [andb] in Hc.
    rewrite He, app_nil_r, Hg1, Hs1. split; [done|]. split; [done|].
    intros q'. destruct (core_fields _ _ (Hc q')) as (_ & _ & Hr & _).
    rewrite Hr. apply Hf2.
Qed.

(** ** A participant left alone in its room *)

Lemma leave_core client msg range1 range2 w :
  MsgType msg = "LEAVE_GAME" → RoomID (heap w client) ≠ "" →
  let w' := handleMessage client msg range1 range2 w in
  hub_clients w' = hub_clients w ∧
  ∀ q, core (heap w' q) =
       core (if decide (client = q)
             then setInQueue false (cleaned (heap w client)) else heap w q).
Proof.
  intros E Hr w'. unfold w'. rewrite (handle_LEAVE_GAME _ _ _ _ _ E).
  rewrite decide_False by done.
  set (w1 := SaveScore _ _ _ w).
  pose proof (frames_notifyOpponent w1 client "OPPONENT_LEFT"
    (OpponentUpdatePayload (Score (heap w client)) false) range1)
    as (Hh & _ & Hc).
  split; [by rewrite hub_upd, Hh|]. intros q. rewrite heap_upd.
  case_decide; subst.
  - change (core (setInQueue false (cleaned (heap (notifyOpponent q
              "OPPONENT_LEFT" (OpponentUpdatePayload (Score (heap w q)) false)
              range1 w1) q))))
      with (setInQueue false (cleaned (core (heap (notifyOpponent q
              "OPPONENT_LEFT" (OpponentUpdatePayload (Score (heap w q)) false)
              range1 w1) q)))).
    by rewrite Hc.
  - by rewrite Hc.
Qed.

Lemma one_element_list (l : list loc) (Q : loc) :
  NoDup l → (∀ p, p ∈ l ↔ p = Q) → l = [Q].
Proof.
  intros Hnd Hl. destruct l as [|x [|y l]].
  - exfalso. by apply (not_elem_of_nil Q), Hl.
  - f_equal. apply Hl. by left.
  - exfalso. apply NoDup_cons in Hnd as [Hx _]. apply Hx.
    assert (x = Q) as -> by (apply Hl; by left).
    assert (y = Q) as -> by (apply Hl; right; by left). by left.
Qed.

(** The room of a registered client who is alone in it. *)
Lemma room_of_one w R Q e :
  enumerates w e → (∃ id, hub_clients w !! id = Some Q) →
  RoomID (heap w Q) = R →
  (∀ p, (∃ id, hub_clients w !! id = Some p) → RoomID (heap w p) = R → p = Q) →
  GetClientsInRoom e R w = [Q].
Proof.
  intros [Hnd He] HQ HR Honly. apply one_element_list.
  - by apply NoDup_filter.
  - intros p. unfold GetClientsInRoom. rewrite list_elem_of_filter, He.
    split; [intros [? ?]; auto | intros ->; auto].
Qed.

(** X7: when one participant of a session has left the game, the death
    of the other one resolves the room at once, with the remaining
    participant as the winner whatever the scores: it alone is sent
    [GAME_OVER], naming itself, its reported score is saved and it is
    reset. *)
Theorem death_after_opponent_left (w : World) (R : string) (P Q : loc)
    (mP mQ : Message) (sQ : Z) (rangeP1 rangeP2 rangeQ1 rangeQ2 : list loc) :
  session w R P Q → R ≠ "" →
  MsgType mP = "LEAVE_GAME" →
  MsgType mQ = "PLAYER_DIED" → asScorePayload mQ = Some sQ →
  enumerates w rangeQ1 → enumerates w rangeQ2 →
  let w1 := handleMessage P mP rangeP1 rangeP2 w in
  let w2 := handleMessage Q mQ rangeQ1 rangeQ2 w1 in
  RoomID (heap w1 Q) = R ∧
  emitted w1 w2 =
    [CallSendJSON Q "GAME_OVER"
       (GameOverPayload (ID (heap w Q)) "all_players_died");
     CallSaveScore (ID (heap w Q)) (Name (heap w Q)) sQ] ∧
  RoomID (heap w2 Q) = "" ∧ Score (heap w2 Q) = 0%Z ∧
  IsAlive (heap w2 Q) = true.
Proof.
  intros Hs HR EP EQ EsQ He1 He2 w1 w2.
  pose proof (session_ne _ _ _ _ Hs) as Hne.
  destruct (session_RoomID _ _ _ _ Hs) as [HRP HRQ].
  destruct (leave_core P mP rangeP1 rangeP2 w EP) as [Hh1 Hc1];
    [congruence|]. fold w1 in Hh1, Hc1.
  assert (∀ q, q ≠ P → core (heap w1 q) = core (heap w q)) as Hother.
  { intros q Hq. rewrite Hc1. by rewrite decide_False. }
  destruct (core_fields _ _ (Hother Q (ltac:(congruence))))
    as (HiQ & HnQ & HrQ & _).
  destruct (core_fields _ _ (Hc1 P)) as (_ & _ & HrP & _).
  rewrite decide_True in HrP by done. cbn in HrP.
  destruct Hs as [Hid Hp].
  assert (∃ id, hub_clients w1 !! id = Some Q) as HQreg.
  { rewrite Hh1. apply (Hp Q). by right. }
  assert (∀ p, (∃ id, hub_clients w1 !! id = Some p) →
               RoomID (heap w1 p) = R → p = Q) as Honly.
  { intros p Hreg Hr. rewrite Hh1 in Hreg.
    destruct (decide (p = P)) as [->|HpP]; [congruence|].
    destruct (core_fields _ _ (Hother p HpP)) as (_ & _ & Hr' & _).
    destruct (proj1 (Hp p)) as [-> | ->]; [split; [done|congruence] | done..]. }
  destruct (player_died_spec Q mQ rangeQ1 rangeQ2 w1 sQ EQ EsQ)
    as (_ & _ & Ht & Hc).
  fold w2 in Ht, Hc.
  set (wd := upd Q (setIsAlive false) (upd Q (setScore sQ) w1)) in *.
  assert (∀ q, ID (heap wd q) = ID (heap w1 q) ∧
               Name (heap wd q) = Name (heap w1 q) ∧
               RoomID (heap wd q) = RoomID (heap w1 q) ∧
               InQueue (heap wd q) = InQueue (heap w1 q)) as Hfd
    by apply died_fields.
  assert (GetClientsInRoom rangeQ2 (RoomID (heap w1 Q)) wd = [Q]) as Hroom.
  { rewrite (GetClientsInRoom_ext w1 wd) by (intros q; apply Hfd).
    apply room_of_one; [by apply (enumerates_ext w) | done | done |].
    rewrite HrQ, HRQ. apply Honly. }
  assert (opponents Q rangeQ1 wd = []) as Hopp.
  { rewrite (opponents_ext w1 wd) by (intros q; apply Hfd).
    unfold opponents.
    rewrite (room_of_one w1 (RoomID (heap w1 Q)) Q rangeQ1);
      [|by apply (enumerates_ext w) | done | done |
        rewrite HrQ, HRQ; apply Honly].
    by rewrite filter_cons_False by (intros H; by apply H). }
  assert (heap wd Q = setIsAlive false (setScore sQ (heap w1 Q))) as HdQ.
  { unfold wd. rewrite heap_died. by rewrite decide_True. }
  rewrite Hroom, Hopp in Ht. rewrite Hroom in Hc.
  assert (allDead [Q] wd = true) as Hall
    by (unfold allDead; cbn; by rewrite HdQ).
  rewrite Hall in Ht, Hc. cbn [andb] in Hc.
  split; [congruence|]. split.
  - rewrite (emitted_app _ _ _ Ht). cbn.
    unfold saveOf. rewrite HdQ. cbn. by rewrite HiQ, HnQ.
  - destruct (core_fields _ _ (Hc Q)) as (_ & _ & Hr & _ & Hsc & Ha).
    rewrite bool_decide_eq_true_2 in Hr, Hsc, Ha by (by left). done.
Qed.

(** X8: the gate does not look at the alive flag.  A participant that
    has died can still raise its score with an [UPDATE_SCORE] the gate
    lets through; the opponent is told, with [IsAlive = false], and it
    is the raised score that decides the winner when the opponent
    dies. *)
Theorem report_after_death_counts (w : World) (R : string) (P Q : loc)
    (mP mU mQ : Message) (sP sU sQ : Z)
    (rangeP1 rangeP2 rangeU1 rangeU2 rangeQ1 rangeQ2 : list loc) :
  session w R P Q →
  IsAlive (heap w P) = true → IsAlive (heap w Q) = true →
  MsgType mP = "PLAYER_DIED" → asScorePayload mP = Some sP →
  MsgType mU = "UPDATE_SCORE" → asScorePayload mU = Some sU →
  (GoInt.sub sU sP ≤ 50)%Z →
  MsgType mQ = "PLAYER_DIED" → asScorePayload mQ = Some sQ →
  enumerates w rangeP1 → enumerates w rangeP2 → enumerates w rangeU1 →
  enumerates w rangeQ1 → enumerates w rangeQ2 →
  let w1 := handleMessage P mP rangeP1 rangeP2 w in
  let w2 := handleMessage P mU rangeU1 rangeU2 w1 in
  let w3 := handleMessage Q mQ rangeQ1 rangeQ2 w2 in
  let over :=
    if (sU =? sQ)%Z then GameOverPayload "" "draw"
    else GameOverPayload
           (if (sU >? sQ)%Z then ID (heap w P) else ID (heap w Q))
           "all_players_died" in
  Score (heap w2 P) = sU ∧ IsAlive (heap w2 P) = false ∧
  emitted w1 w2 =
    [CallSendJSON Q "OPPONENT_UPDATE" (OpponentUpdatePayload sU false)] ∧
  ∃ π, (π = [P; Q] ∨ π = [Q; P]) ∧
    filter is_GAME_OVER (emitted w2 w3) =
      map (λ c, CallSendJSON c "GAME_OVER" over) π.
Proof.
  intros Hs HP HQ EP EsP EU EsU Hgate EQ EsQ He1 He2 He3 He4 He5 w1 w2 w3 over.
  pose proof (session_ne _ _ _ _ Hs) as Hne.
  destruct (first_death w R Q P (session_sym _ _ _ _ Hs) mP sP
              rangeP1 rangeP2 EP EsP He1 He2 HQ) as (Hh1 & _ & _ & Hc1).
  fold w1 in Hh1, Hc1.
  destruct (core_fields _ _ (Hc1 P)) as (HiP & _ & _ & _ & HscP & HaP).
  rewrite decide_True in HiP, HscP, HaP by done. cbn in HiP, HscP, HaP.
  destruct (core_fields _ _ (Hc1 Q)) as (HiQ & _).
  rewrite decide_False in HiQ by done.
  assert (session w1 R P Q) as Hs1.
  { apply (session_ext w); [done| | |done]; intros q;
      destruct (core_fields _ _ (Hc1 q)) as (Hi & _ & Hr & _);
      [rewrite Hi | rewrite Hr]; by case_decide; subst. }
  destruct (update_score_accepted P mU rangeU1 rangeU2 w1 sU EU EsU)
    as (Hf2 & Hsc2 & Ht2); [by rewrite HscP|].
  fold w2 in Hf2, Hsc2, Ht2.
  set (wu := upd P (setScore sU) w1) in *.
  assert (∀ q, ID (heap wu q) = ID (heap w1 q) ∧
               RoomID (heap wu q) = RoomID (heap w1 q) ∧
               IsAlive (heap wu q) = IsAlive (heap w1 q)) as Hfu.
  { intros q. unfold wu. rewrite heap_upd. by case_decide; subst. }
  assert (session wu R P Q) as Hsu.
  { apply (session_ext w1); [done | apply Hfu | apply Hfu | done]. }
  assert (session w2 R P Q) as Hs2.
  { apply (session_ext wu); [apply (frames_hub _ _ Hf2) | | | done];
      intros q; [apply (frames_ID _ _ Hf2) | apply (frames_RoomID _ _ Hf2)]. }
  assert (hub_clients w2 = hub_clients w) as Hh2
    by (rewrite (frames_hub _ _ Hf2); done).
  assert (IsAlive (heap w2 P) = false) as Ha2.
  { rewrite (frames_IsAlive _ _ Hf2). by destruct (Hfu P) as (_ & _ & ->). }
  split; [done|]. split; [done|]. split.
  { apply emitted_app. rewrite Ht2. f_equal.
    rewrite (opponents_of_session wu R P Q rangeU1 Hsu)
      by (by apply (enumerates_ext w)).
    cbn. by rewrite HaP. }
  destruct (second_death w2 R P Q Hs2 mQ sQ rangeQ1 rangeQ2 EQ EsQ
              (enumerates_ext _ _ _ Hh2 He4) (enumerates_ext _ _ _ Hh2 He5)
              Ha2) as (_ & _ & (π & Hπ & Ht3) & _).
  fold w3 in Ht3. exists π. split; [done|].
  rewrite (emitted_app _ _ _ Ht3).
  rewrite !filter_app, filter_GAME_OVER_map. cbn [app].
  rewrite filter_cons_False by (by intros H%bool_decide_unpack).
  rewrite filter_nil. cbn [app].
  rewrite (filter_map_none is_GAME_OVER) by done. rewrite app_nil_r.
  rewrite Hsc2, (frames_ID _ _ Hf2), (frames_ID _ _ Hf2).
  destruct (Hfu P) as (-> & _). destruct (Hfu Q) as (-> & _).
  by rewrite HiP, HiQ.
Qed.

(** * Further properties of the matchmaker *)

Lemma matched_names player1 player2 roomID seed w q :
  ID (heap (matched player1 player2 roomID seed w) q) = ID (heap w q) ∧
  Name (heap (matched player1 player2 roomID seed w) q) = Name (heap w q).
Proof.
  destruct (core_fields _ _ (matched_core player1 player2 roomID seed w q))
    as (-> & -> & _). by case_decide.
Qed.

Lemma sessionOf_shift gen n k ab :
  sessionOf gen (S n) k ab = sessionOf gen n (S k) ab.
Proof. unfold sessionOf. by replace (S n + k) with (n + S k) by lia. Qed.

Lemma Run_world_trace gen closed w l :
  all_open closed l →
  ∀ ss v,
    (∀ q, ID (heap v q) = ID (heap w q) ∧ Name (heap v q) = Name (heap w q)) →
    let st := foldl (Run_step gen closed)
                {| waiting := None; sessions := ss; world := v;
                   panicked := false |} l in
    trace (world st) =
      trace v ++
      flat_map (starts w) (imap (sessionOf gen (length ss)) (pairs l)) ∧
    ∀ q, ID (heap (world st) q) = ID (heap w q) ∧
         Name (heap (world st) q) = Name (heap w q).
Proof.
  induction l as [|a|a b l IH] using list_pair_ind; intros Hopen ss v Hv.
  - cbn. by rewrite app_nil_r.
  - cbn. by rewrite app_nil_r.
  - apply all_open_pair in Hopen as (Ha & Hb & Hopen).
    cbn [foldl]. rewrite Run_step_pair by done.
    set (v1 := matched a b _ _ v).
    assert (∀ q, ID (heap v1 q) = ID (heap w q) ∧
                 Name (heap v1 q) = Name (heap w q)) as Hv1.
    { intros q. unfold v1.
      destruct (matched_names a b (gen (length ss)).1
                  (gen (length ss)).2 v q) as [-> ->]. apply Hv. }
    destruct (IH Hopen (ss ++ [sessionOf gen (length ss) 0 (a, b)]) v1 Hv1)
      as [Ht Hq].
    split; [|done]. rewrite Ht. unfold v1.
    rewrite matched_start_trace, <- app_assoc. f_equal.
    cbn [pairs imap flat_map]. f_equal.
    + unfold starts, sessionOf. cbn. rewrite Nat.add_0_r.
      destruct (Hv a) as [-> ->]. by destruct (Hv b) as [-> ->].
    + f_equal. apply imap_ext. intros k ab _. unfold compose.
      rewrite length_app. cbn [length].
      replace (length ss + 1) with (S (length ss)) by lia.
      apply sessionOf_shift.
Qed.

(** X9: while the channels of the arrivals are open, [Run] does not
    panic and sends nothing but the two [GAME_START] of each session it
    creates, session after session in creation order, the first player's
    before the second player's. *)
Theorem Run_sends_starts_in_order (gen : nat → string * Z)
    (closed : list loc) (w : World) (arrivals : list loc) :
  all_open closed arrivals →
  let st := Run gen closed w arrivals in
  panicked st = false ∧
  trace (world st) = trace w ++ flat_map (starts w) (sessions st).
Proof.
  intros Hopen st.
  destruct (Run_loop gen closed arrivals Hopen [] w) as (Hs & _ & Hp).
  destruct (Run_world_trace gen closed w arrivals Hopen [] w) as [Ht _];
    [done|].
  split; [exact Hp|]. unfold st, Run. rewrite Ht. by rewrite Hs.
Qed.

(** X22: while the channels of the arrivals are open, [Run] does not
    panic and creates floor(N/2) sessions out of N arrivals, the k-th one
    (from 0) pairing arrivals 2k and 2k+1 in that order, with the k-th
    generated room identifier and seed; a last odd arrival is left
    waiting. *)
Theorem Run_pairs_open_arrivals_fifo (gen : nat → string * Z)
    (closed : list loc) (w : World) (arrivals : list loc) :
  all_open closed arrivals →
  let st := Run gen closed w arrivals in
  panicked st = false ∧
  length (sessions st) = length arrivals `div` 2 ∧
  (∀ k s, sessions st !! k = Some s ↔
     arrivals !! (2 * k) = Some (sPlayer1 s) ∧
     arrivals !! (2 * k + 1) = Some (sPlayer2 s) ∧
     (sRoomID s, sSeed s) = gen k) ∧
  waiting st = (if Nat.even (length arrivals) then None else last arrivals).
Proof.
  intros Hopen st.
  destruct (Run_loop gen closed arrivals Hopen [] w) as (Hs & Hw & Hp).
  fold (Run gen closed w arrivals) in Hs, Hw, Hp. fold st in Hs, Hw, Hp.
  cbn [app length] in Hs.
  split; [done|]. split; [by rewrite Hs, length_imap, length_pairs|].
  split; [|done].
  intros k s. rewrite Hs, list_lookup_imap.
  destruct s as [r sd a b]. cbn [sPlayer1 sPlayer2 sRoomID sSeed]. split.
  - destruct (pairs arrivals !! k) as [[a' b']|] eqn:E; [|done].
    apply lookup_pairs in E as [Ha Hb]. unfold sessionOf. cbn.
    intros [= <- <- <- <-]. by destruct (gen k).
  - intros (Ha & Hb & Hg).
    assert (pairs arrivals !! k = Some (a, b)) as ->
      by by apply lookup_pairs.
    unfold sessionOf. cbn. by rewrite <- Hg.
Qed.

(** X23: on two connections whose channels are open, [createMatch]
    returns; it first gives both the new room identifier, alive = true,
    score = 0 and in-queue = false, and then sends each of them one
    [GAME_START]; the two carry the same room identifier and the same
    seed, and each names its recipient as [MyID]/[MyName] and the other
    one as [OpponentID]/[OpponentName]. *)
Theorem createMatch_open_start_notifications (closed : list loc) (w : World)
    (player1 player2 : loc) (roomID : string) (seed : Z) :
  player1 ∉ closed → player2 ∉ closed →
  let w2 := upd player2 (assigned roomID) (upd player1 (assigned roomID) w) in
  let start1 := GameStartPayload roomID seed
    (ID (heap w player1)) (Name (heap w player1))
    (ID (heap w player2)) (Name (heap w player2)) in
  let start2 := GameStartPayload roomID seed
    (ID (heap w player2)) (Name (heap w player2))
    (ID (heap w player1)) (Name (heap w player1)) in
  createMatch closed player1 player2 roomID seed w =
    Returns (SendJSON player2 "GAME_START" start2
               (SendJSON player1 "GAME_START" start1 w2)) ∧
  trace w2 = trace w ∧
  (∀ p, p = player1 ∨ p = player2 →
     RoomID (heap w2 p) = roomID ∧ IsAlive (heap w2 p) = true ∧
     Score (heap w2 p) = 0%Z ∧ InQueue (heap w2 p) = false) ∧
  emitted w (reached (createMatch closed player1 player2 roomID seed w)) =
    [CallSendJSON player1 "GAME_START" start1;
     CallSendJSON player2 "GAME_START" start2] ∧
  (∀ p, p = player1 ∨ p = player2 →
     let cl :=
       heap (reached (createMatch closed player1 player2 roomID seed w)) p in
     RoomID cl = roomID ∧ IsAlive cl = true ∧ Score cl = 0%Z ∧
     InQueue cl = false).
Proof.
  intros H1 H2 w2 start1 start2.
  rewrite (createMatch_open closed w player1 player2 roomID seed H1 H2).
  destruct (matched_unfold w player1 player2 roomID seed) as [Hid Heq].
  fold w2 in Hid, Heq. fold start1 start2 in Heq.
  pose proof (assigned_fields roomID w player1 player2) as Hset.
  cbv zeta in Hset. fold w2 in Hset.
  split; [by rewrite Heq|]. split; [done|]. split; [exact Hset|].
  cbn [reached]. split.
  - apply emitted_app, matched_start_trace.
  - intros p Hp. cbv zeta. rewrite Heq.
    rewrite !RoomID_SendJSON, !IsAlive_SendJSON, !Score_SendJSON,
      !InQueue_SendJSON. by apply Hset.
Qed.

Lemma elem_of_pairs l k a b :
  pairs l !! k = Some (a, b) → a ∈ l ∧ b ∈ l.
Proof.
  intros [Ha Hb]%lookup_pairs.
  split; apply list_elem_of_lookup; eauto.
Qed.

Lemma Run_world_fields gen closed l :
  NoDup l → all_open closed l →
  ∀ ss v,
    let st := foldl (Run_step gen closed)
                {| waiting := None; sessions := ss; world := v;
                   panicked := false |} l in
    (∀ k a b q, pairs l !! k = Some (a, b) → q = a ∨ q = b →
       core (heap (world st) q) =
       core (assigned (gen (length ss + k)).1 (heap v q))) ∧
    (∀ q, (∀ k a b, pairs l !! k = Some (a, b) → q ≠ a ∧ q ≠ b) →
       core (heap (world st) q) = core (heap v q)).
Proof.
  induction l as [|a|a b l IH] using list_pair_ind; intros Hnd Hopen ss v.
  - cbn. split; [by intros ? ? ? ? ?|done].
  - cbn. split; [by intros ? ? ? ? ?|done].
  - apply NoDup_cons in Hnd as [Ha Hnd]. apply NoDup_cons in Hnd as [Hb Hnd].
    rewrite not_elem_of_cons in Ha. destruct Ha as [Hab Ha].
    apply all_open_pair in Hopen as (Hoa & Hob & Hopen).
    cbn [foldl]. rewrite Run_step_pair by done.
    set (v1 := matched a b _ _ v).
    destruct (IH Hnd Hopen (ss ++ [sessionOf gen (length ss) 0 (a, b)]) v1)
      as [IH1 IH2]. clear IH.
    assert (∀ q, q = a ∨ q = b →
              ∀ k a' b', pairs l !! k = Some (a', b') → q ≠ a' ∧ q ≠ b')
      as Hfresh.
    { intros q Hq k a' b' [Ha' Hb']%elem_of_pairs.
      destruct Hq as [-> | ->]; split; congruence. }
    split.
    + intros [|k] a' b' q Hk Hq.
      * cbn in Hk. injection Hk as <- <-.
        rewrite IH2 by by apply Hfresh.
        unfold v1. rewrite matched_core, decide_True by done.
        by rewrite Nat.add_0_r.
      * cbn [pairs] in Hk. cbn in Hk.
        rewrite (IH1 k a' b' q Hk Hq). rewrite length_app. cbn [length].
        replace (length ss + 1 + k) with (length ss + S k) by lia.
        change (core (assigned ?r ?x)) with (assigned r (core x)).
        f_equal. unfold v1. rewrite matched_core.
        rewrite decide_False; [done|].
        apply elem_of_pairs in Hk as [Ha' Hb'].
        intros [-> | ->]; destruct Hq as [-> | ->]; congruence.
    + intros q Hq. rewrite IH2.
      * unfold v1. rewrite matched_core.
        destruct (Hq 0 a b eq_refl) as [? ?].
        rewrite decide_False; [done | tauto].
      * intros k a' b' Hk. by apply (Hq (S k)).
Qed.

(** X10: when no connection arrives twice and the channels of the
    arrivals are open, [Run] leaves every matched connection in the room
    of its own session with score 0, alive and out of the queue, and
    leaves every other connection, the one still waiting included, as it
    was. *)
Theorem Run_assigns_rooms (gen : nat → string * Z) (closed : list loc)
    (w : World) (arrivals : list loc) :
  NoDup arrivals → all_open closed arrivals →
  let st := Run gen closed w arrivals in
  (∀ s q, s ∈ sessions st → q = sPlayer1 s ∨ q = sPlayer2 s →
     RoomID (heap (world st) q) = sRoomID s ∧
     Score (heap (world st) q) = 0%Z ∧
     IsAlive (heap (world st) q) = true ∧
     InQueue (heap (world st) q) = false) ∧
  (∀ q, (∀ s, s ∈ sessions st → q ≠ sPlayer1 s ∧ q ≠ sPlayer2 s) →
     core (heap (world st) q) = core (heap w q)).
Proof.
  intros Hnd Hopen st.
  destruct (Run_loop gen closed arrivals Hopen [] w) as [Hs _].
  destruct (Run_world_fields gen closed arrivals Hnd Hopen [] w) as [H1 H2].
  fold (Run gen closed w arrivals) in Hs, H1, H2. fold st in Hs, H1, H2.
  cbn [app length] in Hs. split.
  - intros s q Hin Hq. rewrite Hs in Hin.
    apply list_elem_of_lookup in Hin as [k Hk].
    rewrite list_lookup_imap in Hk.
    destruct (pairs arrivals !! k) as [[a b]|] eqn:Hp; [|done].
    cbn in Hk. injection Hk as <-. cbn in Hq.
    destruct (core_fields _ _ (H1 k a b q Hp Hq))
      as (_ & _ & Hr & Hi & Hsc & Hal). by rewrite Hr, Hi, Hsc, Hal.
  - intros q Hq. apply H2. intros k a b Hk.
    apply (Hq (sessionOf gen 0 k (a, b))). rewrite Hs.
    apply list_elem_of_lookup. exists k.
    by rewrite list_lookup_imap, Hk.
Qed.

(** ** The further properties on the two guests *)

(** X6 on [arena]: the first guest dies while the second one plays. *)
Lemma death_resolves_room_iff_all_dead_witness :
  MsgType (report "PLAYER_DIED" 40) = "PLAYER_DIED" ∧
  asScorePayload (report "PLAYER_DIED" 40) = Some 40%Z ∧
  (∃ q, q ∈ GetClientsInRoom [1; 2] (RoomID (heap arena 1)) arena ∧
        q ≠ 1 ∧ IsAlive (heap arena q) = true) ∧
  filter is_GAME_OVER
    (emitted arena
       (handleMessage 1 (report "PLAYER_DIED" 40) [1; 2] [1; 2] arena)) = [].
Proof.
  assert (∃ q, q ∈ GetClientsInRoom [1; 2] (RoomID (heap arena 1)) arena ∧
               q ≠ 1 ∧ IsAlive (heap arena q) = true) as Halive.
  { exists 2. split; [vm_compute; right; left|].
    split; [discriminate | vm_compute; reflexivity]. }
  split; [reflexivity|]. split; [reflexivity|]. split; [exact Halive|].
  destruct (death_resolves_room_iff_all_dead 1 (report "PLAYER_DIED" 40)
              [1; 2] [1; 2] arena 40 eq_refl eq_refl) as [_ Hnot].
  destruct (Hnot Halive) as [Hg _]. exact Hg.
Defined.

(** X7 on [arena]: the first guest leaves, the second one dies. *)
Lemma death_after_opponent_left_witness :
  session arena "room-1" 1 2 ∧ "room-1" ≠ "" ∧
  let w1 := handleMessage 1 leave [1; 2] [1; 2] arena in
  let w2 := handleMessage 2 (report "PLAYER_DIED" 3) [1; 2] [1; 2] w1 in
  emitted w1 w2 =
    [CallSendJSON 2 "GAME_OVER"
       (GameOverPayload (ID (heap arena 2)) "all_players_died");
     CallSaveScore (ID (heap arena 2)) (Name (heap arena 2)) 3].
Proof.
  assert ("room-1" ≠ "") as Hr by discriminate.
  split; [apply session_arena|]. split; [exact Hr|].
  destruct (death_after_opponent_left arena "room-1" 1 2 leave
              (report "PLAYER_DIED" 3) 3 [1; 2] [1; 2] [1; 2] [1; 2])
    as (_ & He & _).
  - apply session_arena.
  - exact Hr.
  - reflexivity.
  - reflexivity.
  - reflexivity.
  - apply enumerates_arena.
  - apply enumerates_arena.
  - exact He.
Defined.

(** X8 on [arena]: the first guest dies at 40, reports 90, and wins
    against 60. *)
Lemma report_after_death_counts_witness :
  session arena "room-1" 1 2 ∧ (GoInt.sub 90 40 ≤ 50)%Z ∧
  let w1 := handleMessage 1 (report "PLAYER_DIED" 40) [1; 2] [1; 2] arena in
  let w2 := handleMessage 1 (report "UPDATE_SCORE" 90) [1; 2] [1; 2] w1 in
  let w3 := handleMessage 2 (report "PLAYER_DIED" 60) [1; 2] [1; 2] w2 in
  ∃ π, (π = [1; 2] ∨ π = [2; 1]) ∧
    filter is_GAME_OVER (emitted w2 w3) =
      map (λ c, CallSendJSON c "GAME_OVER"
                  (GameOverPayload (ID (heap arena 1)) "all_players_died")) π.
Proof.
  assert (GoInt.sub 90 40 ≤ 50)%Z as Hgate by (vm_compute; discriminate).
  split; [apply session_arena|]. split; [exact Hgate|].
  destruct (report_after_death_counts arena "room-1" 1 2
              (report "PLAYER_DIED" 40) (report "UPDATE_SCORE" 90)
              (report "PLAYER_DIED" 60) 40 90 60
              [1; 2] [1; 2] [1; 2] [1; 2] [1; 2] [1; 2])
    as (_ & _ & _ & Hover).
  - apply session_arena.
  - vm_compute. reflexivity.
  - vm_compute. reflexivity.
  - reflexivity.
  - reflexivity.
  - reflexivity.
  - reflexivity.
  - exact Hgate.
  - reflexivity.
  - reflexivity.
  - apply enumerates_arena.
  - apply enumerates_arena.
  - apply enumerates_arena.
  - apply enumerates_arena.
  - apply enumerates_arena.
  - exact Hover.
Defined.

(** X10 on [lobby]: the two guests arrive and are matched. *)
Lemma Run_assigns_rooms_witness :
  NoDup [1; 2] ∧ all_open [] [1; 2] ∧
  let st := Run (λ _, ("room-1", 42%Z)) [] lobby [1; 2] in
  ∀ s q, s ∈ sessions st → q = sPlayer1 s ∨ q = sPlayer2 s →
    RoomID (heap (world st) q) = sRoomID s ∧
    Score (heap (world st) q) = 0%Z ∧
    IsAlive (heap (world st) q) = true ∧
    InQueue (heap (world st) q) = false.
Proof.
  assert (NoDup [1; 2]) as Hnd.
  { apply NoDup_cons. split; [|apply NoDup_singleton].
    rewrite list_elem_of_singleton. discriminate. }
  assert (all_open [] [1; 2]) as Hopen
    by (repeat constructor; apply not_elem_of_nil).
  split; [exact Hnd|]. split; [exact Hopen|].
  exact (proj1 (Run_assigns_rooms (λ _, ("room-1", 42%Z)) [] lobby [1; 2]
                  Hnd Hopen)).
Defined.

(** X9 on [lobby]: the two guests arrive and get their [GAME_START]. *)
Lemma Run_sends_starts_in_order_witness :
  all_open [] [1; 2] ∧
  let st := Run (λ _, ("room-1", 42%Z)) [] lobby [1; 2] in
  trace (world st) = trace lobby ++ flat_map (starts lobby) (sessions st).
Proof.
  assert (all_open [] [1; 2]) as Hopen
    by (repeat constructor; apply not_elem_of_nil).
  split; [exact Hopen|].
  exact (proj2 (Run_sends_starts_in_order (λ _, ("room-1", 42%Z)) [] lobby
                  [1; 2] Hopen)).
Defined.

(** X22 on [lobby]: three arrivals, the third one is left waiting. *)
Lemma Run_pairs_open_arrivals_fifo_witness :
  all_open [] [1; 2; 3] ∧
  let st := Run (λ _, ("room-1", 42%Z)) [] lobby [1; 2; 3] in
  length (sessions st) = 1 ∧ waiting st = Some 3.
Proof.
  assert (all_open [] [1; 2; 3]) as Hopen
    by (repeat constructor; apply not_elem_of_nil).
  split; [exact Hopen|].
  destruct (Run_pairs_open_arrivals_fifo (λ _, ("room-1", 42%Z)) [] lobby
              [1; 2; 3] Hopen) as (_ & Hn & _ & Hw).
  split; [exact Hn | exact Hw].
Defined.

(** X23 on [lobby]: the two guests are matched. *)
Lemma createMatch_open_start_notifications_witness :
  (1 ∉ @nil loc) ∧ (2 ∉ @nil loc) ∧
  emitted lobby (reached (createMatch [] 1 2 "room-1" 42 lobby)) =
    [CallSendJSON 1 "GAME_START"
       (GameStartPayload "room-1" 42
          (ID (heap lobby 1)) (Name (heap lobby 1))
          (ID (heap lobby 2)) (Name (heap lobby 2)));
     CallSendJSON 2 "GAME_START"
       (GameStartPayload "room-1" 42
          (ID (heap lobby 2)) (Name (heap lobby 2))
          (ID (heap lobby 1)) (Name (heap lobby 1)))].
Proof.
  split; [apply not_elem_of_nil|]. split; [apply not_elem_of_nil|].
  destruct (createMatch_open_start_notifications [] lobby 1 2 "room-1" 42
              (not_elem_of_nil 1) (not_elem_of_nil 2)) as (_ & _ & _ & He & _).
  exact He.
Defined.


(** * The hub and the connection handler *)

Lemma heap_Register client w : heap (Register client w) = heap w.
Proof. reflexivity. Qed.
Lemma trace_Register client w : trace (Register client w) = trace w.
Proof. reflexivity. Qed.

Lemma Unregister_world client st :
  heap (sys_world (Unregister client st)) = heap (sys_world st) ∧
  trace (sys_world (Unregister client st)) = trace (sys_world st) ∧
  queue (sys_world (Unregister client st)) = queue (sys_world st) ∧
  waiting (sys_loop (Unregister client st)) = waiting (sys_loop st) ∧
  sessions (sys_loop (Unregister client st)) = sessions (sys_loop st) ∧
  sys_next (Unregister client st) = sys_next st ∧
  hub_clients (sys_world (Unregister client st)) =
    delete (ID (heap (sys_world st) client)) (hub_clients (sys_world st)).
Proof.
  unfold Unregister. cbv zeta.
  destruct (hub_clients (sys_world st) !! ID (heap (sys_world st) client))
    eqn:Hl; cbn; repeat split; try done.
  symmetry. by apply delete_id.
Qed.

(** X11: the registry is a map on identifiers.  A registered client is
    found under its identifier, where it replaces whoever was there;
    other identifiers are not affected by [Register] or [Unregister];
    after [Unregister] nothing is found under the client's identifier,
    whoever held it; and a second [Unregister] changes nothing. *)
Theorem registry_round_trip (client other : loc) (id : string)
    (w : World) (st : System) :
  GetClient (ID (heap w client)) (Register client w) = Some client ∧
  (ID (heap w other) = ID (heap w client) →
   GetClient (ID (heap w client)) (Register other (Register client w)) =
     Some other) ∧
  (id ≠ ID (heap w client) →
   GetClient id (Register client w) = GetClient id w) ∧
  GetClient (ID (heap (sys_world st) client))
            (sys_world (Unregister client st)) = None ∧
  (id ≠ ID (heap (sys_world st) client) →
   GetClient id (sys_world (Unregister client st)) =
     GetClient id (sys_world st)) ∧
  Unregister client (Unregister client st) = Unregister client st.
Proof.
  unfold GetClient.
  split; [apply lookup_insert_eq|].
  split; [intros <-; apply lookup_insert_eq|].
  split; [intros Hid; by apply lookup_insert_ne|].
  destruct (Unregister_world client st) as (Hh & _ & _ & _ & _ & _ & Hhub).
  split; [rewrite Hhub; apply lookup_delete_eq|].
  split; [intros Hid; rewrite Hhub; by apply lookup_delete_ne|].
  unfold Unregister at 1. cbv zeta. rewrite Hh, Hhub.
  by rewrite lookup_delete_eq.
Qed.

Lemma Unregister_closed client st :
  sys_closed (Unregister client st) =
    match hub_clients (sys_world st) !! ID (heap (sys_world st) client) with
    | Some _ => sys_closed st ++ [client]
    | None => sys_closed st
    end.
Proof. unfold Unregister. cbv zeta. by destruct (_ !! _). Qed.

Lemma Unregister_panicked client st :
  panicked (sys_loop (Unregister client st)) = panicked (sys_loop st).
Proof. unfold Unregister. cbv zeta. by destruct (_ !! _). Qed.

(** What one receive of the matchmaker leaves: nothing changes, or a
    client is taken from the queue and, if one was waiting, the two go
    through [createMatch]. *)
Lemma Run_receive_world gen st :
  sys_closed (Run_receive gen st) = sys_closed st ∧
  sys_next (Run_receive gen st) = sys_next st ∧
  (sys_world (Run_receive gen st) = sys_world st ∨
   ∃ client rest,
     queue (sys_world st) = client :: rest ∧
     let popped := {| heap := heap (sys_world st);
                      hub_clients := hub_clients (sys_world st);
                      queue := rest; trace := trace (sys_world st) |} in
     (sys_world (Run_receive gen st) = popped ∨
      ∃ first roomID seed,
        sys_world (Run_receive gen st) =
          reached (createMatch (sys_closed st) first client roomID seed
                     popped))).
Proof.
  unfold Run_receive.
  destruct (panicked (sys_loop st)) eqn:Hp; [by auto|].
  destruct (queue (sys_world st)) as [|client rest] eqn:Hq; [by auto|].
  cbn [sys_closed sys_next]. split; [done|]. split; [done|].
  right. exists client, rest. split; [done|].
  unfold Run_step, sys_world, on_world.
  cbn [sys_loop panicked waiting sessions world]. rewrite Hp.
  destruct (waiting (sys_loop st)) as [first|]; [|by left].
  destruct (gen _) as [roomID seed]. right. exists first, roomID, seed.
  by destruct (createMatch _ _ _ _ _ _).
Qed.

Lemma Run_receive_registry gen st :
  hub_clients (sys_world (Run_receive gen st)) = hub_clients (sys_world st) ∧
  (∀ q, ID (heap (sys_world (Run_receive gen st)) q) =
        ID (heap (sys_world st) q)) ∧
  sys_closed (Run_receive gen st) = sys_closed st ∧
  sys_next (Run_receive gen st) = sys_next st.
Proof.
  destruct (Run_receive_world gen st) as (Hc & Hn & Hw).
  split; [|split; [|done]].
  - destruct Hw as [-> | (client & rest & _ & [-> | (f & r & sd & ->)])];
      [done | done |].
    by destruct (createMatch_frame (sys_closed st) f client r sd
      {| heap := heap (sys_world st);
         hub_clients := hub_clients (sys_world st);
         queue := rest; trace := trace (sys_world st) |}) as (-> & _).
  - intros q.
    destruct Hw as [-> | (client & rest & _ & [-> | (f & r & sd & ->)])];
      [done | done |].
    destruct (createMatch_frame (sys_closed st) f client r sd
      {| heap := heap (sys_world st);
         hub_clients := hub_clients (sys_world st);
         queue := rest; trace := trace (sys_world st) |}) as (_ & _ & Hq).
    by destruct (Hq q) as [-> _].
Qed.

Lemma ServeWs_open_world uuid8 st :
  let client := sys_next st in
  let id := ("guest_" ++ uuid8)%string in
  hub_clients (sys_world (ServeWs_open uuid8 st)) =
    <[id := client]> (hub_clients (sys_world st)) ∧
  heap (sys_world (ServeWs_open uuid8 st)) client = NewClient id ∧
  (∀ q, q ≠ client →
        heap (sys_world (ServeWs_open uuid8 st)) q = heap (sys_world st) q) ∧
  trace (sys_world (ServeWs_open uuid8 st)) = trace (sys_world st) ∧
  queue (sys_world (ServeWs_open uuid8 st)) = queue (sys_world st) ∧
  waiting (sys_loop (ServeWs_open uuid8 st)) = waiting (sys_loop st) ∧
  sys_closed (ServeWs_open uuid8 st) = sys_closed st ∧
  sys_next (ServeWs_open uuid8 st) = S (sys_next st).
Proof.
  intros client id.
  change (sys_world (ServeWs_open uuid8 st))
    with (Register client (upd client (λ _, NewClient id) (sys_world st))).
  unfold Register. cbn [hub_clients heap setHub trace queue].
  rewrite heap_upd_eq. cbn [ID NewClient].
  split; [done|]. split; [done|].
  split; [intros q Hq; by rewrite heap_upd_ne|]. done.
Qed.

Lemma registry_ok_act gen st a :
  registry_ok st → known st a → registry_ok (act gen st a).
Proof.
  intros [Hhub Hclosed] Hk.
  destruct a as [uuid8 | client [[[msg|] range1] range2] | client |];
    cbn [act known] in *.
  - (* Opens *)
    destruct (ServeWs_open_world uuid8 st)
      as (Hh & Hc & Hq & _ & _ & _ & Hcl & Hn).
    unfold registry_ok. rewrite Hh, Hcl, Hn. split.
    + intros id p [[<- <-] | [Hid Hp]]%lookup_insert_Some.
      * rewrite Hc. split; [done|]. split; [by eexists|]. split; [lia|].
        intros Hin%Hclosed. lia.
      * destruct (Hhub id p Hp) as (Hi & Hu & Hlt & Hnc).
        rewrite Hq by lia.
        split; [done|]. split; [done|]. split; [lia | done].
    + intros p Hp%Hclosed. lia.
  - (* Reads, a message *)
    unfold ServeWs_read, registry_ok, sys_world, on_world. cbn.
    fold (sys_world st).
    destruct (handle_registry client msg range1 range2 (sys_world st))
      as [Hh Hq].
    split; [|done]. intros id p Hp. rewrite Hh in Hp.
    destruct (Hq p) as [-> _]. by apply Hhub.
  - (* Reads, no message *)
    done.
  - (* Closes *)
    destruct (Unregister_world client st)
      as (Hh & _ & _ & _ & _ & Hn & Hd).
    pose proof (Unregister_closed client st) as Hc.
    unfold registry_ok. rewrite Hh, Hn, Hd, Hc. split.
    + intros id p [Hid Hp]%lookup_delete_Some.
      destruct (Hhub id p Hp) as (Hi & Hu & Hlt & Hnc).
      split; [done|]. split; [done|]. split; [done|].
      destruct (_ !! _); [|done].
      rewrite elem_of_app, list_elem_of_singleton.
      intros [? | ->]; [done | congruence].
    + intros p. destruct (_ !! _); [|apply Hclosed].
      rewrite elem_of_app, list_elem_of_singleton.
      intros [?%Hclosed | ->]; done.
  - (* Dequeues *)
    destruct (Run_receive_registry gen st) as (Hh & Hi & Hc & Hn).
    unfold registry_ok. rewrite Hh, Hc, Hn. split; [|done].
    intros id p Hp. rewrite Hi. by apply Hhub.
Qed.

Lemma registry_ok_run gen actions :
  ∀ st, registry_ok st → legal gen st actions →
        registry_ok (foldl (act gen) st actions).
Proof.
  induction actions as [|a actions IH]; intros st Hok Hl; [done|].
  destruct Hl as [Hk Hl]. cbn [foldl]. apply IH; [|done].
  by apply registry_ok_act.
Qed.

(** X12: in every run of the server from start-up, whatever the
    interleaving of connections opening, reading and closing and of the
    matchmaker, each entry of the hub is stored under the identifier of
    its client, that identifier starts with "guest_" (so it is not
    empty), and the client's channel has not been closed. *)
Theorem registry_stays_in_order (gen : nat → string * Z)
    (actions : list Action) :
  legal gen boot actions →
  let st := foldl (act gen) boot actions in
  ∀ id p, hub_clients (sys_world st) !! id = Some p →
    ID (heap (sys_world st) p) = id ∧
    (∃ uuid8, id = ("guest_" ++ uuid8)%string) ∧ id ≠ "" ∧
    p ∉ sys_closed st.
Proof.
  intros Hl st id p Hp.
  assert (registry_ok boot) as Hboot.
  { split; [|by intros ? ?%elem_of_nil].
    intros i q H. exfalso. exact (lookup_empty_Some (M := gmap string) i q H). }
  destruct (registry_ok_run gen actions boot Hboot Hl) as [Hhub _].
  destruct (Hhub id p Hp) as (Hi & [u Hu] & _ & Hnc).
  split; [done|]. split; [by exists u|]. split; [by rewrite Hu | done].
Qed.

(** X14: in every run of the server from start-up, a message that is
    handled with no connection closing meanwhile makes the relay call
    [SendJSON] only on clients that are still in the hub, whose channels
    have not been closed. *)
Theorem relay_spares_closed_channels (gen : nat → string * Z)
    (actions : list Action) (client : loc) (msg : Message)
    (range1 range2 : list loc) (c : loc) (t : string) (p : Payload) :
  legal gen boot actions →
  let st := foldl (act gen) boot actions in
  enumerates (sys_world st) range1 → enumerates (sys_world st) range2 →
  CallSendJSON c t p ∈
    emitted (sys_world st)
      (sys_world (act gen st (Reads client (Some msg, range1, range2)))) →
  (∃ id, hub_clients (sys_world st) !! id = Some c) ∧ c ∉ sys_closed st.
Proof.
  intros Hl st [_ He1] [_ He2] Hin.
  assert (registry_ok boot) as Hboot.
  { split; [|by intros ? ?%elem_of_nil].
    intros i q H. exfalso. exact (lookup_empty_Some (M := gmap string) i q H). }
  destruct (registry_ok_run gen actions boot Hboot Hl) as [Hhub _].
  fold st in Hhub.
  change (sys_world (act gen st (Reads client (Some msg, range1, range2))))
    with (handleMessage client msg range1 range2 (sys_world st)) in Hin.
  apply handle_targets in Hin as [_ [(_ & Hc & _) | [_ Hc]]].
  - apply He1 in Hc as [id Hid]. split; [by exists id|].
    by destruct (Hhub id c Hid) as (_ & _ & _ & ?).
  - apply He2 in Hc as [id Hid]. split; [by exists id|].
    by destruct (Hhub id c Hid) as (_ & _ & _ & ?).
Qed.

(** What happens when the waiting connection closes and another one
    arrives. *)
Lemma closed_connection_matched (gen : nat → string * Z)
    (st : System) (gone arrival : loc) (rest : list loc) :
  panicked (sys_loop st) = false →
  waiting (sys_loop st) = Some gone →
  is_Some (hub_clients (sys_world st) !! ID (heap (sys_world st) gone)) →
  queue (sys_world st) = arrival :: rest →
  let st1 := act gen st (Closes gone) in
  let st2 := act gen st1 Dequeues in
  let w := sys_world st in
  waiting (sys_loop st1) = Some gone ∧
  gone ∈ sys_closed st1 ∧
  panicked (sys_loop st2) = true ∧
  sessions (sys_loop st2) = sessions (sys_loop st) ∧
  emitted (sys_world st) (sys_world st2) =
    [CallSendJSON gone "GAME_START"
       (GameStartPayload (gen (length (sessions (sys_loop st)))).1
          (gen (length (sessions (sys_loop st)))).2
          (ID (heap w gone)) (Name (heap w gone))
          (ID (heap w arrival)) (Name (heap w arrival)))].
Proof.
  intros Hp Hw [x Hreg] Hq st1 st2 w.
  destruct (Unregister_world gone st) as (Hh1 & Ht1 & Hq1 & Hw1 & Hs1 & _).
  pose proof (Unregister_closed gone st) as Hc1. rewrite Hreg in Hc1.
  pose proof (Unregister_panicked gone st) as Hp1.
  fold (act gen st (Closes gone)) in Hh1, Ht1, Hq1, Hw1, Hs1, Hc1, Hp1.
  fold st1 in Hh1, Ht1, Hq1, Hw1, Hs1, Hc1, Hp1.
  assert (gone ∈ sys_closed st1) as Hgone
    by (rewrite Hc1, elem_of_app, list_elem_of_singleton; by right).
  split; [congruence|]. split; [exact Hgone|].
  unfold st2. cbn [act]. unfold Run_receive. rewrite Hp1, Hp, Hq1, Hq.
  unfold Run_step. cbn [sys_loop on_world waiting sessions world panicked].
  rewrite Hp1, Hp, Hw1, Hw, Hs1.
  destruct (gen (length (sessions (sys_loop st)))) as [roomID seed] eqn:Hg.
  rewrite createMatch_cases, decide_True by done.
  cbn [sys_closed sys_loop sessions waiting world panicked sys_world fst snd].
  split; [done|]. split; [done|].
  apply emitted_app. unfold emit. cbn [trace heap]. rewrite !trace_upd.
  cbn [trace]. unfold w. by rewrite <- Ht1, <- Hh1.
Qed.

(** X15: closing a connection clears neither the queue nor the waiting
    slot of the matchmaker.  If the waiting connection closes and
    another one arrives, the matchmaker, as long as it runs, pairs the
    two all the same: the first call it makes is the [SendJSON] of
    [GAME_START] on the channel that was just closed, and there it
    panics. *)
Theorem matchmaker_pairs_closed_connection (gen : nat → string * Z)
    (st : System) (gone arrival : loc) (rest : list loc) :
  panicked (sys_loop st) = false →
  waiting (sys_loop st) = Some gone →
  is_Some (hub_clients (sys_world st) !! ID (heap (sys_world st) gone)) →
  queue (sys_world st) = arrival :: rest →
  let st1 := act gen st (Closes gone) in
  let st2 := act gen st1 Dequeues in
  let w := sys_world st in
  waiting (sys_loop st1) = Some gone ∧
  queue (sys_world st1) = arrival :: rest ∧
  gone ∈ sys_closed st1 ∧
  head (emitted (sys_world st1) (sys_world st2)) =
    Some (CallSendJSON gone "GAME_START"
            (GameStartPayload (gen (length (sessions (sys_loop st)))).1
               (gen (length (sessions (sys_loop st)))).2
               (ID (heap w gone)) (Name (heap w gone))
               (ID (heap w arrival)) (Name (heap w arrival)))) ∧
  panicked (sys_loop st2) = true.
Proof.
  intros Hp Hw Hreg Hq st1 st2 w.
  destruct (closed_connection_matched gen st gone arrival rest Hp Hw Hreg Hq)
    as (Hw1 & Hgone & Hp2 & _ & He).
  destruct (Unregister_world gone st) as (_ & Ht1 & Hq1 & _).
  fold (act gen st (Closes gone)) in Ht1, Hq1. fold st1 in Ht1, Hq1.
  split; [exact Hw1|]. split; [congruence|]. split; [exact Hgone|].
  split; [|exact Hp2].
  unfold emitted in *. fold st1 st2 in He. rewrite Ht1. by rewrite He.
Qed.

(** X16: a connection that closes is only taken out of the hub.  No
    client is changed and nothing is sent or saved: in a session the
    opponent is not told and stays in the room, and from then on its
    score reports reach nobody. *)
Theorem close_is_silent (gen : nat → string * Z) (st : System) (R : string)
    (P Q : loc) (msg : Message) (range1 range2 : list loc) :
  registry_ok st → session (sys_world st) R P Q →
  let st1 := act gen st (Closes P) in
  enumerates (sys_world st1) range1 →
  MsgType msg = "UPDATE_SCORE" →
  heap (sys_world st1) = heap (sys_world st) ∧
  trace (sys_world st1) = trace (sys_world st) ∧
  GetClient (ID (heap (sys_world st) P)) (sys_world st1) = None ∧
  RoomID (heap (sys_world st1) Q) = R ∧
  emitted (sys_world st1)
    (handleMessage Q msg range1 range2 (sys_world st1)) = [].
Proof.
  intros [Hhub _] Hs st1 [_ He] E.
  destruct (Unregister_world P st) as (Hh & Ht & _ & _ & _ & _ & Hd).
  fold (act gen st (Closes P)) in Hh, Ht, Hd. fold st1 in Hh, Ht, Hd.
  destruct (session_RoomID _ _ _ _ Hs) as [HRP HRQ].
  destruct Hs as [Hid Hp].
  split; [done|]. split; [done|].
  split; [unfold GetClient; rewrite Hd; apply lookup_delete_eq|].
  split; [by rewrite Hh|].
  assert (opponents Q range1 (sys_world st1) = []) as Hopp.
  { unfold opponents, GetClientsInRoom. rewrite list_filter_filter.
    apply filter_nobody, Forall_forall.
    intros c [id Hc]%He [Hne Hr]. rewrite Hh in Hne, Hr.
    rewrite Hd in Hc. apply lookup_delete_Some in Hc as [Hkey Hc].
    destruct (Hhub id c Hc) as (Hi & _).
    destruct (proj1 (Hp c)) as [-> | ->]; [|congruence|done].
    split; [by exists id | congruence]. }
  destruct (asScorePayload msg) as [score|] eqn:Es.
  - rewrite (handle_UPDATE_SCORE _ _ _ _ _ score E Es).
    destruct (_ >? 50)%Z;
      (erewrite emitted_app;
        [|by rewrite trace_notifyOpponent, ?trace_upd]).
    + by rewrite Hopp.
    + rewrite (opponents_ext (sys_world st1))
        by (intros q; rewrite heap_upd; by case_decide; subst).
      by rewrite Hopp.
  - rewrite handle_undecodable by auto. unfold emitted. apply drop_all.
Qed.

Lemma on_world_id (f : World → World) st :
  f (sys_world st) = sys_world st → on_world f st = st.
Proof.
  intros H. unfold on_world. rewrite H. by destruct st as [[? ? ?] ? ?].
Qed.

Lemma ServeWs_read_inert client st r :
  inert r = true → ServeWs_read client st r = st.
Proof.
  unfold inert, ServeWs_read. destruct r.1.1 as [msg|]; [|done].
  repeat case_decide; try done.
  - intros Hn%bool_decide_eq_true. apply on_world_id.
    by apply handle_undecodable.
  - intros _. apply on_world_id. apply handle_other; tauto.
Qed.

(** X13: reads that do not parse, that carry a type the relay does not
    know, or that carry a score message whose payload does not decode
    have no effect at all: a connection that sends them ends as the one
    that sends the remaining messages only. *)
Theorem ServeWs_skips_inert_reads (uuid8 : string) (reads : list Read)
    (st : System) :
  ServeWs uuid8 reads st =
  ServeWs uuid8 (filter (λ r, inert r = false) reads) st.
Proof.
  unfold ServeWs. cbv zeta. f_equal.
  generalize (ServeWs_open uuid8 st). generalize (sys_next st).
  intros client v. revert v.
  induction reads as [|r reads IH]; intros v; [done|].
  cbn [foldl]. destruct (inert r) eqn:Hr.
  - rewrite ServeWs_read_inert by done.
    rewrite filter_cons_False by congruence. apply IH.
  - rewrite filter_cons_True by done. cbn [foldl]. apply IH.
Qed.

(** ** The outbound buffers *)

Lemma bounded_upd c f w :
  (∀ cl, Send (f cl) = Send cl) → bounded w → bounded (upd c f w).
Proof.
  intros Hf Hb q. rewrite heap_upd. case_decide; subst; [rewrite Hf|]; apply Hb.
Qed.

Lemma bounded_SendJSON c t p w : bounded w → bounded (SendJSON c t p w).
Proof.
  intros Hb q. unfold SendJSON. case_decide as Hroom; [|apply Hb].
  rewrite heap_upd. case_decide; subst; [|apply Hb].
  cbn. rewrite length_app. cbn in *. lia.
Qed.

Lemma bounded_foldl (g : World → loc → World) l :
  (∀ w c, bounded w → bounded (g w c)) →
  ∀ w, bounded w → bounded (foldl g w l).
Proof.
  intros Hg. induction l as [|c l IH]; intros w Hb; [done|].
  cbn [foldl]. by apply IH, Hg.
Qed.

Lemma bounded_notifyOpponent client t p e w :
  bounded w → bounded (notifyOpponent client t p e w).
Proof.
  unfold notifyOpponent. apply bounded_foldl.
  intros v c Hb. case_decide; [by apply bounded_SendJSON | done].
Qed.

Lemma bounded_handleMessage client msg range1 range2 w :
  bounded w → bounded (handleMessage client msg range1 range2 w).
Proof.
  intros Hb. by_type msg.
  - rewrite (handle_JOIN_QUEUE _ _ _ _ _ E).
    destruct (_ && _); [|done]. cbv zeta.
    apply bounded_upd; [done|]. unfold AddToQueue.
    case_decide; intros q; cbn [heap]; by apply bounded_upd.
  - destruct (asScorePayload msg) as [score|] eqn:Es;
      [|by rewrite handle_undecodable by auto].
    rewrite (handle_UPDATE_SCORE _ _ _ _ _ score E Es).
    destruct (_ >? 50)%Z; apply bounded_notifyOpponent; [done|].
    by apply bounded_upd.
  - destruct (asScorePayload msg) as [score|] eqn:Es;
      [|by rewrite handle_undecodable by auto].
    rewrite (handle_PLAYER_DIED _ _ _ _ _ score E Es). cbv zeta.
    assert (bounded (notifyOpponent client "OPPONENT_UPDATE"
              (OpponentUpdatePayload score false) range1
              (upd client (setIsAlive false)
                 (upd client (setScore score) w)))) as Hb3.
    { apply bounded_notifyOpponent.
      apply bounded_upd; [done|]. by apply bounded_upd. }
    destruct (allDead _ _); [|done].
    apply bounded_foldl; [intros; by apply bounded_upd|].
    apply bounded_foldl; [by intros|].
    apply bounded_foldl; [|done].
    intros v c Hv. unfold sendGameOver.
    destruct (_.2); by apply bounded_SendJSON.
  - rewrite (handle_LEAVE_GAME _ _ _ _ _ E).
    case_decide; [done|].
    apply bounded_upd; [done|]. by apply bounded_notifyOpponent.
  - by rewrite handle_other by done.
Qed.

Lemma bounded_createMatch closed player1 player2 roomID seed w :
  bounded w →
  bounded (reached (createMatch closed player1 player2 roomID seed w)).
Proof.
  intros Hb.
  assert (bounded (upd player2 (assigned roomID)
                     (upd player1 (assigned roomID) w))) as Hb2
    by (apply bounded_upd; [done|]; by apply bounded_upd).
  rewrite createMatch_cases.
  destruct (decide (player1 ∈ closed)); [|destruct (decide (player2 ∈ closed))];
    cbn [reached].
  - exact Hb2.
  - by apply bounded_SendJSON.
  - destruct (matched_unfold w player1 player2 roomID seed) as [_ ->].
    by do 2 apply bounded_SendJSON.
Qed.

Lemma bounded_act gen st a :
  bounded (sys_world st) → bounded (sys_world (act gen st a)).
Proof.
  intros Hb.
  destruct a as [uuid8 | client [[[msg|] range1] range2] | client |];
    cbn [act].
  - destruct (ServeWs_open_world uuid8 st) as (_ & Hc & Hq & _).
    intros q. destruct (decide (q = sys_next st)) as [->|Hne].
    + rewrite Hc. cbn. unfold send_cap. lia.
    + rewrite Hq by done. apply Hb.
  - by apply bounded_handleMessage.
  - done.
  - destruct (Unregister_world client st) as (Hh & _).
    intros q. rewrite Hh. apply Hb.
  - destruct (Run_receive_world gen st) as (_ & _ & Hw).
    destruct Hw as [-> | (client & rest & _ & [-> | (f & r & sd & ->)])];
      [done | done |].
    by apply bounded_createMatch.
Qed.

(** X17: in every run of the server from start-up, no outbound buffer
    ever holds more than its 256 messages. *)
Theorem buffers_stay_bounded (gen : nat → string * Z)
    (actions : list Action) (q : loc) :
  length (Send (heap (sys_world (foldl (act gen) boot actions)) q)) ≤ 256.
Proof.
  enough (∀ st, bounded (sys_world st) →
                bounded (sys_world (foldl (act gen) st actions))) as H.
  { apply (H boot). intros c. cbn. unfold send_cap. lia. }
  induction actions as [|a actions IH]; intros st Hb; [done|].
  cbn [foldl]. by apply IH, bounded_act.
Qed.

Lemma puts_cons_Put t p ops :
  puts (Put t p :: ops) = {| OutType := t; OutPayload := p |} :: puts ops.
Proof. reflexivity. Qed.

Lemma puts_cons_Take ops : puts (Take :: ops) = puts ops.
Proof. reflexivity. Qed.

Lemma channel_run client ops :
  ∀ w written,
    let r := foldl (chan_step client) (w, written) ops in
    (r.2 ++ Send (heap r.1 client)) `sublist_of`
      (written ++ Send (heap w client) ++ puts ops) ∧
    (length (Send (heap w client)) + length (puts ops) ≤ send_cap →
     r.2 ++ Send (heap r.1 client) =
       written ++ Send (heap w client) ++ puts ops).
Proof.
  induction ops as [|[t p|] ops IH]; intros w written; cbn [foldl].
  - cbn. by rewrite app_nil_r.
  - rewrite puts_cons_Put.
    change (chan_step client (w, written) (Put t p))
      with (SendJSON client t p w, written).
    destruct (IH (SendJSON client t p w) written) as [IH1 IH2].
    destruct (decide (length (Send (heap w client)) < send_cap)) as [Hr|Hr].
    + rewrite (Send_SendJSON_room w client t p Hr) in IH1, IH2.
      rewrite <- !app_assoc in IH1, IH2. cbn [app] in IH1, IH2.
      split; [done|]. intros Hlen. apply IH2.
      rewrite length_app. cbn [length] in *. lia.
    + rewrite (Send_SendJSON_full w client t p Hr) in IH1, IH2.
      split.
      * etrans; [exact IH1|]. apply sublist_app; [done|].
        apply sublist_app; [done|]. by apply sublist_cons.
      * cbn [length]. intros Hlen. lia.
  - rewrite puts_cons_Take.
    assert (chan_step client (w, written) Take =
            match Send (heap w client) with
            | [] => (w, written)
            | m :: rest => (upd client (setSend rest) w, written ++ [m])
            end) as ->.
    { unfold chan_step, WritePump_receive. cbn [fst snd].
      by destruct (Send (heap w client)). }
    destruct (Send (heap w client)) as [|m rest] eqn:Hbuf.
    + specialize (IH w written). by rewrite Hbuf in IH.
    + destruct (IH (upd client (setSend rest) w) (written ++ [m]))
        as [IH1 IH2].
      rewrite heap_upd_eq in IH1, IH2. cbn [Send setSend] in IH1, IH2.
      rewrite <- !app_assoc in IH1, IH2. cbn [app] in IH1, IH2.
      split; [done|]. intros Hlen. apply IH2. cbn [length] in Hlen. lia.
Qed.

(** X18: the messages [WritePump] has taken from a connection's
    channel, followed by those still in the buffer, are the messages that
    were in the buffer and those [SendJSON] was called with since, in that
    order and with some left out; none is left out when the buffer had
    room for all of them. *)
Theorem channel_keeps_order (client : loc) (ops : list ChanOp) (w : World) :
  let r := foldl (chan_step client) (w, []) ops in
  (r.2 ++ Send (heap r.1 client)) `sublist_of`
    (Send (heap w client) ++ puts ops) ∧
  (length (Send (heap w client)) + length (puts ops) ≤ send_cap →
   r.2 ++ Send (heap r.1 client) = Send (heap w client) ++ puts ops).
Proof. apply (channel_run client ops w []). Qed.

(** ** The server on two connections *)

Lemma legal_arrivals : legal one_room boot (arrivals ++ [Dequeues]).
Proof. vm_compute. repeat split; lia. Qed.

Lemma duel_run : duel = foldl (act one_room) boot (arrivals ++ [Dequeues]).
Proof. unfold duel, duel_waiting. by rewrite foldl_app. Qed.

Lemma registry_ok_boot : registry_ok boot.
Proof.
  split; [|by intros ? ?%elem_of_nil].
  intros i q H. exfalso. exact (lookup_empty_Some (M := gmap string) i q H).
Qed.

Lemma registry_ok_duel : registry_ok duel.
Proof.
  rewrite duel_run. apply registry_ok_run;
    [apply registry_ok_boot | apply legal_arrivals].
Qed.

Lemma hub_duel :
  hub_clients (sys_world duel) =
    <["guest_bbbbbbbb" := 1]> (<["guest_aaaaaaaa" := 0]> ∅).
Proof. vm_compute. reflexivity. Qed.

Lemma session_duel : session (sys_world duel) "room-1" 0 1.
Proof.
  apply session_sym.
  apply (session_two _ "room-1" "guest_bbbbbbbb" "guest_aaaaaaaa");
    [apply hub_duel | done | vm_compute; congruence | done | done].
Qed.

Lemma enumerates_duel : enumerates (sys_world duel) [0; 1].
Proof.
  apply (enumerates_two _ "guest_bbbbbbbb" "guest_aaaaaaaa" 1 0);
    [apply hub_duel | done | done].
Qed.

(** X12 on the two connections. *)
Lemma registry_stays_in_order_witness :
  legal one_room boot (arrivals ++ [Dequeues]) ∧
  ∀ id p, hub_clients (sys_world duel) !! id = Some p →
    ID (heap (sys_world duel) p) = id ∧ id ≠ "" ∧ p ∉ sys_closed duel.
Proof.
  split; [apply legal_arrivals|]. intros id p Hp. rewrite duel_run in *.
  destruct (registry_stays_in_order one_room (arrivals ++ [Dequeues])
              legal_arrivals id p Hp) as (H1 & _ & H2 & H3).
  split; [exact H1|]. split; [exact H2 | exact H3].
Defined.

(** X14 on the two connections: a score report of the first one. *)
Lemma relay_spares_closed_channels_witness :
  legal one_room boot (arrivals ++ [Dequeues]) ∧
  enumerates (sys_world duel) [0; 1] ∧
  CallSendJSON 1 "OPPONENT_UPDATE" (OpponentUpdatePayload 10 true) ∈
    emitted (sys_world duel)
      (sys_world (act one_room duel
         (Reads 0 (Some (report "UPDATE_SCORE" 10), [0; 1], [0; 1])))) ∧
  1 ∉ sys_closed duel.
Proof.
  assert (CallSendJSON 1 "OPPONENT_UPDATE" (OpponentUpdatePayload 10 true) ∈
    emitted (sys_world duel)
      (sys_world (act one_room duel
         (Reads 0 (Some (report "UPDATE_SCORE" 10), [0; 1], [0; 1])))))
    as Hin by (vm_compute; left).
  split; [apply legal_arrivals|]. split; [apply enumerates_duel|].
  split; [exact Hin|].
  pose proof enumerates_duel as He. rewrite duel_run in Hin, He |- *.
  exact (proj2 (relay_spares_closed_channels one_room (arrivals ++ [Dequeues])
    0 (report "UPDATE_SCORE" 10) [0; 1] [0; 1] 1 "OPPONENT_UPDATE"
    (OpponentUpdatePayload 10 true) legal_arrivals He He Hin)).
Defined.

(** X15 on the two connections: the first one closes while it waits. *)
Lemma matchmaker_pairs_closed_connection_witness :
  panicked (sys_loop duel_waiting) = false ∧
  waiting (sys_loop duel_waiting) = Some 0 ∧
  is_Some (hub_clients (sys_world duel_waiting)
             !! ID (heap (sys_world duel_waiting) 0)) ∧
  queue (sys_world duel_waiting) = [1] ∧
  let st1 := act one_room duel_waiting (Closes 0) in
  let st2 := act one_room st1 Dequeues in
  0 ∈ sys_closed st1 ∧
  head (emitted (sys_world st1) (sys_world st2)) =
    Some (CallSendJSON 0 "GAME_START"
            (GameStartPayload "room-1" 42 "guest_aaaaaaaa" "ann"
               "guest_bbbbbbbb" "bob")) ∧
  panicked (sys_loop st2) = true.
Proof.
  assert (is_Some (hub_clients (sys_world duel_waiting)
                     !! ID (heap (sys_world duel_waiting) 0))) as Hreg
    by (exists 0; vm_compute; reflexivity).
  split; [reflexivity|]. split; [reflexivity|]. split; [exact Hreg|].
  split; [reflexivity|].
  destruct (matchmaker_pairs_closed_connection one_room duel_waiting 0 1 []
              eq_refl eq_refl Hreg eq_refl) as (_ & _ & Hc & Hfirst & Hp).
  split; [exact Hc|]. split; [exact Hfirst | exact Hp].
Defined.

(** X16 on the two connections: the first one closes during the game. *)
Lemma close_is_silent_witness :
  registry_ok duel ∧ session (sys_world duel) "room-1" 0 1 ∧
  let st1 := act one_room duel (Closes 0) in
  enumerates (sys_world st1) [1] ∧
  RoomID (heap (sys_world st1) 1) = "room-1" ∧
  emitted (sys_world st1)
    (handleMessage 1 (report "UPDATE_SCORE" 10) [1] [1] (sys_world st1)) = [].
Proof.
  assert (enumerates (sys_world (act one_room duel (Closes 0))) [1]) as He.
  { split; [apply NoDup_singleton|]. intros p.
    assert (hub_clients (sys_world (act one_room duel (Closes 0))) =
            <["guest_bbbbbbbb" := 1]> ∅) as -> by (vm_compute; reflexivity).
    rewrite list_elem_of_singleton. split.
    - intros ->. exists "guest_bbbbbbbb". apply lookup_insert_eq.
    - intros (id & [[_ <-] | [_ H]]%lookup_insert_Some); [done|].
      exfalso. exact (lookup_empty_Some (M := gmap string) _ _ H). }
  split; [apply registry_ok_duel|]. split; [apply session_duel|].
  split; [exact He|].
  destruct (close_is_silent one_room duel "room-1" 0 1
              (report "UPDATE_SCORE" 10) [1] [1]
              registry_ok_duel session_duel He eq_refl)
    as (_ & _ & _ & Hr & Hnone).
  split; [exact Hr | exact Hnone].
Defined.

(** * The leaderboard endpoint *)

Lemma add_exact (a b : Z) : GoInt.is_int (a + b) → db.add a b = (a + b)%Z.
Proof. apply wrap_id. Qed.

Lemma mul_exact (a b : Z) : GoInt.is_int (a * b) → db.mul a b = (a * b)%Z.
Proof. apply wrap_id. Qed.

Lemma scan_ranks (rows : list (option db.Row)) (first : Z) (i : nat)
    (e : db.LeaderboardEntry) :
  (GoInt.int_min ≤ first)%Z →
  (first + Z.of_nat (length (db.scan first rows)) ≤ GoInt.int_max + 1)%Z →
  db.scan first rows !! i = Some e → db.Rank e = (first + Z.of_nat i)%Z.
Proof.
  revert first i. induction rows as [|[row|] rows IH]; intros first i Hlo Hhi.
  - done.
  - cbn [db.scan] in *. destruct i as [|i].
    + intros [= <-]. cbn. lia.
    + cbn [lookup list_lookup]. intros He.
      pose proof (lookup_lt_Some _ _ _ He) as Hlen.
      cbn [length] in Hhi.
      assert (db.add first 1 = (first + 1)%Z) as Hadd.
      { apply add_exact. unfold GoInt.is_int in *. lia. }
      rewrite Hadd in *. rewrite (IH (first + 1)%Z i); [lia | lia | lia | done].
  - cbn [db.scan] in *. by apply IH.
Qed.

Lemma scan_ranked (rows : list db.Row) (first : Z) :
  (GoInt.int_min ≤ first)%Z →
  (first + Z.of_nat (length rows) ≤ GoInt.int_max + 1)%Z →
  db.scan first (Some <$> rows) = ranked first rows.
Proof.
  revert first. induction rows as [|row rows IH]; intros first Hlo Hhi; [done|].
  cbn [fmap list_fmap db.scan ranked length] in *. f_equal.
  destruct rows as [|row' rows']; [done|].
  rewrite add_exact; [| unfold GoInt.is_int; cbn [length] in *; lia].
  apply IH; cbn [length] in *; lia.
Qed.

Lemma ranked_app (l1 l2 : list db.Row) (first : Z) :
  ranked first (l1 ++ l2) =
    ranked first l1 ++ ranked (first + Z.of_nat (length l1)) l2.
Proof.
  revert first. induction l1 as [|row l1 IH]; intros first.
  - cbn. by rewrite Z.add_0_r.
  - cbn [app ranked length]. rewrite IH. do 3 f_equal. lia.
Qed.

Lemma ranked_nil_iff (rows : list db.Row) (first : Z) :
  ranked first rows = [] ↔ rows = [].
Proof. by destruct rows. Qed.

(** Chunks of [s] rows, ranked one after the other, make the whole list. *)
Lemma ranked_chunks (s : nat) (n : nat) (l : list db.Row) (first : Z) :
  0 < s → length l ≤ n * s →
  mjoin ((λ k, ranked (first + Z.of_nat (k * s)) (take s (drop (k * s) l)))
         <$> seq 0 n) = ranked first l.
Proof.
  intros Hs. revert l first. induction n as [|n IH]; intros l first Hl.
  - destruct l; [done | cbn in Hl; lia].
  - cbn [seq fmap list_fmap mjoin list_join]. rewrite <- fmap_S_seq.
    rewrite <- list_fmap_compose.
    rewrite Nat.mul_0_l, Z.add_0_r, drop_0.
    transitivity (ranked first (take s l ++ drop s l));
      [| by rewrite take_drop].
    rewrite ranked_app. f_equal.
    rewrite <- (IH (drop s l) (first + Z.of_nat (length (take s l)))%Z)
      by (rewrite length_drop; lia).
    f_equal. apply list_fmap_ext. intros _ k _. cbn.
    rewrite drop_drop.
    replace (s + k * s) with (k * s + s) by lia.
    destruct (decide (s ≤ length l)) as [Hle|Hgt].
    + rewrite length_take, Nat.min_l by done. f_equal; lia.
    + rewrite !drop_ge by lia. by rewrite take_nil.
Qed.

Lemma pages_exact (page s : Z) :
  (1 ≤ page)%Z → (1 ≤ s)%Z → ((page - 1) * s ≤ GoInt.int_max)%Z →
  db.mul (GoInt.sub page 1) s = ((page - 1) * s)%Z.
Proof.
  intros Hp Hs Hmax.
  assert (page - 1 ≤ GoInt.int_max)%Z by nia.
  rewrite sub_exact by (unfold GoInt.is_int, GoInt.int_min in *; lia).
  apply mul_exact. unfold GoInt.is_int, GoInt.int_min in *. nia.
Qed.

(** The page size the handler settles on. *)
Lemma pageSize_bounds (limit_param : option Z) :
  let pageSize :=
    match limit_param with
    | Some parsed =>
        if decide ((parsed > 0)%Z ∧ (parsed ≤ 100)%Z) then parsed else 10%Z
    | None => 10%Z
    end in
  (1 ≤ pageSize ≤ 100)%Z.
Proof. destruct limit_param; cbn; [case_decide|]; lia. Qed.

Lemma page_bounds (page_param : option Z) :
  let page :=
    match page_param with
    | Some parsed => if decide (parsed > 0)%Z then parsed else 1%Z
    | None => 1%Z
    end in
  (1 ≤ page)%Z.
Proof. destruct page_param; cbn; [case_decide|]; lia. Qed.

(** X19: whatever the database answers, a leaderboard response has a page
    of at least 1 and a page size between 1 and 100, and as long as the
    last rank fits a Go [int], its entries carry consecutive ranks that
    start right after the rows of the pages before it: a row that failed to
    scan takes no rank. *)
Theorem leaderboard_ranks_consecutive (pool : db.Database) (method : string)
    (page_param limit_param : option Z) (r : db.LeaderboardResponse) :
  db.HandleLeaderboard pool method page_param limit_param = db.Json r →
  ((db.Page r - 1) * db.PageSize r + Z.of_nat (length (db.Entries r))
     ≤ GoInt.int_max)%Z →
  (1 ≤ db.Page r)%Z ∧ (1 ≤ db.PageSize r ≤ 100)%Z ∧
  ∀ (i : nat) (e : db.LeaderboardEntry), db.Entries r !! i = Some e →
    db.Rank e = ((db.Page r - 1) * db.PageSize r + 1 + Z.of_nat i)%Z.
Proof.
  unfold db.HandleLeaderboard.
  pose proof (page_bounds page_param) as Hp.
  pose proof (pageSize_bounds limit_param) as Hs.
  cbv zeta in Hp, Hs. revert Hp Hs.
  generalize (match page_param with
              | Some parsed => if decide (parsed > 0)%Z then parsed else 1%Z
              | None => 1%Z
              end) as page.
  generalize (match limit_param with
              | Some parsed =>
                  if decide ((parsed > 0)%Z ∧ (parsed ≤ 100)%Z)
                  then parsed else 10%Z
              | None => 10%Z
              end) as pageSize.
  intros pageSize page Hp Hs. cbv zeta.
  repeat case_decide; try done.
  destruct (db.count_rows pool) as [totalCount|]; [|done].
  destruct (db.select_page pool pageSize _) as [rows|] eqn:Hrows; [|done].
  intros [= <-]; cbn [db.Page db.PageSize db.Entries db.TotalPages] in *;
    intros Hmax.
  all: split; [done|]; split; [done|]; intros i e He.
  all: assert ((page - 1) * pageSize ≤ GoInt.int_max)%Z as Hoff by lia.
  all: rewrite (pages_exact page pageSize) in * by lia.
  all: assert (db.add ((page - 1) * pageSize) 1 = ((page - 1) * pageSize + 1)%Z)
         as Hadd by (apply add_exact;
                     pose proof (lookup_lt_Some _ _ _ He);
                     unfold GoInt.is_int, GoInt.int_min in *; nia).
  all: rewrite Hadd in *.
  all: apply (scan_ranks rows); [unfold GoInt.int_min; nia | lia | done].
Qed.

Lemma page_size_bounds (limit_param : option Z) :
  (1 ≤ page_size limit_param ≤ 100)%Z.
Proof. apply pageSize_bounds. Qed.

(** The reply to a page request when the pool answers from a table. *)
Lemma HandleLeaderboard_served (pool : db.Database) (ordered : list db.Row)
    (page : Z) (limit_param : option Z) :
  let s := page_size limit_param in
  let L := Z.of_nat (length ordered) in
  serves pool ordered → (L ≤ GoInt.int_max - 100)%Z →
  (0 < page)%Z → ((page - 1) * s ≤ GoInt.int_max)%Z →
  db.HandleLeaderboard pool "GET" (Some page) limit_param =
    db.Json {| db.Entries :=
                 ranked ((page - 1) * s + 1)
                   (take (Z.to_nat s) (drop (Z.to_nat ((page - 1) * s)) ordered));
               db.TotalCount := L; db.Page := page; db.PageSize := s;
               db.TotalPages := page_count L s |}.
Proof.
  intros s L [Hcount Hselect] HL Hp Hoff.
  pose proof (page_size_bounds limit_param) as Hs. fold s in Hs.
  unfold db.HandleLeaderboard.
  change (match limit_param with
          | Some parsed =>
              if decide ((parsed > 0)%Z ∧ (parsed ≤ 100)%Z)
              then parsed else 10%Z
          | None => 10%Z
          end) with s.
  rewrite (decide_False (P := "GET" = "OPTIONS")) by done.
  rewrite (decide_False (P := "GET" ≠ "GET")) by (by intros H; apply H).
  rewrite (decide_True (P := (page > 0)%Z)) by lia. cbv zeta.
  rewrite (pages_exact page s) by lia.
  rewrite Hcount, Hselect by nia. fold L.
  rewrite (add_exact L s), (sub_exact (L + s) 1)
    by (unfold GoInt.is_int, GoInt.int_min, GoInt.int_max in *; lia).
  f_equal. f_equal.
  - set (rows := take _ _).
    destruct rows as [|row rows'] eqn:Hrows; [done|]. rewrite <- Hrows.
    assert (length rows ≤ length ordered - Z.to_nat ((page - 1) * s)) as Hlen.
    { unfold rows. rewrite length_take, length_drop. lia. }
    assert (0 < length rows) as Hpos by (rewrite Hrows; cbn; lia).
    rewrite add_exact
      by (unfold GoInt.is_int, GoInt.int_min, GoInt.int_max in *; nia).
    apply scan_ranked; unfold GoInt.int_min, GoInt.int_max in *; [nia|lia].
  - unfold page_count. rewrite Z.quot_div_nonneg by lia.
    assert (0 ≤ (L + s - 1) / s)%Z by (apply Z.div_pos; lia).
    case_decide; lia.
Qed.

Lemma page_count_covers (count size : Z) :
  (0 ≤ count)%Z → (1 ≤ size)%Z →
  (1 ≤ page_count count size)%Z ∧
  (count ≤ page_count count size * size)%Z ∧
  ((page_count count size - 1) * size ≤ count)%Z ∧
  ∀ page, (0 < count)%Z →
    (page_count count size < page ↔ count ≤ (page - 1) * size)%Z.
Proof.
  intros Hc Hs. unfold page_count.
  pose proof (Z.div_mod (count + size - 1) size ltac:(lia)) as Hdm.
  pose proof (Z.mod_pos_bound (count + size - 1) size ltac:(lia)) as Hmod.
  set (q := ((count + size - 1) / size)%Z) in *.
  assert (0 ≤ q)%Z by (apply Z.div_pos; lia).
  repeat split; nia.
Qed.

(** X20: when the pool answers from one table, the pages 1 to
    [TotalPages] of the leaderboard, one after the other, list every row of
    the table once, in the table's order, with the ranks 1, 2, ... *)
Theorem leaderboard_pages_partition (pool : db.Database)
    (ordered : list db.Row) (limit_param : option Z) :
  serves pool ordered →
  (Z.of_nat (length ordered) ≤ GoInt.int_max - 100)%Z →
  ∃ r : db.LeaderboardResponse,
    db.HandleLeaderboard pool "GET" (Some 1%Z) limit_param = db.Json r ∧
    db.TotalCount r = Z.of_nat (length ordered) ∧
    pages pool limit_param (Z.to_nat (db.TotalPages r)) = ranked 1 ordered.
Proof.
  intros Hserves HL.
  pose proof (page_size_bounds limit_param) as Hs.
  set (s := page_size limit_param) in *.
  set (L := Z.of_nat (length ordered)) in *.
  destruct (page_count_covers L s ltac:(lia) ltac:(lia))
    as (Hn1 & Hcover & Hlast & _).
  eexists. split; [|split].
  - apply (HandleLeaderboard_served pool ordered 1 limit_param);
      [done | done | lia | unfold GoInt.int_max; lia].
  - done.
  - cbn [db.TotalPages]. fold s L. unfold pages.
    rewrite <- (ranked_chunks (Z.to_nat s) (Z.to_nat (page_count L s))
                  ordered 1) by (unfold L in *; nia).
    f_equal. apply list_fmap_ext. intros i k [-> Hk]%lookup_seq.
    rewrite (HandleLeaderboard_served pool ordered _ limit_param Hserves HL)
      by (fold s; unfold GoInt.int_max in *; nia).
    cbn [entries db.Entries]. fold s.
    replace (Z.of_nat (S (0 + i)) - 1)%Z with (Z.of_nat i) by lia.
    replace (Z.to_nat (Z.of_nat i * s)) with ((0 + i) * Z.to_nat s) by nia.
    f_equal. nia.
Qed.

(** X21: when the pool answers from one table, a request for a page whose
    offset fits a Go [int] is answered with a response, never with an
    error, and its list of entries is empty exactly when the page lies
    past [TotalPages] or the table is empty. *)
Theorem leaderboard_page_empty_iff_past_end (pool : db.Database)
    (ordered : list db.Row) (page : Z) (limit_param : option Z) :
  serves pool ordered →
  (Z.of_nat (length ordered) ≤ GoInt.int_max - 100)%Z →
  (0 < page)%Z → ((page - 1) * page_size limit_param ≤ GoInt.int_max)%Z →
  ∃ r : db.LeaderboardResponse,
    db.HandleLeaderboard pool "GET" (Some page) limit_param = db.Json r ∧
    db.Page r = page ∧ db.PageSize r = page_size limit_param ∧
    db.TotalPages r =
      page_count (Z.of_nat (length ordered)) (page_size limit_param) ∧
    length (db.Entries r) ≤ Z.to_nat (db.PageSize r) ∧
    (db.Entries r = [] ↔ (db.TotalPages r < page)%Z ∨ ordered = []).
Proof.
  intros Hserves HL Hp Hoff.
  pose proof (page_size_bounds limit_param) as Hs.
  set (s := page_size limit_param) in *.
  set (L := Z.of_nat (length ordered)) in *.
  destruct (page_count_covers L s ltac:(lia) ltac:(lia))
    as (Hn1 & Hcover & Hlast & Hpast).
  eexists. split; [|split; [|split; [|split; [|split]]]].
  - by apply (HandleLeaderboard_served pool ordered page limit_param).
  - done.
  - done.
  - done.
  - cbn [db.Entries db.PageSize].
    assert (∀ rows first, length (ranked first rows) = length rows) as ->.
    { intros rows. induction rows as [|? ? IH]; intros first; [done|].
      cbn. by rewrite IH. }
    rewrite length_take. lia.
  - cbn [db.Entries db.TotalPages]. fold s L.
    rewrite ranked_nil_iff.
    destruct (decide (ordered = [])) as [Hnone|Hsome].
    { rewrite Hnone, drop_nil, take_nil. tauto. }
    assert (0 < L)%Z by (unfold L; destruct ordered; [done | cbn; lia]).
    rewrite (Hpast page) by done.
    split.
    + intros Hnil. left.
      destruct (decide (L ≤ (page - 1) * s)%Z) as [|Hin]; [done|].
      exfalso. apply (f_equal length) in Hnil.
      rewrite length_take, length_drop in Hnil. cbn in Hnil. unfold L in *. lia.
    + intros [Hle | ?]; [|done].
      rewrite drop_ge by (unfold L in *; lia). apply take_nil.
Qed.

Lemma serves_podium : serves podium_pool podium.
Proof. split; [done|]. by intros. Qed.

(** X19 on the first two rows of the podium. *)
Lemma leaderboard_ranks_consecutive_witness :
  ∃ r, db.HandleLeaderboard podium_pool "GET" (Some 2%Z) (Some 1%Z) = db.Json r ∧
       ((db.Page r - 1) * db.PageSize r + Z.of_nat (length (db.Entries r))
          ≤ GoInt.int_max)%Z ∧
       ∀ e, db.Entries r !! 0 = Some e → db.Rank e = 2%Z.
Proof.
  pose (r := {| db.Entries := ranked 2 (take 1 (drop 1 podium));
                db.TotalCount := 3; db.Page := 2; db.PageSize := 1;
                db.TotalPages := 3 |}).
  assert (db.HandleLeaderboard podium_pool "GET" (Some 2%Z) (Some 1%Z) =
          db.Json r) as Hr by (vm_compute; reflexivity).
  assert ((db.Page r - 1) * db.PageSize r + Z.of_nat (length (db.Entries r))
            ≤ GoInt.int_max)%Z as Hmax by (vm_compute; congruence).
  exists r. split; [exact Hr|]. split; [exact Hmax|].
  destruct (leaderboard_ranks_consecutive podium_pool "GET" (Some 2%Z)
              (Some 1%Z) r Hr Hmax) as (_ & _ & Hranks).
  intros e He. by rewrite (Hranks 0 e He).
Defined.

(** X20 on the podium, two rows a page. *)
Lemma leaderboard_pages_partition_witness :
  serves podium_pool podium ∧
  (Z.of_nat (length podium) ≤ GoInt.int_max - 100)%Z ∧
  ∃ r, db.HandleLeaderboard podium_pool "GET" (Some 1%Z) (Some 2%Z) = db.Json r ∧
       pages podium_pool (Some 2%Z) (Z.to_nat (db.TotalPages r)) =
         ranked 1 podium.
Proof.
  assert (Z.of_nat (length podium) ≤ GoInt.int_max - 100)%Z as HL
    by (vm_compute; congruence).
  split; [apply serves_podium|]. split; [exact HL|].
  destruct (leaderboard_pages_partition podium_pool podium (Some 2%Z)
              serves_podium HL) as (r & Hr & _ & Hpages).
  exists r. split; [exact Hr | exact Hpages].
Defined.

(** X21 on the podium: the third page of two rows is empty. *)
Lemma leaderboard_page_empty_iff_past_end_witness :
  serves podium_pool podium ∧
  (Z.of_nat (length podium) ≤ GoInt.int_max - 100)%Z ∧
  (0 < 3)%Z ∧ ((3 - 1) * page_size (Some 2%Z) ≤ GoInt.int_max)%Z ∧
  ∃ r, db.HandleLeaderboard podium_pool "GET" (Some 3%Z) (Some 2%Z) = db.Json r ∧
       (db.Entries r = [] ↔ (db.TotalPages r < 3)%Z ∨ podium = []).
Proof.
  assert (Z.of_nat (length podium) ≤ GoInt.int_max - 100)%Z as HL
    by (vm_compute; congruence).
  assert ((3 - 1) * page_size (Some 2%Z) ≤ GoInt.int_max)%Z as Hoff
    by (vm_compute; congruence).
  split; [apply serves_podium|]. split; [exact HL|]. split; [lia|].
  split; [exact Hoff|].
  destruct (leaderboard_page_empty_iff_past_end podium_pool podium 3
              (Some 2%Z) serves_podium HL ltac:(lia) Hoff)
    as (r & Hr & _ & _ & _ & _ & Hiff).
  exists r. split; [exact Hr | exact Hiff].
Defined.
